(** * takein: the path-intake engine of [main.go]

    A shallow embedding of the tokenizer ([parseEnvs]), the destination
    resolver ([destDirectory]), the analysis pass ([Program.AnalyzeInput])
    and the copy/link executor ([Program.Copy]), together with the parts of
    Go's standard library they call ([strings], [path/filepath], [os]).

    Go strings are byte sequences: they are modelled by [string], whose
    characters are the 256 values of [ascii].  Go maps are [gmap]s. *)

From Stdlib Require Import String Ascii DecimalString.
From stdpp Require Import gmap strings list fin_maps sorting.
From Equations Require Import Equations.

Local Open Scope string_scope.
Local Open Scope list_scope.
Local Open Scope nat_scope.

(** A closed decidable proposition, settled by evaluating its decision. *)
Ltac by_compute :=
  lazymatch goal with
  | |- ?P => apply (@bool_decide_unpack P _); vm_compute; exact I
  end.

(** ** Results of fallible code

    A Go function returning [(T, error)] returns [Ok v] or [Err e]; a run
    that stops in a run-time panic (an index or a slice out of range) is
    [Panic]. *)

Inductive result (E A : Type) : Type :=
  | Ok (a : A)
  | Err (e : E)
  | Panic.
Arguments Ok {E A} a.
Arguments Err {E A} e.
Arguments Panic {E A}.

(** ** Byte strings: slicing *)

Module Str.

Fixpoint take (n : nat) (s : string) : string :=
  match n, s with
  | S n', String c s' => String c (take n' s')
  | _, _ => ""
  end.

Fixpoint drop (n : nat) (s : string) : string :=
  match n, s with
  | S n', String _ s' => drop n' s'
  | _, _ => s
  end.

Fixpoint rev_onto (s acc : string) : string :=
  match s with
  | "" => acc
  | String c s' => rev_onto s' (String c acc)
  end.

Definition rev (s : string) : string := rev_onto s "".

Lemma app_cons (c : ascii) (s t : string) : String c s +:+ t = String c (s +:+ t).
Proof. reflexivity. Qed.

Lemma app_nil_l (s : string) : "" +:+ s = s.
Proof. reflexivity. Qed.

Lemma length_app (s t : string) :
  String.length (s +:+ t) = String.length s + String.length t.
Proof.
  induction s as [|c s IH]; [done|].
  rewrite app_cons; simpl; by rewrite IH.
Qed.

Lemma app_nil_r (s : string) : s +:+ "" = s.
Proof. induction s as [|c s IH]; [done|]. by rewrite app_cons, IH. Qed.

Lemma app_assoc (s t u : string) : (s +:+ t) +:+ u = s +:+ (t +:+ u).
Proof. induction s as [|c s IH]; [done|]. by rewrite !app_cons, IH. Qed.

Lemma length_drop (n : nat) (s : string) :
  String.length (drop n s) = String.length s - n.
Proof.
  revert s; induction n as [|n IH]; intros [|c s]; simpl; auto with lia.
Qed.

Lemma length_take (n : nat) (s : string) :
  String.length (take n s) = n `min` String.length s.
Proof.
  revert s; induction n as [|n IH]; intros [|c s]; simpl; auto with lia.
Qed.

Lemma take_drop (n : nat) (s : string) : take n s +:+ drop n s = s.
Proof.
  revert s; induction n as [|n IH]; intros [|c s]; simpl; auto.
  by rewrite app_cons, IH.
Qed.

Lemma drop_drop (n m : nat) (s : string) : drop m (drop n s) = drop (n + m) s.
Proof.
  revert s; induction n as [|n IH]; intros s; simpl; [done|].
  destruct s as [|c s]; [by destruct m | apply IH].
Qed.

Lemma drop_app_length (s t : string) : drop (String.length s) (s +:+ t) = t.
Proof. induction s as [|c s IH]; [by destruct t | by rewrite app_cons]. Qed.

Lemma take_app_length (s t : string) : take (String.length s) (s +:+ t) = s.
Proof.
  induction s as [|c s IH]; [by destruct t |].
  rewrite app_cons; simpl; by rewrite IH.
Qed.

Lemma drop_all (n : nat) (s : string) :
  (String.length s ≤ n)%nat → drop n s = "".
Proof.
  revert s; induction n as [|n IH]; intros [|c s]; simpl; auto with lia.
Qed.

Lemma length_zero (s : string) : String.length s = 0 → s = "".
Proof. by destruct s. Qed.

End Str.

(** ** Go's [strings] package *)

Module strings.

(** [asciiSpace]: the six ASCII white-space bytes. *)
Definition asciiSpace (c : nat) : bool :=
  bool_decide (c = 9 ∨ c = 10 ∨ c = 11 ∨ c = 12 ∨ c = 13 ∨ c = 32).

(** [unicode.IsSpace] on the UTF-8 encoding: the number of bytes of the
    white-space rune that [s] begins with, or [0] when it begins with none.
    The white-space runes are the six ASCII ones, U+0085, U+00A0, U+1680,
    U+2000 to U+200A, U+2028, U+2029, U+202F, U+205F and U+3000. *)
Definition spaceWidth (s : string) : nat :=
  match s with
  | "" => 0
  | String a r =>
    let a := nat_of_ascii a in
    if asciiSpace a then 1 else
    match r with
    | "" => 0
    | String b r' =>
      let b := nat_of_ascii b in
      if bool_decide (a = 194 ∧ (b = 133 ∨ b = 160)) then 2 else
      match r' with
      | "" => 0
      | String c _ =>
        let c := nat_of_ascii c in
        if bool_decide
             ((a = 225 ∧ b = 154 ∧ c = 128) ∨
              (a = 226 ∧ b = 128 ∧ (128 ≤ c ≤ 138 ∨ c = 168 ∨ c = 169 ∨ c = 175)) ∨
              (a = 226 ∧ b = 129 ∧ c = 159) ∨
              (a = 227 ∧ b = 128 ∧ c = 128))
        then 3 else 0
      end
    end
  end.

(** The same test on a reversed string: the width of the white-space rune
    that the original string ends with. *)
Definition spaceWidthRev (s : string) : nat :=
  match s with
  | "" => 0
  | String c r =>
    if asciiSpace (nat_of_ascii c) then 1 else
    match r with
    | "" => 0
    | String b r' =>
      if bool_decide (spaceWidth (String b (String c "")) = 2) then 2 else
      match r' with
      | "" => 0
      | String a _ =>
        if bool_decide (spaceWidth (String a (String b (String c ""))) = 3)
        then 3 else 0
      end
    end
  end.

Fixpoint trimLeftWith (width : string → nat) (s : string) : string :=
  match s with
  | "" => ""
  | String _ r1 =>
    match width s with
    | 0 => s
    | 1 => trimLeftWith width r1
    | 2 => match r1 with
           | String _ r2 => trimLeftWith width r2
           | "" => ""
           end
    | _ => match r1 with
           | String _ (String _ r3) => trimLeftWith width r3
           | _ => ""
           end
    end
  end.

(** [strings.TrimSpace]: all leading and trailing white space removed. *)
Definition TrimSpace (s : string) : string :=
  Str.rev (trimLeftWith spaceWidthRev (Str.rev (trimLeftWith spaceWidth s))).

(** [strings.HasPrefix]. *)
Fixpoint HasPrefix (s pre : string) {struct pre} : bool :=
  match pre, s with
  | "", _ => true
  | String c pre', String c' s' => bool_decide (c = c') && HasPrefix s' pre'
  | String _ _, "" => false
  end.

(** [strings.TrimPrefix]. *)
Definition TrimPrefix (s pre : string) : string :=
  if HasPrefix s pre then Str.drop (String.length pre) s else s.

(** [strings.Index]: the byte offset of the first occurrence of [sep] in
    [s]; [None] stands for Go's [-1]. *)
Fixpoint Index (s sep : string) : option nat :=
  if HasPrefix s sep then Some 0
  else match s with
       | "" => None
       | String _ s' => S <$> Index s' sep
       end.

(** [strings.Replace(s, "\r\n", "\n", -1)]. *)
Fixpoint ReplaceCRLF (s : string) : string :=
  match s with
  | "" => ""
  | String c r =>
    match r with
    | String c' r' =>
      if bool_decide (nat_of_ascii c = 13 ∧ nat_of_ascii c' = 10)
      then String c' (ReplaceCRLF r')
      else String c (ReplaceCRLF r)
    | "" => String c ""
    end
  end.

(** [strings.Split(s, sep)] for a one-byte separator: the fields between
    the occurrences of [sep], at least one. *)
Fixpoint SplitByte (s : string) (sep : ascii) : list string :=
  match s with
  | "" => [""]
  | String c r =>
    if bool_decide (c = sep) then "" :: SplitByte r sep
    else match SplitByte r sep with
         | field :: fields => String c field :: fields
         | [] => [String c ""]
         end
  end.

End strings.

(** ** Errors

    A Go [error] is a message built by [fmt.Errorf], or one of the structured
    errors of package [os], which carry the system call's error number. *)

Inductive Errno := ENOENT | ENOTDIR | EACCES | EEXIST | EPERM | EISDIR.

Inductive error :=
  | Errorf (msg : string)
  | PathError (op path : string) (errno : Errno)
  | LinkError (op old new : string) (errno : Errno).

Definition errnoText (e : Errno) : string :=
  match e with
  | ENOENT => "no such file or directory"
  | ENOTDIR => "not a directory"
  | EACCES => "permission denied"
  | EEXIST => "file exists"
  | EPERM => "operation not permitted"
  | EISDIR => "is a directory"
  end.

(** [err.Error()]. *)
Definition Error (e : error) : string :=
  match e with
  | Errorf msg => msg
  | PathError op path errno => op +:+ " " +:+ path +:+ ": " +:+ errnoText errno
  | LinkError op old new errno =>
      op +:+ " " +:+ old +:+ " " +:+ new +:+ ": " +:+ errnoText errno
  end.

(** [errors.Is(err, os.ErrNotExist)]. *)
Definition IsNotExist (e : error) : bool :=
  match e with
  | PathError _ _ ENOENT | LinkError _ _ _ ENOENT => true
  | _ => false
  end.

#[global] Instance Errno_eq_dec : EqDecision Errno.
Proof. solve_decision. Defined.
#[global] Instance error_eq_dec : EqDecision error.
Proof. solve_decision. Defined.
#[global] Instance result_eq_dec {E A : Type} `{EqDecision E, EqDecision A} :
  EqDecision (result E A).
Proof. solve_decision. Defined.

Abbreviation res := (result error).

(** Sequencing: the first error or panic ends the run. *)
#[global] Instance result_bind {E : Type} : MBind (result E) := λ A B k r,
  match r with
  | Ok a => k a
  | Err e => Err e
  | Panic => Panic
  end.

(** [for _, i := range idxs { a, err = body(i, a); if err != nil { return err } }] *)
Fixpoint forRange {A : Type} (body : nat → A → res A) (idxs : list nat) (a : A)
  : res A :=
  match idxs with
  | [] => Ok a
  | i :: idxs' => a' ← body i a; forRange body idxs' a'
  end.

(** ** The tokenizer: [parseEnvs] *)

(** The inner loop over [seps]: the cut position [idx], which starts at
    [len(remain)], and the separator [cutter] found there, which starts
    empty. *)
Definition cutStep (remain : string) (cut : nat * string) (sep : string)
  : nat * string :=
  if decide (strings.TrimSpace sep = "") then cut
  else match strings.Index remain sep with
       | None => cut
       | Some i => if decide (cut.1 ≤ i) then cut else (i, sep)
       end.

Definition findCutter (remain : string) (seps : list string) : nat * string :=
  foldl (cutStep remain) (String.length remain, "") seps.

Lemma HasPrefix_spec (s pre : string) :
  strings.HasPrefix s pre = true ↔ ∃ t, s = pre +:+ t.
Proof.
  revert s; induction pre as [|c pre IH]; intros s; simpl.
  - split; [exists s; done | done].
  - destruct s as [|c' s]; simpl;
      [split; [done | intros [t Ht]; by rewrite Str.app_cons in Ht] |].
    case_bool_decide as Hc; simpl.
    + subst c'. rewrite IH. split; intros [t Ht]; exists t.
      * by rewrite Str.app_cons, Ht.
      * rewrite Str.app_cons in Ht. by injection Ht.
    + split; [done | intros [t Ht]].
      rewrite Str.app_cons in Ht. by injection Ht as ->.
Qed.

Lemma Index_unfold (s sep : string) :
  strings.Index s sep =
  if strings.HasPrefix s sep then Some 0
  else match s with
       | "" => None
       | String _ s' => S <$> strings.Index s' sep
       end.
Proof. by destruct s. Qed.

Lemma Index_bound (s sep : string) (i : nat) :
  strings.Index s sep = Some i → i + String.length sep ≤ String.length s.
Proof.
  revert i; induction s as [|c s IH]; intros i; rewrite Index_unfold;
    destruct (strings.HasPrefix _ sep) eqn:Hp.
  - apply HasPrefix_spec in Hp as [t Ht]. intros [= <-].
    destruct sep; [simpl; lia | by rewrite Str.app_cons in Ht].
  - done.
  - apply HasPrefix_spec in Hp as [t Ht]. intros [= <-].
    rewrite Ht, Str.length_app. lia.
  - destruct (strings.Index s sep) as [j|]; [|done].
    intros [= <-]. specialize (IH j eq_refl). simpl. lia.
Qed.

(** [Index] finds an occurrence, and the first one. *)
Lemma Index_first (s sep : string) (i : nat) :
  strings.Index s sep = Some i →
  strings.HasPrefix (Str.drop i s) sep = true ∧
  ∀ j, j < i → strings.HasPrefix (Str.drop j s) sep = false.
Proof.
  revert i; induction s as [|c s IH]; intros i; rewrite Index_unfold;
    destruct (strings.HasPrefix _ sep) eqn:Hp.
  - intros [= <-]. split; [done | lia].
  - done.
  - intros [= <-]. split; [done | lia].
  - destruct (strings.Index s sep) as [k|]; [|done].
    intros [= <-]. destruct (IH k eq_refl) as [H1 H2]. split; [done|].
    intros [|j] Hj; simpl; [done | apply H2; lia].
Qed.

Lemma Index_none (s sep : string) (j : nat) :
  strings.Index s sep = None → strings.HasPrefix (Str.drop j s) sep = false.
Proof.
  revert j; induction s as [|c s IH]; intros j; rewrite Index_unfold;
    destruct (strings.HasPrefix _ sep) eqn:Hp; try done.
  - by destruct j.
  - destruct (strings.Index s sep) as [k|] eqn:Hk; [done|].
    intros _. destruct j as [|j]; simpl; [done | by apply IH].
Qed.

(** What the inner loop has found: nothing, or an occurrence of a separator
    that is not blank. *)
Definition cutOK (remain : string) (seps : list string) (cut : nat * string)
  : Prop :=
  (cut.2 = "" ∧ cut.1 = String.length remain) ∨
  (cut.2 ∈ seps ∧ strings.TrimSpace cut.2 ≠ "" ∧
   strings.Index remain cut.2 = Some cut.1).

Lemma cutStep_OK (remain : string) (seps : list string) cut sep :
  sep ∈ seps → cutOK remain seps cut → cutOK remain seps (cutStep remain cut sep).
Proof.
  intros Hin Hc. unfold cutStep.
  destruct (decide (strings.TrimSpace sep = "")); [done|].
  destruct (strings.Index remain sep) as [i|] eqn:Hi; [|done].
  destruct (decide (cut.1 ≤ i)); [done|]. by right.
Qed.

Lemma foldl_cutStep_OK (remain : string) (seps l : list string) cut :
  l ⊆ seps → cutOK remain seps cut → cutOK remain seps (foldl (cutStep remain) cut l).
Proof.
  revert cut; induction l as [|sep l IH]; intros cut Hl Hc; simpl; [done|].
  apply IH; [set_solver|]. apply cutStep_OK; [set_solver | done].
Qed.

Lemma findCutter_OK (remain : string) (seps : list string) :
  cutOK remain seps (findCutter remain seps).
Proof. apply foldl_cutStep_OK; [done | by left]. Qed.

Lemma TrimSpace_empty : strings.TrimSpace "" = "".
Proof. reflexivity. Qed.

(** The slices [remain[:idx]] and [remain[idx+len(cutter):]] are in range. *)
Lemma findCutter_bound (remain : string) (seps : list string) :
  (findCutter remain seps).1 + String.length (findCutter remain seps).2
  ≤ String.length remain.
Proof.
  destruct (findCutter_OK remain seps) as [[-> ->]|(_ & _ & Hi)]; simpl; [lia|].
  by apply Index_bound.
Qed.

(** Every turn of the outer loop consumes at least one byte. *)
Lemma findCutter_progress (remain : string) (seps : list string) :
  remain ≠ "" →
  0 < (findCutter remain seps).1 + String.length (findCutter remain seps).2.
Proof.
  intros Hne.
  destruct (findCutter_OK remain seps) as [[_ ->]|(_ & Ht & _)].
  - destruct remain; [done | simpl; lia].
  - destruct ((findCutter remain seps).2); [done | simpl; lia].
Qed.

(** The outer loop, [for len(remain) > 0]: each turn appends the fragment
    [remain[:idx]] to [vals] and skips [cutter].  The turns are returned as
    pairs (fragment, cutter), so that the consumed separators can be counted;
    [vals] is the list of first components. *)
Equations? splitSteps (remain : string) (seps : list string)
  : list (string * string) by wf (String.length remain) lt :=
  splitSteps "" _ := [];
  splitSteps remain seps :=
    (Str.take (findCutter remain seps).1 remain, (findCutter remain seps).2)
      :: splitSteps
           (Str.drop ((findCutter remain seps).1
                      + String.length (findCutter remain seps).2) remain)
           seps.
Proof.
  pose proof (findCutter_progress (String a s) seps ltac:(done)) as Hp.
  subst remain. rewrite Str.length_drop. simpl. lia.
Qed.

Definition splitVals (src : string) (seps : list string) : list string :=
  (splitSteps src seps).*1.

Example splitVals_ex1 : splitVals "proj_ep01_sh010" ["_"] = ["proj"; "ep01"; "sh010"].
Proof. reflexivity. Qed.

(** The loop that looks for the key divider ["..."]: [idx] is [None] for
    Go's [-1]; [i] is the index of the first key of [keys]. *)
Fixpoint findDivider (i : nat) (keys : list string) (idx : option nat)
  : res (option nat) :=
  match keys with
  | [] => Ok idx
  | key :: keys' =>
    if decide (key = "...") then
      match idx with
      | Some _ => Err (Errorf "multiple key divider (...) is not allowed")
      | None => findDivider (S i) keys' (Some i)
      end
    else findDivider (S i) keys' idx
  end.

(** [for i := range leftKeys]: key [i] takes value [i]. *)
Definition bindLeft (leftKeys vals : list string) (i : nat)
    (envs : gmap string string) : res (gmap string string) :=
  match leftKeys !! i with
  | None => Panic
  | Some k =>
    if decide (k = "_") then Ok envs
    else match vals !! i with
         | None => Panic
         | Some v => Ok (<[k := v]> envs)
         end
  end.

(** [for i := range rightKeys]: the key and the value at index [i] counted
    from the right.  [len(vals)-1-i] is negative, and the index out of
    range, when [i] is not below [len(vals)]. *)
Definition bindRight (rightKeys vals : list string) (i : nat)
    (envs : gmap string string) : res (gmap string string) :=
  match rightKeys !! (length rightKeys - 1 - i) with
  | None => Panic
  | Some k =>
    if decide (k = "_") then Ok envs
    else if decide (i < length vals) then
      match vals !! (length vals - 1 - i) with
      | None => Panic
      | Some v => Ok (<[k := v]> envs)
      end
    else Panic
  end.

Definition bindKeys (leftKeys rightKeys vals : list string)
  : res (gmap string string) :=
  envs ← forRange (bindLeft leftKeys vals) (seq 0 (length leftKeys)) ∅;
  forRange (bindRight rightKeys vals) (seq 0 (length rightKeys)) envs.

Definition parseEnvs (src : string) (seps keys : list string)
  : res (gmap string string) :=
  let vals := splitVals src seps in
  idx ← findDivider 0 keys None;
  match idx with
  | None =>
    if decide (length keys < length vals) then
      Err (Errorf ("too many values for keys: " +:+ src))
    else if decide (length vals < length keys) then
      Err (Errorf ("not enough values for keys: " +:+ src))
    else bindKeys keys [] vals
  | Some idx =>
    if decide (length vals < length keys - 1) then
      Err (Errorf ("not enough values for keys: " +:+ src))
    else bindKeys (take idx keys) (drop (idx + 1) keys) vals
  end.

Example parseEnvs_ex1 :
  parseEnvs "proj_ep01_sh010" ["_"] ["SHOW"; "SEQ"; "SHOT"]
  = Ok (<["SHOW" := "proj"]> (<["SEQ" := "ep01"]> (<["SHOT" := "sh010"]> ∅))).
Proof. vm_compute. reflexivity. Qed.

(** The separator occurrences a run of the splitting loop consumed: the
    turns that found a separator. *)
Definition consumed (steps : list (string * string)) : nat :=
  length (filter (λ st, st.2 ≠ "") steps).

(** The input read back from the turns: fragment, separator, fragment, ... *)
Definition unsplit (steps : list (string * string)) : string :=
  foldr (λ st acc, st.1 +:+ st.2 +:+ acc) "" steps.

Lemma splitSteps_nil (seps : list string) : splitSteps "" seps = [].
Proof. by simp splitSteps. Qed.

Lemma splitSteps_cons (remain : string) (seps : list string) :
  remain ≠ "" →
  splitSteps remain seps =
  (Str.take (findCutter remain seps).1 remain, (findCutter remain seps).2)
    :: splitSteps
         (Str.drop ((findCutter remain seps).1
                    + String.length (findCutter remain seps).2) remain) seps.
Proof. destruct remain; [done|]. intros _. by simp splitSteps. Qed.

(** A turn that finds no separator takes the whole remainder: it is the
    last one. *)
Lemma splitSteps_no_cutter (remain : string) (seps : list string) :
  remain ≠ "" → (findCutter remain seps).2 = "" →
  splitSteps remain seps = [(remain, "")].
Proof.
  intros Hne Hc. rewrite splitSteps_cons by done.
  destruct (findCutter_OK remain seps) as [[_ Hi]|(_ & Ht & _)].
  - rewrite Hc, Hi. simpl. rewrite Nat.add_0_r, Str.drop_all by done.
    rewrite splitSteps_nil. f_equal. f_equal.
    rewrite <- (Str.app_nil_r remain) at 2.
    by rewrite Str.take_app_length.
  - by rewrite Hc in Ht.
Qed.

Lemma splitSteps_ind (seps : list string) (P : string → Prop) :
  P "" →
  (∀ remain, remain ≠ "" →
     P (Str.drop ((findCutter remain seps).1
                  + String.length (findCutter remain seps).2) remain) →
     P remain) →
  ∀ remain, P remain.
Proof.
  intros H0 Hstep remain.
  remember (String.length remain) as n eqn:Hn. revert remain Hn.
  induction n as [n IH] using lt_wf_ind. intros remain ->.
  destruct (decide (remain = "")) as [->|Hne]; [done|].
  apply Hstep; [done|]. eapply IH; [|done].
  pose proof (findCutter_progress remain seps Hne).
  rewrite Str.length_drop. destruct remain; [done | simpl; lia].
Qed.

(** ** The file system

    A tree of directories and regular files.  There are no symbolic links,
    so [os.Stat] and [os.Lstat] agree, and a path is resolved lexically,
    from the root (the working directory is taken to be the root).  A
    directory may be unreadable: listing it fails with [EACCES].  Hard links
    are modelled by their content. *)

#[warnings="-register-all"]
Inductive Node :=
  | File (content : string)
  | Dir (readable : bool) (entries : list (string * Node)).

Definition isDir (n : Node) : bool :=
  match n with
  | Dir _ _ => true
  | File _ => false
  end.

(** The elements of a path that lexical cleaning ([filepath.Clean]) keeps:
    empty elements and ["."] are dropped, and [".."] removes the element
    before it, if there is one that is not itself [".."]; at the root it is
    dropped, elsewhere it stays.  [stack] holds the elements kept so far,
    the last one first. *)
Fixpoint cleanElems (rooted : bool) (elems stack : list string) : list string :=
  match elems with
  | [] => reverse stack
  | e :: elems' =>
    if decide (e = "" ∨ e = ".") then cleanElems rooted elems' stack
    else if decide (e = "..") then
      match stack with
      | top :: stack' =>
        if decide (top = "..") then cleanElems rooted elems' (e :: stack)
        else cleanElems rooted elems' stack'
      | [] =>
        if rooted then cleanElems rooted elems' []
        else cleanElems rooted elems' [e]
      end
    else cleanElems rooted elems' (e :: stack)
  end.

(** The names that lead from the root to [path]. *)
Definition pathElems (path : string) : list string :=
  cleanElems true (strings.SplitByte path "/") [].

(** The entry [name] of a directory listing. *)
Fixpoint entry (name : string) (entries : list (string * Node)) : option Node :=
  match entries with
  | [] => None
  | (n, x) :: entries' => if decide (n = name) then Some x else entry name entries'
  end.

(** The listing with [name] set to [x]; a new name is put in its place in
    the order of names, the order in which a directory is listed. *)
Fixpoint setEntry (name : string) (x : Node) (entries : list (string * Node))
  : list (string * Node) :=
  match entries with
  | [] => [(name, x)]
  | (n, y) :: entries' =>
    if decide (n = name) then (name, x) :: entries'
    else if String.ltb name n then (name, x) :: (n, y) :: entries'
    else (n, y) :: setEntry name x entries'
  end.

(** The node that the names [elems] lead to from [n]. *)
Fixpoint lookupNode (elems : list string) (n : Node) : result Errno Node :=
  match elems with
  | [] => Ok n
  | e :: elems' =>
    match n with
    | File _ => Err ENOTDIR
    | Dir _ entries =>
      match entry e entries with
      | None => Err ENOENT
      | Some child => lookupNode elems' child
      end
    end
  end.

(** A chain of new, empty directories. *)
Fixpoint newDirs (elems : list string) : Node :=
  match elems with
  | [] => Dir true []
  | e :: elems' => Dir true [(e, newDirs elems')]
  end.

(** The tree with the directory at [elems] and its missing ancestors made. *)
Fixpoint mkdirAllNode (elems : list string) (n : Node) : result Errno Node :=
  match n with
  | File _ => Err ENOTDIR
  | Dir r entries =>
    match elems with
    | [] => Ok n
    | e :: elems' =>
      match entry e entries with
      | None => Ok (Dir r (setEntry e (newDirs elems') entries))
      | Some child =>
        child' ← mkdirAllNode elems' child;
        Ok (Dir r (setEntry e child' entries))
      end
    end
  end.

(** The tree with the entry at [elems] replaced by what [new] makes of the
    entry found there; the directory that holds it must exist. *)
Fixpoint putNode (new : option Node → result Errno Node)
    (elems : list string) (n : Node) : result Errno Node :=
  match elems with
  | [] => new (Some n)
  | e :: elems' =>
    match n with
    | File _ => Err ENOTDIR
    | Dir r entries =>
      match elems' with
      | [] => x ← new (entry e entries); Ok (Dir r (setEntry e x entries))
      | _ :: _ =>
        match entry e entries with
        | None => Err ENOENT
        | Some child =>
          child' ← putNode new elems' child;
          Ok (Dir r (setEntry e child' entries))
        end
      end
    end
  end.

(** ** Go's [os] package *)

Module os.


Definition isShellSpecialVar (c : ascii) : bool :=
  let n := nat_of_ascii c in
  bool_decide (n = 42 ∨ n = 35 ∨ n = 36 ∨ n = 64 ∨ n = 33 ∨ n = 63 ∨ n = 45
               ∨ 48 ≤ n ≤ 57).

Definition isAlphaNum (c : ascii) : bool :=
  let n := nat_of_ascii c in
  bool_decide (n = 95 ∨ 48 ≤ n ≤ 57 ∨ 97 ≤ n ≤ 122 ∨ 65 ≤ n ≤ 90).

(** The scan for the closing brace in [getShellName]: [s] is the text after
    the opening brace and the [i - 1] bytes already scanned ([name], in
    reverse); the result is the name and the bytes consumed. *)
Fixpoint scanBrace (s : string) (i : nat) (name : string) : string * nat :=
  match s with
  | "" => ("", 1)
  | String c r =>
    if bool_decide (c = "}"%char) then
      if bool_decide (i = 1) then ("", 2) else (Str.rev name, i + 1)
    else scanBrace r (S i) (String c name)
  end.

(** The longest prefix of ASCII letters, digits and underscores. *)
Fixpoint scanAlphaNum (s : string) : string :=
  match s with
  | "" => ""
  | String c r => if isAlphaNum c then String c (scanAlphaNum r) else ""
  end.

(** [getShellName]: the name that begins [s] and the number of bytes of [s]
    it takes.  [s] is not empty where [Expand] calls it. *)
Definition getShellName (s : string) : string * nat :=
  match s with
  | "" => ("", 0)
  | String c r =>
    if bool_decide (c = "{"%char) then
      match r with
      | String c1 (String c2 _) =>
        if isShellSpecialVar c1 && bool_decide (c2 = "}"%char)
        then (String c1 "", 3)
        else scanBrace r 1 ""
      | _ => scanBrace r 1 ""
      end
    else if isShellSpecialVar c then (String c "", 1)
    else (scanAlphaNum s, String.length (scanAlphaNum s))
  end.

Lemma scanBrace_bound (s : string) (i : nat) (name : string) :
  1 ≤ i → (scanBrace s i name).2 ≤ i + String.length s.
Proof.
  revert i name; induction s as [|c r IH]; intros i name Hi; simpl; [lia|].
  repeat case_bool_decide; simpl; try lia.
  specialize (IH (S i) (String c name)). lia.
Qed.

Lemma scanAlphaNum_bound (s : string) :
  String.length (scanAlphaNum s) ≤ String.length s.
Proof.
  induction s as [|c r IH]; simpl; [done|].
  destruct (isAlphaNum c); simpl; lia.
Qed.

Lemma getShellName_bound (s : string) :
  (getShellName s).2 ≤ String.length s.
Proof.
  destruct s as [|c r]; simpl; [done|].
  case_bool_decide.
  - pose proof (scanBrace_bound r 1 "" ltac:(done)).
    destruct r as [|c1 [|c2 r]]; simpl in *; try lia.
    destruct (isShellSpecialVar c1 && bool_decide (c2 = "}"%char));
      simpl in *; lia.
  - destruct (isShellSpecialVar c); simpl; [lia|].
    pose proof (scanAlphaNum_bound (String c r)). simpl in *. done.
Qed.

Section Expand.
  (** The [mapping] function of the caller is a closure: it may update
      variables of the caller, here a state of type [St]. *)
  Context {St : Type} (mapping : string → St → string * St).

  (** [os.Expand(s, mapping)]: the text is copied up to each [$] that is not
      the last byte; the reference after it is replaced by the result of
      [mapping], bad syntax is dropped, and a [$] that no name follows
      stays. *)
Equations? Expand (s : string) (st : St) : string * St
    by wf (String.length s) lt :=
    Expand "" st := ("", st);
    Expand (String c "") st := (String c "", st);
    Expand (String c r) st :=
      if bool_decide (c = "$"%char) then
        if bool_decide ((getShellName r).1 = "") then
          if bool_decide (0 < (getShellName r).2) then
            Expand (Str.drop (getShellName r).2 r) st
          else
            let out := Expand (Str.drop (getShellName r).2 r) st in
            (String c out.1, out.2)
        else
          let m := mapping (getShellName r).1 st in
          let out := Expand (Str.drop (getShellName r).2 r) m.2 in
          (m.1 +:+ out.1, out.2)
      else
        let out := Expand r st in (String c out.1, out.2).
  Proof.
    all: try (rewrite Str.length_drop; simpl; lia).
    all: simpl; lia.
  Qed.

End Expand.

Arguments getShellName : simpl never.

(** The references of a pattern: the names [Expand] calls [mapping] with,
    in the order of the calls. *)
Definition references (s : string) : list string :=
  (Expand (λ name names, ("", names ++ [name])) s []).2.


(** *** System calls on the file system [fs] *)

Definition node (fs : Node) (path : string) : result Errno Node :=
  if decide (path = "") then Err ENOENT else lookupNode (pathElems path) fs.

(** [os.Stat]: the [IsDir] of the file information, or a [*PathError]. *)
Definition Stat (fs : Node) (path : string) : res bool :=
  match node fs path with
  | Ok n => Ok (isDir n)
  | Err errno => Err (PathError "stat" path errno)
  | Panic => Panic
  end.

(** [os.Lstat]. *)
Definition Lstat (fs : Node) (path : string) : res bool :=
  match node fs path with
  | Ok n => Ok (isDir n)
  | Err errno => Err (PathError "lstat" path errno)
  | Panic => Panic
  end.

(** [os.MkdirAll(path, 0755)]: the new file system, and the error. *)
Definition MkdirAll (fs : Node) (path : string) : Node * option error :=
  if decide (path = "") then (fs, Some (PathError "mkdir" path ENOENT))
  else match mkdirAllNode (pathElems path) fs with
       | Ok fs' => (fs', None)
       | Err errno => (fs, Some (PathError "mkdir" path errno))
       | Panic => (fs, None)
       end.

(** [os.Link(oldname, newname)]: [oldname] must be a file, and [newname]
    must not exist. *)
Definition Link (fs : Node) (oldname newname : string) : Node * option error :=
  match node fs oldname with
  | Ok (File content) =>
    let new (found : option Node) : result Errno Node :=
      match found with
      | Some _ => Err EEXIST
      | None => Ok (File content)
      end in
    match (if decide (newname = "") then Err ENOENT
           else putNode new (pathElems newname) fs) with
    | Ok fs' => (fs', None)
    | Err errno => (fs, Some (LinkError "link" oldname newname errno))
    | Panic => (fs, None)
    end
  | Ok (Dir _ _) => (fs, Some (LinkError "link" oldname newname EPERM))
  | Err errno => (fs, Some (LinkError "link" oldname newname errno))
  | Panic => (fs, None)
  end.

(** [os.Create(name)]: the file is made, or emptied when it exists. *)
Definition Create (fs : Node) (name : string) : Node * option error :=
  let new (found : option Node) : result Errno Node :=
    match found with
    | Some (Dir _ _) => Err EISDIR
    | _ => Ok (File "")
    end in
  match (if decide (name = "") then Err ENOENT
         else putNode new (pathElems name) fs) with
  | Ok fs' => (fs', None)
  | Err errno => (fs, Some (PathError "open" name errno))
  | Panic => (fs, None)
  end.

(** Writing [content] to the open file [name]. *)
Definition write (fs : Node) (name content : string) : Node :=
  match putNode (λ _, Ok (File content)) (pathElems name) fs with
  | Ok fs' => fs'
  | _ => fs
  end.

End os.


Example Expand_ex1 :
  os.Expand (λ name (_ : unit), ("<" +:+ name +:+ ">", tt))
    "/out/${SHOW}/$SEQ-$$x${}y${" tt
  = ("/out/<SHOW>/<SEQ>-<$>xy", tt).
Proof. reflexivity. Qed.

Example references_ex1 :
  os.references "/out/${SHOW}/$SEQ-$$x${}y${" = ["SHOW"; "SEQ"; "$"].
Proof. reflexivity. Qed.

Lemma string_length_ind (P : string → Prop) :
  (∀ s, (∀ s', String.length s' < String.length s → P s') → P s) →
  ∀ s, P s.
Proof.
  intros Hstep s. remember (String.length s) as n eqn:Hn. revert s Hn.
  induction n as [n IH] using lt_wf_ind. intros s ->.
  apply Hstep. intros s' Hlt. by eapply IH.
Qed.

Section ExpandState.
  Context {St : Type} (mapping : string → St → string * St).

  (** The calls of [mapping] during [Expand], run on the caller's state. *)
Definition runCalls (names : list string) (st : St) : St :=
    foldl (λ st name, (mapping name st).2) st names.

Lemma Expand_references_acc (s : string) (acc : list string) :
    (os.Expand (λ name names, ("", names ++ [name])) s acc).2
    = acc ++ os.references s.
  Proof.
    unfold os.references. revert acc.
    induction s as [s IH] using string_length_ind. intros acc.
    destruct s as [|c [|c' r]]; simp Expand; simpl;
      [by rewrite app_nil_r..|].
    pose proof (os.getShellName_bound (String c' r)) as Hb.
    set (g := os.getShellName (String c' r)) in *. clearbody g.
    assert (String.length (Str.drop g.2 (String c' r))
            < String.length (String c (String c' r))) as Hlt.
    { rewrite Str.length_drop. simpl in *. lia. }
    repeat case_bool_decide; cbn [fst snd].
    - apply IH, Hlt.
    - apply IH, Hlt.
    - rewrite (IH _ Hlt (acc ++ _)), (IH _ Hlt [_]).
      by rewrite <- app_assoc.
    - apply IH. simpl. lia.
  Qed.

Lemma Expand_state (s : string) (st : St) :
    (os.Expand mapping s st).2 = runCalls (os.references s) st.
  Proof.
    unfold os.references. revert st.
    induction s as [s IH] using string_length_ind. intros st.
    destruct s as [|c [|c' r]]; simp Expand; simpl; [done..|].
    pose proof (os.getShellName_bound (String c' r)) as Hb.
    set (g := os.getShellName (String c' r)) in *. clearbody g.
    assert (String.length (Str.drop g.2 (String c' r))
            < String.length (String c (String c' r))) as Hlt.
    { rewrite Str.length_drop. simpl in *. lia. }
    repeat case_bool_decide; cbn [fst snd].
    - apply IH, Hlt.
    - apply IH, Hlt.
    - by rewrite (IH _ Hlt), !Expand_references_acc.
    - apply IH. simpl. lia.
  Qed.

End ExpandState.


(** ** Walking a file tree: [filepath.WalkDir] and [fs.WalkDir] *)

(** What a [WalkDirFunc] returns: [nil], [fs.SkipDir] or another error; or
    it panics. *)
Inductive WalkResult :=
  | WalkNil
  | SkipDir
  | WalkErr (e : error)
  | WalkPanic.

Section Walk.
  (** The function called for each file or directory is a closure over a
      state [St] of the caller.  It gets the path, the entry (its [IsDir],
      or [None] for a [nil] entry) and the error met on the way. *)
  Context {St : Type}.
  Context (join : string → string → string).
  Context (fn : St → string → option bool → option error → St * WalkResult).

  (** [walkDir(path, d, fn)], where [d] describes the node [n]. *)
Fixpoint walkDir (path : string) (n : Node) (st : St) : St * WalkResult :=
    let '(st1, r1) := fn st path (Some (isDir n)) None in
    match n with
    | File _ => (st1, r1)
    | Dir readable entries =>
      match r1 with
      | SkipDir => (st1, WalkNil)
      | WalkNil =>
        if readable then
          (fix walkEntries (entries : list (string * Node)) (st : St)
             : St * WalkResult :=
             match entries with
             | [] => (st, WalkNil)
             | (name, child) :: entries' =>
               let '(st', r) := walkDir (join path name) child st in
               match r with
               | WalkNil => walkEntries entries' st'
               | SkipDir => (st', WalkNil)
               | _ => (st', r)
               end
             end) entries st1
        else
          let '(st2, r2) :=
            fn st1 path (Some true) (Some (PathError "open" path EACCES)) in
          match r2 with
          | SkipDir => (st2, WalkNil)
          | _ => (st2, r2)
          end
      | _ => (st1, r1)
      end
    end.

  (** The loop of [walkDir] over the entries of a directory. *)
Fixpoint walkEntries (path : string) (entries : list (string * Node)) (st : St)
    : St * WalkResult :=
    match entries with
    | [] => (st, WalkNil)
    | (name, child) :: entries' =>
      let '(st', r) := walkDir (join path name) child st in
      match r with
      | WalkNil => walkEntries path entries' st'
      | SkipDir => (st', WalkNil)
      | _ => (st', r)
      end
    end.

  (** [WalkDir(root, fn)] on the tree found at [root], or on the error of
      looking it up. *)
Definition walkRoot (root : string) (found : res Node) (st : St)
    : St * WalkResult :=
    let '(st', r) :=
      match found with
      | Ok n => walkDir root n st
      | Err e => fn st root None (Some e)
      | Panic => (st, WalkPanic)
      end in
    match r with
    | SkipDir => (st', WalkNil)
    | _ => (st', r)
    end.

End Walk.

(** ** Go's [path/filepath] package, on Unix *)

Module filepath.

(** [filepath.IsAbs]. *)
Definition IsAbs (path : string) : bool := strings.HasPrefix path "/".

(** [strings.Join(elems, "/")]. *)
Fixpoint joinSlash (elems : list string) : string :=
  match elems with
  | [] => ""
  | [e] => e
  | e :: elems' => e +:+ "/" +:+ joinSlash elems'
  end.

(** [filepath.Clean]: the shortest path name equivalent to [path] by purely
    lexical processing. *)
Definition Clean (path : string) : string :=
  let rooted := IsAbs path in
  let elems := cleanElems rooted (strings.SplitByte path "/") [] in
  if rooted then "/" +:+ joinSlash elems
  else if decide (elems = []) then "." else joinSlash elems.

(** [filepath.Join] of two elements: empty elements are ignored and the
    result is cleaned. *)
Definition Join (a b : string) : string :=
  if decide (a ≠ "") then Clean (a +:+ "/" +:+ b)
  else if decide (b ≠ "") then Clean b
  else "".

(** The text of [s] from its first slash on; on a reversed path, the path
    up to and including its last slash. *)
Fixpoint fromSlash (s : string) : string :=
  match s with
  | "" => ""
  | String c r => if bool_decide (c = "/"%char) then s else fromSlash r
  end.

(** [filepath.Dir]: all but the last element of [path], cleaned. *)
Definition Dir (path : string) : string :=
  Clean (Str.rev (fromSlash (Str.rev path))).

Fixpoint dropSlashes (s : string) : string :=
  match s with
  | String c r => if bool_decide (c = "/"%char) then dropSlashes r else s
  | "" => ""
  end.

Fixpoint untilSlash (s : string) : string :=
  match s with
  | String c r =>
    if bool_decide (c = "/"%char) then "" else String c (untilSlash r)
  | "" => ""
  end.

(** [filepath.Base]: the last element of [path], after the trailing slashes
    are removed; ["."] for the empty path and ["/"] for a path of slashes. *)
Definition Base (path : string) : string :=
  if decide (path = "") then "."
  else
    let last := Str.rev (untilSlash (dropSlashes (Str.rev path))) in
    if decide (last = "") then "/" else last.

(** [filepath.WalkDir(root, fn)]: the tree at [root] is walked in the order
    of the directory listings; the paths given to [fn] are [root] and, for
    an entry, the [Join] of its directory's path and its name. *)
Definition WalkDir {St : Type} (fs : Node) (root : string)
    (fn : St → string → option bool → option error → St * WalkResult) (st : St)
  : St * WalkResult :=
  walkRoot Join fn root
    (match os.node fs root with
     | Ok n => Ok n
     | Err errno => Err (PathError "lstat" root errno)
     | Panic => Panic
     end) st.

End filepath.

(** ** Go's [io/fs] package *)

Module fs.

(** [fs.WalkDir(os.DirFS(dir), ".", fn)]: the walk of the tree at [dir],
    with paths relative to it. *)
Definition WalkDir {St : Type} (fs : Node) (dir : string)
    (fn : St → string → option bool → option error → St * WalkResult) (st : St)
  : St * WalkResult :=
  walkRoot filepath.Join fn "."
    (match os.node fs dir with
     | Ok n => Ok n
     | Err errno => Err (PathError "stat" "." errno)
     | Panic => Panic
     end) st.

End fs.

Example Clean_ex :
  filepath.Clean <$> [""; "/"; "a/"; "/../a"; "../../a"; "a/.."; "/a//b/./c/.."; "a/../.."]
  = ["."; "/"; "a"; "/a"; "../../a"; "."; "/a/b"; ".."].
Proof. reflexivity. Qed.

Example Dir_ex :
  filepath.Dir <$> ["/a/b"; "/a/b/"; "/b"; "b"; ""; "/a/b/.."]
  = ["/a"; "/a/b"; "/"; "."; "."; "/a/b"].
Proof. reflexivity. Qed.

Example Base_ex :
  filepath.Base <$> ["/a/b"; "/a/b/"; "/"; ""; "b"; "///"; "/a/b/."]
  = ["b"; "b"; "/"; "."; "b"; "/"; "."].
Proof. reflexivity. Qed.

Example Join_ex :
  [filepath.Join "/out" "/b/c.txt"; filepath.Join "/out/" "b/c"; filepath.Join "" "b";
   filepath.Join "/out" ""; filepath.Join "" ""]
  = ["/out/b/c.txt"; "/out/b/c"; "b"; "/out"; ""].
Proof. reflexivity. Qed.

(** ** The destination resolver: [destDirectory] *)

(** The closure given to [os.Expand]: it reads [env] and writes the
    variable [unknown] of [destDirectory]. *)
Definition destMapping (env : gmap string string) (k : string) (unknown : string)
  : string * string :=
  match env !! k with
  | None => ("", "$" +:+ k)
  | Some v => (v, unknown)
  end.

Definition destDirectory (src destPattern : string) (env : gmap string string)
  : res string :=
  if negb (filepath.IsAbs src) then
    Err (Errorf ("not an absolute path: " +:+ src))
  else
    let destPattern := strings.TrimSpace destPattern in
    let '(destDir, unknown) := os.Expand (destMapping env) destPattern "" in
    if decide (unknown ≠ "") then
      Err (Errorf ("unknown environ variable in dest: " +:+ unknown))
    else Ok destDir.

Example destDirectory_ex1 :
  destDirectory "/src/x" "/out/${SHOW}/${SEQ}"
    (<["SHOW" := "proj"]> (<["SEQ" := "ep01"]> ∅))
  = Ok "/out/proj/ep01".
Proof. vm_compute. reflexivity. Qed.

Example destDirectory_ex2 :
  destDirectory "/src/x" "/out/${MISSING}" ∅
  = Err (Errorf "unknown environ variable in dest: $MISSING").
Proof. vm_compute. reflexivity. Qed.

(** ** The program state: [Program] *)

Record Program := mkProgram {
  InputText : string;
  PathSeps : list string;
  PathKeys : list string;
  NameSeps : list string;
  NameKeys : list string;
  DestPattern : string;
  Method : string;
  Analyzed : bool;
  Done : bool;
  NotExists : list string;
  Invalids : list string;
  Srcs : list string;
  SrcIsDir : gmap string bool;
  SrcDirFileCount : gmap string nat;
  DestDir : gmap string string;
  DestDirSrcs : gmap string (list string);
  DestDirExists : gmap string bool;
  Today : string;
}.

(** Assignments to the fields that the analysis writes. *)
Definition setNotExists (v : list string) (p : Program) : Program :=
  mkProgram (InputText p) (PathSeps p) (PathKeys p) (NameSeps p) (NameKeys p)
    (DestPattern p) (Method p) (Analyzed p) (Done p) v (Invalids p) (Srcs p)
    (SrcIsDir p) (SrcDirFileCount p) (DestDir p) (DestDirSrcs p)
    (DestDirExists p) (Today p).
Definition setInvalids (v : list string) (p : Program) : Program :=
  mkProgram (InputText p) (PathSeps p) (PathKeys p) (NameSeps p) (NameKeys p)
    (DestPattern p) (Method p) (Analyzed p) (Done p) (NotExists p) v (Srcs p)
    (SrcIsDir p) (SrcDirFileCount p) (DestDir p) (DestDirSrcs p)
    (DestDirExists p) (Today p).
Definition setSrcs (v : list string) (p : Program) : Program :=
  mkProgram (InputText p) (PathSeps p) (PathKeys p) (NameSeps p) (NameKeys p)
    (DestPattern p) (Method p) (Analyzed p) (Done p) (NotExists p) (Invalids p) v
    (SrcIsDir p) (SrcDirFileCount p) (DestDir p) (DestDirSrcs p)
    (DestDirExists p) (Today p).
Definition setSrcIsDir (v : gmap string bool) (p : Program) : Program :=
  mkProgram (InputText p) (PathSeps p) (PathKeys p) (NameSeps p) (NameKeys p)
    (DestPattern p) (Method p) (Analyzed p) (Done p) (NotExists p) (Invalids p)
    (Srcs p) v (SrcDirFileCount p) (DestDir p) (DestDirSrcs p)
    (DestDirExists p) (Today p).
Definition setSrcDirFileCount (v : gmap string nat) (p : Program) : Program :=
  mkProgram (InputText p) (PathSeps p) (PathKeys p) (NameSeps p) (NameKeys p)
    (DestPattern p) (Method p) (Analyzed p) (Done p) (NotExists p) (Invalids p)
    (Srcs p) (SrcIsDir p) v (DestDir p) (DestDirSrcs p)
    (DestDirExists p) (Today p).
Definition setDestDir (v : gmap string string) (p : Program) : Program :=
  mkProgram (InputText p) (PathSeps p) (PathKeys p) (NameSeps p) (NameKeys p)
    (DestPattern p) (Method p) (Analyzed p) (Done p) (NotExists p) (Invalids p)
    (Srcs p) (SrcIsDir p) (SrcDirFileCount p) v (DestDirSrcs p)
    (DestDirExists p) (Today p).
Definition setDestDirSrcs (v : gmap string (list string)) (p : Program) : Program :=
  mkProgram (InputText p) (PathSeps p) (PathKeys p) (NameSeps p) (NameKeys p)
    (DestPattern p) (Method p) (Analyzed p) (Done p) (NotExists p) (Invalids p)
    (Srcs p) (SrcIsDir p) (SrcDirFileCount p) (DestDir p) v
    (DestDirExists p) (Today p).
Definition setDestDirExists (v : gmap string bool) (p : Program) : Program :=
  mkProgram (InputText p) (PathSeps p) (PathKeys p) (NameSeps p) (NameKeys p)
    (DestPattern p) (Method p) (Analyzed p) (Done p) (NotExists p) (Invalids p)
    (Srcs p) (SrcIsDir p) (SrcDirFileCount p) (DestDir p) (DestDirSrcs p)
    v (Today p).
Definition setToday (v : string) (p : Program) : Program :=
  mkProgram (InputText p) (PathSeps p) (PathKeys p) (NameSeps p) (NameKeys p)
    (DestPattern p) (Method p) (Analyzed p) (Done p) (NotExists p) (Invalids p)
    (Srcs p) (SrcIsDir p) (SrcDirFileCount p) (DestDir p) (DestDirSrcs p)
    (DestDirExists p) v.

Definition setAnalyzed (v : bool) (p : Program) : Program :=
  mkProgram (InputText p) (PathSeps p) (PathKeys p) (NameSeps p) (NameKeys p)
    (DestPattern p) (Method p) v (Done p) (NotExists p) (Invalids p)
    (Srcs p) (SrcIsDir p) (SrcDirFileCount p) (DestDir p) (DestDirSrcs p)
    (DestDirExists p) (Today p).

(** [m[k]] for a [map[string]bool]: [false] for a missing key. *)
Definition flag (m : gmap string bool) (k : string) : bool := default false (m !! k).

(** [m[k]] for a [map[string]int]. *)
Definition count (m : gmap string nat) (k : string) : nat := default 0 (m !! k).

(** ** [Program.ParseEnvsFromSrc] *)

(** [for k, v := range src { dst[k] = v }]: the entries of [src] replace
    those of [dst], in whatever order the map is ranged over. *)
Definition copyInto (src dst : gmap string string) : gmap string string :=
  src ∪ dst.

Definition ParseEnvsFromSrc (p : Program) (src : string) : res (gmap string string) :=
  let env := ∅ in
  pathEnv ← parseEnvs src (PathSeps p) (PathKeys p);
  let env := copyInto pathEnv env in
  nameEnv ← parseEnvs (filepath.Base src) (NameSeps p) (NameKeys p);
  let env := copyInto nameEnv env in
  Ok env.

(** ** [Program.AnalyzeInput] *)

(** The lines of the text that hold a path: after an optional ["file://"],
    they begin with a slash. *)
Definition extractPaths (text : string) : list string :=
  let text := strings.ReplaceCRLF text in
  let lines := strings.SplitByte text "010"%char in
  filter (λ l, strings.HasPrefix l "/" = true)
    ((λ l, strings.TrimPrefix l "file://") <$> lines).

(** The first loop: the paths that exist go to [Srcs], the others to
    [NotExists]; another error of [os.Stat] ends the analysis. *)
Fixpoint statPaths (fs : Node) (paths : list string) (p : Program)
  : Program * res unit :=
  match paths with
  | [] => (p, Ok tt)
  | src :: paths' =>
    let src := strings.TrimSpace src in
    match os.Stat fs src with
    | Err err =>
      if negb (IsNotExist err) then
        (p, Err (Errorf (Error err +:+ ": " +:+ src)))
      else statPaths fs paths' (setNotExists (NotExists p ++ [src]) p)
    | Ok fi =>
      statPaths fs paths'
        (setSrcIsDir (<[src := fi]> (SrcIsDir p)) (setSrcs (Srcs p ++ [src]) p))
    | Panic => (p, Panic)
    end
  end.

(** The function given to [fs.WalkDir]: it counts the files below [src] in
    [SrcDirFileCount], and stops listing a directory once there are more
    than 1000. *)
Definition countFiles (src : string) (counts : gmap string nat) (path : string)
    (d : option bool) (err : option error) : gmap string nat * WalkResult :=
  match err with
  | Some e => (counts, WalkErr e)
  | None =>
    match d with
    | None => (counts, WalkPanic)
    | Some true => (counts, WalkNil)
    | Some false =>
      let counts := <[src := count counts src + 1]> counts in
      if decide (1000 < count counts src) then (counts, SkipDir)
      else (counts, WalkNil)
    end
  end.

(** The body of the second loop, for one existing path [src]. *)
Definition analyzeSrc (fs : Node) (src : string) (p : Program)
  : Program * res unit :=
  match ParseEnvsFromSrc p src with
  | Err err => (p, Err err)
  | Panic => (p, Panic)
  | Ok env =>
    let env := <["DATE" := Today p]> env in
    match destDirectory src (DestPattern p) env with
    | Panic => (p, Panic)
    | Err err =>
      (setInvalids (Invalids p ++ [src +:+ " (" +:+ Error err +:+ ")"]) p, Ok tt)
    | Ok destDir =>
      let p := setDestDir (<[src := destDir]> (DestDir p)) p in
      let '(p, r) :=
        if flag (SrcIsDir p) src then
          let '(counts, r) :=
            fs.WalkDir fs src (countFiles src) (SrcDirFileCount p) in
          (setSrcDirFileCount counts p, r)
        else (p, WalkNil) in
      match r with
      | WalkErr err => (p, Err err)
      | WalkPanic => (p, Panic)
      | _ =>
        let '(p, r) :=
          match DestDirExists p !! destDir with
          | Some _ => (p, Ok tt)
          | None =>
            match os.Stat fs destDir with
            | Err err =>
              if negb (IsNotExist err) then
                (p, Err (Errorf (Error err +:+ ": " +:+ src)))
              else (setDestDirExists (<[destDir := false]> (DestDirExists p)) p,
                    Ok tt)
            | Ok _ =>
              (setDestDirExists (<[destDir := true]> (DestDirExists p)) p, Ok tt)
            | Panic => (p, Panic)
            end
          end in
        match r with
        | Ok _ =>
          let destDirSrcs := default [] (DestDirSrcs p !! destDir) in
          let destDirSrcs := destDirSrcs ++ [src] in
          (setDestDirSrcs (<[destDir := destDirSrcs]> (DestDirSrcs p)) p, Ok tt)
        | _ => (p, r)
        end
      end
    end
  end.

(** The second loop, over the sorted [Srcs]. *)
Fixpoint analyzeSrcs (fs : Node) (srcs : list string) (p : Program)
  : Program * res unit :=
  match srcs with
  | [] => (p, Ok tt)
  | src :: srcs' =>
    let '(p', r) := analyzeSrc fs src p in
    match r with
    | Ok _ => analyzeSrcs fs srcs' p'
    | _ => (p', r)
    end
  end.

(** [sort.Strings]. *)
Definition sortStrings (l : list string) : list string := merge_sort String.le l.

(** [p.AnalyzeInput(text)] on the file system [fs]; [now] is
    [time.Now().Format("060102")].  The result is the program state left
    behind and the error returned. *)
Definition AnalyzeInput (fs : Node) (now : string) (p : Program) (text : string)
  : Program * res unit :=
  let p :=
    setToday now (setDestDirExists ∅ (setDestDirSrcs ∅ (setDestDir ∅
      (setSrcDirFileCount ∅ (setSrcIsDir ∅ (setSrcs [] (setInvalids []
        (setNotExists [] p)))))))) in
  let paths := extractPaths text in
  let '(p, r) := statPaths fs paths p in
  match r with
  | Ok _ =>
    let p := setSrcs (sortStrings (Srcs p)) p in
    analyzeSrcs fs (Srcs p) p
  | _ => (p, r)
  end.

(** ** [copyFile] and [Program.Copy] *)

(** [copyFile(src, dest)]: [src] is opened, [dest] is made or emptied, and
    the content of [src] is written to it. *)
Definition copyFile (fs : Node) (src dest : string) : Node * option error :=
  match os.node fs src with
  | Err errno => (fs, Some (PathError "open" src errno))
  | Panic => (fs, None)
  | Ok _ =>
    match os.Create fs dest with
    | (fs', Some err) => (fs', Some err)
    | (fs', None) =>
      match os.node fs' src with
      | Ok (File content) => (os.write fs' dest content, None)
      | Ok (Dir _ _) => (fs', Some (PathError "read" src EISDIR))
      | Err errno => (fs', Some (PathError "read" src errno))
      | Panic => (fs', None)
      end
    end
  end.

(** The function given to [filepath.WalkDir]: a file [s] below the source
    gets the sub-path [s[len(srcDir):]]; the slice is out of range when [s]
    is shorter than [srcDir]. *)
Definition collectFile (srcDir : string) (subPath : gmap string string)
    (s : string) (d : option bool) (err : option error)
  : gmap string string * WalkResult :=
  match err with
  | Some e => (subPath, WalkErr e)
  | None =>
    match d with
    | None => (subPath, WalkPanic)
    | Some true => (subPath, WalkNil)
    | Some false =>
      if decide (String.length srcDir ≤ String.length s) then
        (<[s := Str.drop (String.length srcDir) s]> subPath, WalkNil)
      else (subPath, WalkPanic)
    end
  end.

(** The loop over the sources of a group that fills [subPath].  What
    [filepath.WalkDir] returns is not looked at. *)
Fixpoint subPaths (p : Program) (fs : Node) (srcs : list string)
    (subPath : gmap string string) : res (gmap string string) :=
  match srcs with
  | [] => Ok subPath
  | src :: srcs' =>
    if flag (SrcIsDir p) src then
      let srcDir := filepath.Dir src in
      let '(subPath', r) := filepath.WalkDir fs src (collectFile srcDir) subPath in
      match r with
      | WalkPanic => Panic
      | _ => subPaths p fs srcs' subPath'
      end
    else subPaths p fs srcs' (<[src := filepath.Base src]> subPath)
  end.

(** [copyFunc]: [os.Link], or [copyFile] for the method ["copy"]. *)
Definition copyFunc (p : Program) : Node → string → string → Node * option error :=
  if decide (Method p = "copy") then copyFile else os.Link.

(** The body of the loop over [subPath], for the file [s] and its sub-path
    [sub]: the new file system and the error returned, if any. *)
Definition copyOne (p : Program) (destDir : string) (fs : Node) (s sub : string)
  : Node * res unit :=
  let d := filepath.Join destDir sub in
  let dDir := filepath.Dir d in
  let '(fs1, r1) :=
    match os.Stat fs dDir with
    | Ok _ => (fs, Ok tt)
    | Err err =>
      if negb (IsNotExist err) then
        (fs, Err (Errorf (Error err +:+ ": " +:+ dDir)))
      else
        match os.MkdirAll fs dDir with
        | (fs', Some err) =>
          (fs', Err (Errorf ("make dirs: " +:+ Error err +:+ ": " +:+ dDir)))
        | (fs', None) => (fs', Ok tt)
        end
    | Panic => (fs, Panic)
    end in
  match r1 with
  | Ok _ =>
    match os.Lstat fs1 d with
    | Ok _ => (fs1, Ok tt)
    | Err err =>
      if negb (IsNotExist err) then
        (fs1, Err (Errorf (Error err +:+ ": " +:+ s)))
      else
        match copyFunc p fs1 s d with
        | (fs2, Some err) =>
          (fs2, Err (Errorf (Method p +:+ " file: " +:+ Error err)))
        | (fs2, None) => (fs2, Ok tt)
        end
    | Panic => (fs1, Panic)
    end
  | _ => (fs1, r1)
  end.

(** The loop over [subPath], in the order [pairs]. *)
Fixpoint copyPairs (p : Program) (destDir : string) (pairs : list (string * string))
    (fs : Node) : Node * res unit :=
  match pairs with
  | [] => (fs, Ok tt)
  | (s, sub) :: pairs' =>
    let '(fs', r) := copyOne p destDir fs s sub in
    match r with
    | Ok _ => copyPairs p destDir pairs' fs'
    | _ => (fs', r)
    end
  end.

Section Copy.
  (** The order in which a [range] statement visits a map is not specified:
      it is a parameter, some listing of the entries of the map. *)
  Context (range : ∀ V : Type, gmap string V → list (string * V)).

  (** The loop over [DestDirSrcs], in the order [groups]. *)
Fixpoint copyGroups (p : Program) (groups : list (string * list string))
      (fs : Node) : Node * res unit :=
    match groups with
    | [] => (fs, Ok tt)
    | (destDir, srcs) :: groups' =>
      match subPaths p fs srcs ∅ with
      | Ok subPath =>
        let '(fs', r) := copyPairs p destDir (range _ subPath) fs in
        match r with
        | Ok _ => copyGroups p groups' fs'
        | _ => (fs', r)
        end
      | Err err => (fs, Err err)
      | Panic => (fs, Panic)
      end
    end.

  (** [p.Copy()] on the file system [fs]. *)
Definition Copy (p : Program) (fs : Node) : Node * res unit :=
    if negb (Analyzed p) then (fs, Err (Errorf "paths not analyzed yet"))
    else copyGroups p (range _ (DestDirSrcs p)) fs.

End Copy.

(** One order of visit: that of [map_to_list]. *)
Definition rangeList (V : Type) (m : gmap string V) : list (string * V) :=
  map_to_list m.

(** ** [stringMapper] *)

(** The loop [for i := 0; i+1 < len(toks); i += 2]: the tokens are taken
    two by two, and a last token without a partner is not used. *)
Fixpoint mapPairs (toks : list string) (mapper : gmap string string)
  : gmap string string :=
  match toks with
  | from :: to :: toks' => mapPairs toks' (<[from := to]> mapper)
  | _ => mapper
  end.

Definition stringMapper (mapstr : string) : gmap string string :=
  let mapper := ∅ in
  let toks := strings.SplitByte mapstr ","%char in
  mapPairs toks mapper.

(** ** The window: [UI.Validate] *)

(** What the [Notifier] of the window shows: its text, and
    [NotifyIsError]. *)
Record Notice := mkNotice { Text : string; IsError : bool }.

(** [os.ExpandEnv(s)]: [os.Expand] with [os.Getenv], the variables of the
    process. *)
Definition ExpandEnv (getenv : string → string) (s : string) : string :=
  (os.Expand (λ name (_ : unit), (getenv name, tt)) s tt).1.

(** The loop that looks for the sample: the first line that begins with a
    slash, after an optional ["file://"]; [""] if there is none. *)
Fixpoint samplePath (lines : list string) : string :=
  match lines with
  | [] => ""
  | l :: lines' =>
    let l := strings.TrimPrefix l "file://" in
    if strings.HasPrefix l "/" then l else samplePath lines'
  end.

(** [ui.Validate()]: [destText] and [inputText] are the texts of the
    destination and input editors, [p] is [ui.Program], [now] is
    [time.Now().Format("060102")], and [n] is the notice before the call;
    the result is the notice after it. *)
Definition Validate (getenv : string → string) (now : string) (p : Program)
    (destText inputText : string) (n : Notice) : res Notice :=
  let dest := strings.TrimSpace destText in
  if decide (dest = "") then Ok (mkNotice "please set destination" true)
  else
    let dest := ExpandEnv getenv dest in
    if negb (strings.HasPrefix dest "/") then
      Ok (mkNotice "destination path cannot be relative" true)
    else if decide (strings.TrimSpace inputText = "") then
      Ok (mkNotice "paste filepaths to take in." false)
    else
      let lines := strings.SplitByte inputText "010"%char in
      let sampleSrc := samplePath lines in
      if decide (sampleSrc = "") then Ok (mkNotice "filepath not found" false)
      else
        match ParseEnvsFromSrc p sampleSrc with
        | Err err => Ok (mkNotice ("dest sample: " +:+ Error err) (IsError n))
        | Panic => Panic
        | Ok env =>
          let env := <["DATE" := now]> env in
          match destDirectory sampleSrc destText env with
          | Err err => Ok (mkNotice ("dest sample: " +:+ Error err) (IsError n))
          | Panic => Panic
          | Ok sampleDest =>
            Ok (mkNotice ("dest sample: " +:+ sampleDest) (IsError n))
          end
        end.

(** ** The reports: [analyzeInput] and [analyzeCopy] *)

(** [color.NRGBA]; a field that a literal leaves out is [0]. *)
Module color.
Record NRGBA := mkNRGBA { R : nat; G : nat; B : nat; A : nat }.
End color.

(** The font of every span, [gofont.Collection()[0].Font]. *)
Inductive Font := GoRegular.

(** [richtext.SpanStyle], with the fields that the program sets; [Size] is
    in scaled points. *)
Module richtext.
Record SpanStyle := mkSpanStyle {
  Content : string;
  Color : color.NRGBA;
  Size : nat;
  SpanFont : Font;
  Interactive : bool;
}.
End richtext.

Definition richTitle (text : string) : richtext.SpanStyle :=
  richtext.mkSpanStyle text (color.mkNRGBA 0 0 0 255) 20 GoRegular false.

Definition richTitlePath (text : string) : richtext.SpanStyle :=
  richtext.mkSpanStyle text (color.mkNRGBA 0 0 0 255) 20 GoRegular true.

Definition richPath (text : string) : richtext.SpanStyle :=
  richtext.mkSpanStyle text (color.mkNRGBA 0 0 170 255) 15 GoRegular true.

Definition richText (text : string) : richtext.SpanStyle :=
  richtext.mkSpanStyle text (color.mkNRGBA 0 0 0 255) 15 GoRegular false.

(** The line feed, ["\n"]. *)
Definition newline : string := String "010"%char "".

(** [strconv.Itoa], for a number that is not negative. *)
Definition Itoa (n : nat) : string := NilEmpty.string_of_uint (Nat.to_uint n).

(** A section of [analyzeInput]: a title, and the paths of a list that is
    not empty, one on a line. *)
Definition listedPaths (title : string) (paths : list string)
  : list richtext.SpanStyle :=
  if decide (length paths ≠ 0) then
    [richTitle title; richText newline]
    ++ flat_map (λ path, [richPath path; richText newline]) paths
    ++ [richText newline]
  else [].

(** The spans of one source of a group: its path, and the number of files
    of a directory, in parentheses. *)
Definition srcSpans (p : Program) (src : string) : list richtext.SpanStyle :=
  let line := "" in
  let srcName := filepath.Base src in
  let destName := srcName in
  let comment := "" in
  let comment :=
    if flag (SrcIsDir p) src then
      let count := count (SrcDirFileCount p) src in
      let counts := Itoa count in
      let counts := if decide (1000 < count) then "1000+" else counts in
      let plural := "" in
      let plural := if decide (1 < count) then "s" else plural in
      comment +:+ "directory, containing " +:+ counts +:+ " file" +:+ plural
    else comment in
  let comment :=
    if decide (srcName ≠ destName) then
      let comment := if decide (comment ≠ "") then comment +:+ " " else comment in
      comment +:+ destName
    else comment in
  let line :=
    if decide (comment ≠ "") then line +:+ " (" +:+ comment +:+ ")" else line in
  [richPath src; richText line; richText newline].

(** The spans of one group: its destination, whether it has to be made, and
    its sources. *)
Definition groupSpans (p : Program) (dd : string) : list richtext.SpanStyle :=
  let exist := flag (DestDirExists p) dd in
  [richTitle "To: "; richTitlePath dd]
  ++ (if negb exist then [richTitle (" " +:+ "(to be created)")] else [])
  ++ [richText newline]
  ++ flat_map (srcSpans p) (default [] (DestDirSrcs p !! dd))
  ++ [richText newline].

Section Reports.
  (** The order in which [range] visits [DestDirSrcs]. *)
  Context (range : ∀ V : Type, gmap string V → list (string * V)).

  (** [analyzeInput(p)]: what the window shows after an analysis. *)
Definition analyzeInput (p : Program) : list richtext.SpanStyle :=
    let destDirs := (range _ (DestDirSrcs p)).*1 in
    listedPaths "Not Exists" (NotExists p)
    ++ listedPaths "Invalids" (Invalids p)
    ++ flat_map (groupSpans p) destDirs.

  (** [analyzeCopy(p)]: what the window shows after a copy. *)
Definition analyzeCopy (p : Program) : list richtext.SpanStyle :=
    [richTitle "Copy completed"; richText (newline +:+ newline)]
    ++ flat_map
         (λ '(destDir, srcs),
            [richTitle "Copied: "; richTitlePath destDir; richText newline]
            ++ flat_map
                 (λ src, [richPath (destDir +:+ filepath.Base src); richText newline])
                 srcs)
         (range _ (DestDirSrcs p)).

End Reports.

(** * Path names: facts about splitting, cleaning and joining *)

Module paths.

(** ** Reversal *)

Lemma rev_onto_app (s acc : string) : Str.rev_onto s acc = Str.rev s +:+ acc.
Proof.
  unfold Str.rev. revert acc; induction s as [|c s IH]; intros acc; simpl; [done|].
  rewrite (IH (String c acc)), (IH (String c "")).
  by rewrite Str.app_assoc.
Qed.

Lemma rev_cons (c : ascii) (s : string) :
  Str.rev (String c s) = Str.rev s +:+ String c "".
Proof. unfold Str.rev at 1. simpl. apply rev_onto_app. Qed.

Lemma rev_app (a b : string) : Str.rev (a +:+ b) = Str.rev b +:+ Str.rev a.
Proof.
  induction a as [|c a IH].
  - by rewrite Str.app_nil_l, Str.app_nil_r.
  - by rewrite Str.app_cons, !rev_cons, IH, Str.app_assoc.
Qed.

Lemma rev_involutive (s : string) : Str.rev (Str.rev s) = s.
Proof.
  induction s as [|c s IH]; [done|].
  by rewrite rev_cons, rev_app, IH.
Qed.

(** ** Slashes and names *)

Fixpoint hasSlash (s : string) : bool :=
  match s with
  | "" => false
  | String c r => bool_decide (c = "/"%char) || hasSlash r
  end.

(** The name of a directory entry: not empty, not ["."] or [".."], and
    without a slash. *)
Definition isName (e : string) : Prop :=
  e ≠ "" ∧ e ≠ "." ∧ e ≠ ".." ∧ hasSlash e = false.

#[global] Instance isName_dec e : Decision (isName e).
Proof. unfold isName. apply _. Defined.

Lemma hasSlash_app (a b : string) : hasSlash (a +:+ b) = hasSlash a || hasSlash b.
Proof.
  induction a as [|c a IH]; [done|].
  rewrite Str.app_cons. simpl. by rewrite IH, orb_assoc.
Qed.

Lemma hasSlash_rev (s : string) : hasSlash (Str.rev s) = hasSlash s.
Proof.
  induction s as [|c s IH]; [done|].
  rewrite rev_cons, hasSlash_app, IH. simpl.
  by rewrite orb_false_r, orb_comm.
Qed.

(** ** Splitting at slashes *)

Lemma SplitByte_nonempty (s : string) (sep : ascii) : strings.SplitByte s sep ≠ [].
Proof.
  induction s as [|c s IH]; simpl; [done|].
  case_bool_decide; [done|]. by destruct (strings.SplitByte s sep).
Qed.

Lemma SplitByte_app (a b : string) (sep : ascii) :
  strings.SplitByte (a +:+ String sep b) sep
  = strings.SplitByte a sep ++ strings.SplitByte b sep.
Proof.
  induction a as [|c a IH].
  - rewrite Str.app_nil_l. simpl. by rewrite bool_decide_true.
  - rewrite Str.app_cons. simpl. case_bool_decide; [by rewrite IH|].
    rewrite IH. pose proof (SplitByte_nonempty a sep).
    by destruct (strings.SplitByte a sep).
Qed.

Lemma SplitByte_slashFree (e : string) :
  hasSlash e = false → strings.SplitByte e "/" = [e].
Proof.
  induction e as [|c e IH]; simpl; [done|].
  intros [Hc He]%orb_false_elim. rewrite Hc, IH by done. done.
Qed.

Lemma SplitByte_fields (s : string) :
  Forall (λ e, hasSlash e = false) (strings.SplitByte s "/").
Proof.
  induction s as [|c s IH]; simpl; [by constructor|].
  case_bool_decide as Hc; [by constructor|].
  destruct (strings.SplitByte s "/") as [|f fs].
  - constructor; [|done]. simpl. by rewrite bool_decide_false.
  - inv IH. constructor; [|done]. simpl. by rewrite bool_decide_false.
Qed.

Lemma joinSlash_cons (e : string) (es : list string) :
  es ≠ [] → filepath.joinSlash (e :: es) = e +:+ "/" +:+ filepath.joinSlash es.
Proof. by destruct es. Qed.

Lemma joinSlash_snoc (es : list string) (e : string) :
  es ≠ [] → filepath.joinSlash (es ++ [e]) = filepath.joinSlash es +:+ "/" +:+ e.
Proof.
  induction es as [|e' es IH]; [done|]. intros _.
  destruct es as [|e'' es]; [done|].
  change ((e' :: e'' :: es) ++ [e]) with (e' :: ((e'' :: es) ++ [e])).
  rewrite (joinSlash_cons e' ((e'' :: es) ++ [e])) by done.
  rewrite IH, (joinSlash_cons e' (e'' :: es)) by done.
  by rewrite !Str.app_assoc.
Qed.

Lemma SplitByte_joinSlash (es : list string) :
  Forall (λ e, hasSlash e = false) es → es ≠ [] →
  strings.SplitByte (filepath.joinSlash es) "/" = es.
Proof.
  induction es as [|e es IH]; [done|]. intros Hall _. inv Hall.
  destruct es as [|e' es]; [by apply SplitByte_slashFree|].
  rewrite joinSlash_cons by done.
  change ("/" +:+ filepath.joinSlash (e' :: es))
    with (String "/" (filepath.joinSlash (e' :: es))).
  rewrite SplitByte_app, SplitByte_slashFree, IH by done. done.
Qed.

(** ** Cleaning *)

Lemma cleanElems_app (rooted : bool) (l1 l2 stack : list string) :
  cleanElems rooted (l1 ++ l2) stack
  = cleanElems rooted l2 (reverse (cleanElems rooted l1 stack)).
Proof.
  revert stack; induction l1 as [|e l1 IH]; intros stack; simpl.
  - by rewrite reverse_involutive.
  - repeat case_match; apply IH.
Qed.

Lemma cleanElems_names (rooted : bool) (l stack : list string) :
  Forall isName l → cleanElems rooted l stack = reverse stack ++ l.
Proof.
  revert stack; induction l as [|e l IH]; intros stack Hall; simpl.
  - by rewrite app_nil_r.
  - inv Hall. destruct H1 as (? & ? & ? & ?).
    rewrite decide_False by naive_solver. rewrite decide_False by done.
    rewrite IH by done. by rewrite reverse_cons, <- app_assoc.
Qed.

Lemma cleanElems_rooted_names (l stack : list string) :
  Forall (λ e, hasSlash e = false) l → Forall isName stack →
  Forall isName (cleanElems true l stack).
Proof.
  revert stack; induction l as [|e l IH]; intros stack Hl Hs; simpl.
  - by apply Forall_reverse.
  - inv Hl. destruct (decide (e = "" ∨ e = ".")); [by apply IH|].
    destruct (decide (e = "..")).
    + destruct stack as [|top stack]; [by apply IH|]. inv Hs.
      destruct (decide (top = "..")); apply IH; auto.
      unfold isName in *. naive_solver.
    + apply IH; [done|]. constructor; [|done].
      unfold isName. naive_solver.
Qed.

(** The absolute path with the elements [es]. *)
Definition abs (es : list string) : string := "/" +:+ filepath.joinSlash es.

Lemma isName_slashFree (es : list string) :
  Forall isName es → Forall (λ e, hasSlash e = false) es.
Proof. intros Hall. eapply Forall_impl; [done|]. by intros e (_ & _ & _ & ?). Qed.

Lemma SplitByte_abs (es : list string) :
  Forall isName es →
  strings.SplitByte (abs es) "/" = "" :: (if decide (es = []) then [""] else es).
Proof.
  intros Hall. unfold abs.
  change ("/" +:+ filepath.joinSlash es) with ("" +:+ String "/" (filepath.joinSlash es)).
  rewrite SplitByte_app. simpl. f_equal.
  destruct (decide (es = [])) as [->|Hne]; [done|].
  by apply SplitByte_joinSlash; [apply isName_slashFree|].
Qed.

Lemma cleanElems_abs (es : list string) :
  Forall isName es →
  cleanElems true (strings.SplitByte (abs es) "/") [] = es.
Proof.
  intros Hall. rewrite SplitByte_abs by done.
  destruct (decide (es = [])) as [->|Hne]; [done|].
  change (cleanElems true ("" :: es) []) with (cleanElems true es []).
  by rewrite cleanElems_names.
Qed.

Lemma pathElems_abs (es : list string) : Forall isName es → pathElems (abs es) = es.
Proof. apply cleanElems_abs. Qed.

Lemma IsAbs_abs (es : list string) : filepath.IsAbs (abs es) = true.
Proof. done. Qed.

Lemma Clean_abs (es : list string) : Forall isName es → filepath.Clean (abs es) = abs es.
Proof. intros Hall. unfold filepath.Clean. by rewrite IsAbs_abs, cleanElems_abs. Qed.

(** A rooted path cleans to the absolute path of its elements. *)
Lemma Clean_rooted (path : string) :
  filepath.IsAbs path = true →
  filepath.Clean path = abs (pathElems path) ∧ Forall isName (pathElems path).
Proof.
  intros Habs. unfold filepath.Clean. rewrite Habs. split; [done|].
  apply cleanElems_rooted_names; [apply SplitByte_fields | constructor].
Qed.

(** ** Relative paths *)

(** The clean relative path that goes up [k] directories and then down the
    names [ns]. *)
Definition rel (k : nat) (ns : list string) : string :=
  if decide (replicate k ".." ++ ns = []) then "."
  else filepath.joinSlash (replicate k ".." ++ ns).

(** Cleaning the same elements with and without a root: the stacks differ
    by the [".."] kept at the bottom. *)
Lemma cleanElems_shape (l st : list string) (k : nat) :
  Forall (λ e, hasSlash e = false) l → Forall isName st →
  ∃ k' ns, Forall isName ns ∧
    cleanElems false l (st ++ replicate k "..") = replicate k' ".." ++ ns ∧
    cleanElems true l st = ns.
Proof.
  revert st k; induction l as [|e l IH]; intros st k Hl Hst; simpl.
  - exists k, (reverse st). split; [by apply Forall_reverse|].
    by rewrite reverse_app, reverse_replicate.
  - inv Hl. destruct (decide (e = "" ∨ e = ".")); [by apply IH|].
    destruct (decide (e = "..")) as [->|].
    + destruct st as [|top st]; simpl.
      * destruct k as [|k]; simpl.
        -- apply (IH [] 1); auto.
        -- apply (IH [] (S (S k))); auto.
      * inv Hst. rewrite !decide_False by (unfold isName in *; naive_solver).
        by apply IH.
    + apply (IH (e :: st) k); [done|]. constructor; [|done].
      unfold isName. naive_solver.
Qed.

Lemma cleanElems_dots (k : nat) (l : list string) :
  cleanElems true (replicate k ".." ++ l) [] = cleanElems true l [].
Proof. induction k as [|k IH]; simpl; [done | apply IH]. Qed.

Lemma dots_slashFree (k : nat) (ns : list string) :
  Forall isName ns → Forall (λ e, hasSlash e = false) (replicate k ".." ++ ns).
Proof.
  intros Hns. apply Forall_app. split; [|by apply isName_slashFree].
  apply Forall_replicate. done.
Qed.

Lemma pathElems_rel (k : nat) (ns : list string) :
  Forall isName ns → pathElems (rel k ns) = ns.
Proof.
  intros Hns. unfold rel, pathElems.
  destruct (decide (replicate k ".." ++ ns = [])) as [Hnil|Hne].
  - apply app_eq_nil in Hnil as [_ ->]. done.
  - rewrite SplitByte_joinSlash by (by try apply dots_slashFree).
    rewrite cleanElems_dots. by rewrite cleanElems_names.
Qed.

(** The two shapes of a clean path. *)
Lemma Clean_shape (path : string) :
  ∃ k, Forall isName (pathElems path) ∧
       (filepath.Clean path = abs (pathElems path) ∨
        filepath.Clean path = rel k (pathElems path)).
Proof.
  destruct (filepath.IsAbs path) eqn:Habs.
  - exists 0. destruct (Clean_rooted path Habs) as [? ?]. auto.
  - destruct (cleanElems_shape (strings.SplitByte path "/") [] 0)
      as (k & ns & Hns & Hf & Ht); [apply SplitByte_fields | done |].
    exists k. unfold pathElems. rewrite Ht. split; [done|]. right.
    unfold filepath.Clean, rel. rewrite Habs. simpl in Hf. rewrite Hf.
    done.
Qed.

Lemma pathElems_Clean (path : string) :
  pathElems (filepath.Clean path) = pathElems path.
Proof.
  destruct (Clean_shape path) as (k & Hns & [-> | ->]).
  - by apply pathElems_abs.
  - by apply pathElems_rel.
Qed.

Lemma joinSlash_nonempty (es : list string) :
  es ≠ [] → Forall (λ e, e ≠ "") es → filepath.joinSlash es ≠ "".
Proof.
  destruct es as [|e es]; [done|]. intros _ Hall. inv Hall.
  destruct es; simpl; [done|]. by destruct e.
Qed.

Lemma Clean_nonempty (path : string) : filepath.Clean path ≠ "".
Proof.
  destruct (Clean_shape path) as (k & Hns & [-> | ->]); [done|].
  unfold rel. destruct (decide _); [done|].
  apply joinSlash_nonempty; [done|]. apply Forall_app. split.
  - by apply Forall_replicate.
  - eapply Forall_impl; [done|]. by intros e (? & _).
Qed.

(** ** [filepath.Dir] and [filepath.Base] *)

(** [path[:i+1]], where [i] is the index of the last slash. *)
Definition dirPart (path : string) : string :=
  Str.rev (filepath.fromSlash (Str.rev path)).

Lemma fromSlash_slashFree (e r : string) :
  hasSlash e = false → filepath.fromSlash (e +:+ r) = filepath.fromSlash r.
Proof.
  induction e as [|c e IH]; [done|]. rewrite Str.app_cons. simpl.
  intros [Hc He]%orb_false_elim. rewrite Hc. by apply IH.
Qed.

Lemma dirPart_snoc (a e : string) :
  hasSlash e = false → dirPart (a +:+ "/" +:+ e) = a +:+ "/".
Proof.
  intros He. unfold dirPart.
  rewrite !rev_app, Str.app_assoc.
  rewrite fromSlash_slashFree by (by rewrite hasSlash_rev).
  change (Str.rev "/") with "/".
  change ("/" +:+ Str.rev a) with (String "/" (Str.rev a)). simpl.
  rewrite rev_cons. by rewrite rev_involutive.
Qed.

Lemma dirPart_slashFree (e : string) : hasSlash e = false → dirPart e = "".
Proof.
  intros He. unfold dirPart.
  rewrite <- (Str.app_nil_r (Str.rev e)).
  by rewrite fromSlash_slashFree by (by rewrite hasSlash_rev).
Qed.

Lemma Dir_abs_snoc (es : list string) (e : string) :
  Forall isName es → isName e → filepath.Dir (abs (es ++ [e])) = abs es.
Proof.
  intros Hes He. unfold filepath.Dir. fold (dirPart (abs (es ++ [e]))).
  assert (hasSlash e = false) as Hs by (by destruct He as (_&_&_&?)).
  destruct (decide (es = [])) as [->|Hne].
  - change (abs ([] ++ [e])) with ("" +:+ "/" +:+ e).
    by rewrite dirPart_snoc.
  - unfold abs. rewrite joinSlash_snoc by done.
    rewrite <- Str.app_assoc, dirPart_snoc by done.
    fold (abs es).
    unfold filepath.Clean.
    assert (filepath.IsAbs (abs es +:+ "/") = true) as -> by done.
    change (abs es +:+ "/") with (abs es +:+ String "/" "").
    rewrite SplitByte_app, cleanElems_app, cleanElems_abs by done.
    simpl. by rewrite reverse_involutive.
Qed.

Lemma untilSlash_slashFree (e r : string) :
  hasSlash e = false →
  filepath.untilSlash (e +:+ String "/" r) = e.
Proof.
  induction e as [|c e IH]; [done|]. rewrite Str.app_cons. simpl.
  intros [Hc He]%orb_false_elim. rewrite Hc. by rewrite IH.
Qed.

Lemma Base_abs_snoc (es : list string) (e : string) :
  isName e → filepath.Base (abs (es ++ [e])) = e.
Proof.
  intros (Hne & _ & _ & Hs).
  assert (∃ a, abs (es ++ [e]) = a +:+ "/" +:+ e) as [a Ha].
  { destruct (decide (es = [])) as [->|Hes]; [by exists ""|].
    exists (abs es). unfold abs. rewrite joinSlash_snoc by done.
    by rewrite Str.app_assoc. }
  unfold filepath.Base. rewrite decide_False by done.
  rewrite Ha, !rev_app, Str.app_assoc.
  change (Str.rev "/" +:+ Str.rev a) with (String "/" (Str.rev a)).
  assert (filepath.dropSlashes (Str.rev e +:+ String "/" (Str.rev a))
          = Str.rev e +:+ String "/" (Str.rev a)) as ->.
  { destruct (Str.rev e) as [|c r] eqn:Hr.
    - apply (f_equal Str.rev) in Hr. by rewrite rev_involutive in Hr.
    - pose proof (hasSlash_rev e) as Hrs. rewrite Hr, Hs in Hrs.
      simpl in Hrs. apply orb_false_elim in Hrs as [Hc _].
      rewrite Str.app_cons. simpl. by rewrite Hc. }
  rewrite untilSlash_slashFree by (by rewrite hasSlash_rev).
  rewrite rev_involutive. by rewrite decide_False.
Qed.

Lemma joinSlash_app (es rest : list string) :
  es ≠ [] → rest ≠ [] →
  filepath.joinSlash (es ++ rest)
  = filepath.joinSlash es +:+ "/" +:+ filepath.joinSlash rest.
Proof.
  intros Hes Hrest. induction es as [|e es IH]; [done|].
  destruct (decide (es = [])) as [->|Hne].
  - simpl. by destruct rest.
  - change ((e :: es) ++ rest) with (e :: (es ++ rest)).
    rewrite (joinSlash_cons e (es ++ rest)) by (by destruct es).
    rewrite (joinSlash_cons e es), IH by done. by rewrite !Str.app_assoc.
Qed.

(** [abs (es ++ rest)] after the bytes of [abs es]. *)
Definition below (es rest : list string) : string :=
  if decide (es = []) then filepath.joinSlash rest else abs rest.

Lemma abs_app (es rest : list string) :
  rest ≠ [] → abs (es ++ rest) = abs es +:+ below es rest.
Proof.
  intros Hrest. unfold below, abs.
  destruct (decide (es = [])) as [->|Hes]; [done|].
  rewrite joinSlash_app by done. by rewrite !Str.app_assoc.
Qed.

Lemma drop_abs_app (es rest : list string) :
  rest ≠ [] →
  Str.drop (String.length (abs es)) (abs (es ++ rest)) = below es rest.
Proof. intros Hrest. by rewrite abs_app, Str.drop_app_length. Qed.

Lemma length_abs_app (es rest : list string) :
  String.length (abs es) ≤ String.length (abs (es ++ rest)).
Proof.
  destruct (decide (rest = [])) as [->|Hrest]; [by rewrite app_nil_r|].
  rewrite abs_app, Str.length_app by done. lia.
Qed.

(** ** [filepath.Join] *)

Lemma Join_abs_name (es : list string) (e : string) :
  Forall isName es → isName e → filepath.Join (abs es) e = abs (es ++ [e]).
Proof.
  intros Hes He. unfold filepath.Join. rewrite decide_True by done.
  unfold filepath.Clean.
  assert (filepath.IsAbs (abs es +:+ "/" +:+ e) = true) as -> by done.
  change (abs es +:+ "/" +:+ e) with (abs es +:+ String "/" e).
  rewrite SplitByte_app, cleanElems_app, cleanElems_abs by done.
  rewrite SplitByte_slashFree by (by destruct He as (_&_&_&?)).
  rewrite cleanElems_names by (by constructor).
  by rewrite reverse_involutive.
Qed.

Lemma pathElems_Join (a b : string) :
  pathElems (filepath.Join a b)
  = cleanElems true (strings.SplitByte b "/") (reverse (pathElems a)).
Proof.
  unfold filepath.Join. destruct (decide (a ≠ "")) as [Ha|Ha].
  - rewrite pathElems_Clean. unfold pathElems.
    change (a +:+ "/" +:+ b) with (a +:+ String "/" b).
    by rewrite SplitByte_app, cleanElems_app.
  - apply dec_stable in Ha as ->.
    destruct (decide (b ≠ "")) as [Hb|Hb]; [by rewrite pathElems_Clean|].
    by apply dec_stable in Hb as ->.
Qed.

(** A file joined below a directory lands below the elements of that
    directory. *)
Lemma pathElems_Join_below (destDir : string) (es rest : list string) :
  Forall isName rest → rest ≠ [] →
  pathElems (filepath.Join destDir (below es rest)) = pathElems destDir ++ rest.
Proof.
  intros Hall Hrest. rewrite pathElems_Join. unfold below.
  destruct (decide (es = [])).
  - rewrite SplitByte_joinSlash by (by try apply isName_slashFree).
    rewrite cleanElems_names by done. by rewrite reverse_involutive.
  - rewrite SplitByte_abs, decide_False by done.
    change (cleanElems true ("" :: rest) ?st) with (cleanElems true rest st).
    rewrite cleanElems_names by done. by rewrite reverse_involutive.
Qed.

(** The directory of a clean path is above it. *)
Lemma pathElems_Dir_Clean (path : string) :
  pathElems (filepath.Dir (filepath.Clean path))
    `prefix_of` pathElems (filepath.Clean path).
Proof.
  rewrite (pathElems_Clean path).
  destruct (Clean_shape path) as (k & Hns & [-> | ->]).
  - destruct (pathElems path) as [|e es _] using rev_ind.
    + by exists [].
    + apply Forall_app in Hns as [Hes He]. inv He.
      rewrite Dir_abs_snoc, pathElems_abs by done. by exists [e].
  - unfold filepath.Dir. rewrite pathElems_Clean. fold (dirPart (rel k (pathElems path))).
    unfold rel. destruct (decide _) as [Hnil|Hne]; [by exists (pathElems path)|].
    pose proof (dots_slashFree k _ Hns) as Hsf.
    destruct (pathElems path) as [|e ns _] using rev_ind.
    + rewrite app_nil_r in *. destruct k as [|k]; [done|].
      rewrite replicate_S_end in *.
      destruct (decide (replicate k ".." = [])) as [->|Hk].
      * by exists [].
      * rewrite joinSlash_snoc, dirPart_snoc by done.
        unfold pathElems.
        change (filepath.joinSlash (replicate k "..") +:+ "/")
          with (filepath.joinSlash (replicate k "..") +:+ String "/" "").
        apply Forall_app in Hsf as [Hsf _].
        rewrite SplitByte_app, SplitByte_joinSlash by done.
        rewrite <- (app_nil_r (replicate k "..")) at 1.
        rewrite <- app_assoc, cleanElems_dots. by exists [].
    + rewrite app_assoc in *. apply Forall_app in Hns as [Hns He]. inv He.
      apply Forall_app in Hsf as [Hsf Hse]. inv Hse.
      destruct (decide (replicate k ".." ++ ns = [])) as [->|Hk].
      * simpl. rewrite dirPart_slashFree by done. by exists (ns ++ [e]).
      * rewrite joinSlash_snoc, dirPart_snoc by done.
        unfold pathElems.
        change (filepath.joinSlash (replicate k ".." ++ ns) +:+ "/")
          with (filepath.joinSlash (replicate k ".." ++ ns) +:+ String "/" "").
        rewrite SplitByte_app, SplitByte_joinSlash by done.
        rewrite <- app_assoc, cleanElems_dots, cleanElems_app.
        rewrite (cleanElems_names true ns) by done. simpl.
        rewrite !reverse_involutive. by exists [e].
Qed.

End paths.

(** * The file system: what the operations of [Copy] keep *)

Module fsfacts.

Lemma entry_setEntry_eq (name : string) (x : Node) (entries : list (string * Node)) :
  entry name (setEntry name x entries) = Some x.
Proof.
  induction entries as [|[n y] entries IH]; simpl.
  - by rewrite decide_True.
  - destruct (decide (n = name)); simpl; [by rewrite decide_True|].
    destruct (String.ltb name n); simpl.
    + by rewrite decide_True.
    + by rewrite decide_False.
Qed.

Lemma entry_setEntry_ne (name name' : string) (x : Node)
    (entries : list (string * Node)) :
  name' ≠ name → entry name' (setEntry name x entries) = entry name' entries.
Proof.
  intros Hne. induction entries as [|[n y] entries IH]; simpl.
  - by rewrite decide_False.
  - destruct (decide (n = name)) as [->|Hn]; simpl.
    + by rewrite !decide_False.
    + destruct (String.ltb name n); simpl.
      * by rewrite (decide_False (P := name = name')).
      * by rewrite IH.
Qed.

Lemma lookupNode_app (l1 l2 : list string) (n : Node) :
  lookupNode (l1 ++ l2) n = (n' ← lookupNode l1 n; lookupNode l2 n').
Proof.
  revert n; induction l1 as [|e l1 IH]; intros n; simpl; [done|].
  destruct n as [c|r entries]; [done|].
  destruct (entry e entries); [apply IH | done].
Qed.

Lemma lookupNode_prefix (l1 l2 : list string) (n x : Node) :
  lookupNode l2 n = Ok x → l1 `prefix_of` l2 → ∃ y, lookupNode l1 n = Ok y.
Proof.
  intros Hl [k ->]. rewrite lookupNode_app in Hl.
  destruct (lookupNode l1 n) as [y| |]; [eauto | done..].
Qed.

(** The operations on the tree fail with an error number; they do not
    panic. *)
Lemma lookupNode_no_panic (l : list string) (n : Node) : lookupNode l n ≠ Panic.
Proof.
  revert n; induction l as [|e l IH]; intros n; simpl; [done|].
  destruct n as [c|r entries]; [done|]. destruct (entry e entries); [apply IH | done].
Qed.

Lemma mkdirAllNode_no_panic (l : list string) (n : Node) : mkdirAllNode l n ≠ Panic.
Proof.
  revert n; induction l as [|e l IH]; intros [c|r entries]; simpl; try done.
  destruct (entry e entries) as [child|]; [|done].
  specialize (IH child). by destruct (mkdirAllNode l child).
Qed.

Lemma putNode_no_panic (new : option Node → result Errno Node)
    (l : list string) (n : Node) :
  (∀ found, new found ≠ Panic) → putNode new l n ≠ Panic.
Proof.
  intros Hnew. revert n; induction l as [|e l IH]; intros n; simpl; [done|].
  destruct n as [c|r entries]; [done|]. destruct l as [|e' l].
  - specialize (Hnew (entry e entries)). by destruct (new (entry e entries)).
  - destruct (entry e entries) as [child|]; [|done].
    specialize (IH child). by destruct (putNode new (e' :: l) child).
Qed.

Lemma node_no_panic (fs : Node) (path : string) : os.node fs path ≠ Panic.
Proof.
  unfold os.node. destruct (decide (path = "")); [done|].
  apply lookupNode_no_panic.
Qed.

(** Every file of [n] is a file of [n'], with the same content. *)
Definition keeps (n n' : Node) : Prop :=
  ∀ elems content,
    lookupNode elems n = Ok (File content) →
    lookupNode elems n' = Ok (File content).

Lemma keeps_refl n : keeps n n.
Proof. by intros ? ?. Qed.

Lemma keeps_trans n1 n2 n3 : keeps n1 n2 → keeps n2 n3 → keeps n1 n3.
Proof. intros H1 H2 ? ? ?. by apply H2, H1. Qed.

Lemma mkdirAllNode_keeps (l : list string) (n n' : Node) :
  mkdirAllNode l n = Ok n' → keeps n n'.
Proof.
  revert n n'; induction l as [|e l IH]; intros [c|r entries] n'; simpl;
    try done.
  - intros [= <-]. apply keeps_refl.
  - destruct (entry e entries) as [child|] eqn:He.
    + destruct (mkdirAllNode l child) as [child'| |] eqn:Hc; [|done..].
      simpl. intros [= <-] [|e0 rest] content; [done|]. simpl.
      destruct (decide (e0 = e)) as [->|Hne].
      * rewrite He, entry_setEntry_eq. by apply IH.
      * by rewrite entry_setEntry_ne.
    + intros [= <-] [|e0 rest] content; [done|]. simpl.
      destruct (decide (e0 = e)) as [->|Hne]; [by rewrite He|].
      by rewrite entry_setEntry_ne.
Qed.

(** [putNode] calls [new] with what it finds at [l], and puts the result
    there. *)
Lemma putNode_found (new : option Node → result Errno Node)
    (l : list string) (n n' : Node) :
  putNode new l n = Ok n' →
  ∃ x, new (match lookupNode l n with
            | Ok y => Some y
            | _ => None
            end) = Ok x ∧
       lookupNode l n' = Ok x.
Proof.
  revert n n'; induction l as [|e l IH]; intros n n'; simpl.
  - intros Hn. by exists n'.
  - destruct n as [c|r entries]; [done|].
    destruct l as [|e' l].
    + destruct (new (entry e entries)) as [x| |] eqn:Hx; [|done..].
      simpl. intros [= <-]. exists x. simpl.
      rewrite entry_setEntry_eq. split; [|done].
      by destruct (entry e entries).
    + destruct (entry e entries) as [child|] eqn:He; [|done].
      destruct (putNode new (e' :: l) child) as [child'| |] eqn:Hc; [|done..].
      simpl. intros [= <-]. rewrite entry_setEntry_eq.
      by apply IH.
Qed.

(** [putNode] at a place that holds no directory keeps the files at other
    places. *)
Lemma putNode_other (new : option Node → result Errno Node)
    (l : list string) (n n' : Node) :
  putNode new l n = Ok n' →
  (∀ r entries, lookupNode l n ≠ Ok (Dir r entries)) →
  ∀ elems content, elems ≠ l →
    lookupNode elems n = Ok (File content) →
    lookupNode elems n' = Ok (File content).
Proof.
  revert n n'; induction l as [|e l IH]; intros n n'.
  - intros _ Hnd [|e0 rest] content Hne; [done|]. simpl.
    destruct n as [c|r entries]; [done|]. by destruct (Hnd r entries).
  - simpl. destruct n as [c|r entries]; [done|].
    destruct l as [|e' l].
    + destruct (new (entry e entries)) as [x| |]; [|done..].
      simpl. intros [= <-] Hnd [|e0 rest] content Hne; [done|]. simpl.
      destruct (decide (e0 = e)) as [->|Hne0]; [|by rewrite entry_setEntry_ne].
      destruct (entry e entries) as [child|]; [|done].
      destruct rest as [|e1 rest]; [done|]. simpl.
      destruct child as [c|r' entries']; [done|]. by destruct (Hnd r' entries').
    + destruct (entry e entries) as [child|] eqn:He; [|done].
      destruct (putNode new (e' :: l) child) as [child'| |] eqn:Hc; [|done..].
      simpl. intros [= <-] Hnd [|e0 rest] content Hne; [done|]. simpl.
      destruct (decide (e0 = e)) as [->|Hne0]; [|by rewrite entry_setEntry_ne].
      rewrite He, entry_setEntry_eq.
      apply (IH child child' Hc); [done | congruence].
Qed.

(** In terms of paths. *)
Definition keepsFiles (fs fs' : Node) : Prop :=
  ∀ path content,
    os.node fs path = Ok (File content) → os.node fs' path = Ok (File content).

Lemma keeps_keepsFiles fs fs' : keeps fs fs' → keepsFiles fs fs'.
Proof.
  intros Hk path content. unfold os.node.
  destruct (decide (path = "")); [done | apply Hk].
Qed.

Lemma MkdirAll_keeps (fs fs' : Node) (path : string) (err : option error) :
  os.MkdirAll fs path = (fs', err) → keeps fs fs'.
Proof.
  unfold os.MkdirAll. destruct (decide (path = "")).
  { intros [= <- <-]. apply keeps_refl. }
  destruct (mkdirAllNode _ fs) as [fs1| |] eqn:Hm; intros [= <- <-];
    [by eapply mkdirAllNode_keeps | apply keeps_refl..].
Qed.

Lemma Link_keeps (fs fs' : Node) (old new : string) (err : option error) :
  os.Link fs old new = (fs', err) → keeps fs fs'.
Proof.
  unfold os.Link.
  destruct (os.node fs old) as [[content|r entries]| |];
    try (intros [= <- <-]; apply keeps_refl).
  destruct (decide (new = "")); [intros [= <- <-]; apply keeps_refl|].
  destruct (putNode _ _ fs) as [fs1| |] eqn:Hput;
    intros [= <- <-]; try apply keeps_refl.
  pose proof (putNode_found _ _ _ _ Hput) as (x & Hnew & _).
  destruct (lookupNode (pathElems new) fs) as [y| |] eqn:Hl; [done|..].
  all: intros elems c Hf; eapply putNode_other; [done| |congruence|done];
    intros ? ?; congruence.
Qed.

Lemma Create_keeps (fs fs' : Node) (name : string) (err : option error) :
  os.Create fs name = (fs', err) →
  (∀ content, os.node fs name ≠ Ok (File content)) →
  keeps fs fs' ∧
  (err = None → name ≠ "" ∧ lookupNode (pathElems name) fs' = Ok (File "")).
Proof.
  unfold os.Create, os.node.
  destruct (decide (name = "")).
  { intros [= <- <-] _. split; [apply keeps_refl | done]. }
  destruct (putNode _ _ fs) as [fs1| |] eqn:Hput;
    intros [= <- <-] Hnf; [|by split; [apply keeps_refl|]|].
  2:{ apply putNode_no_panic in Hput; [done|]. by intros [[]|]. }
  pose proof (putNode_found _ _ _ _ Hput) as (x & Hnew & Hx).
  split.
  - intros elems c Hf. eapply putNode_other; [done| | |done].
    + intros r entries Hd. by rewrite Hd in Hnew.
    + intros ->. by apply (Hnf c).
  - intros _. split; [done|].
    destruct (lookupNode (pathElems name) fs) as [[?|? ?]| |];
      simpl in Hnew; congruence.
Qed.

Lemma write_keeps (fs : Node) (name content : string) :
  (∃ c, lookupNode (pathElems name) fs = Ok (File c)) →
  ∀ elems c, elems ≠ pathElems name →
    lookupNode elems fs = Ok (File c) →
    lookupNode elems (os.write fs name content) = Ok (File c).
Proof.
  intros [c0 Hc0] elems c Hne Hf. unfold os.write.
  destruct (putNode _ _ fs) as [fs1| |] eqn:Hput; [|done..].
  eapply putNode_other; [done| |done..]. intros ? ?. congruence.
Qed.

End fsfacts.

(** * White space

    What [strings.TrimSpace] removes, said without its code: the UTF-8
    encodings of the code points that [unicode.IsSpace] accepts. *)

Module unicode.

(** [unicode.IsSpace]: the white space of Latin-1, and the code points above
    it with the property White_Space. *)
Definition IsSpace (r : N) : bool :=
  bool_decide ((9 ≤ r ≤ 13 ∨ r = 32 ∨ r = 133 ∨ r = 160 ∨ r = 5760 ∨
                8192 ≤ r ≤ 8202 ∨ r = 8232 ∨ r = 8233 ∨ r = 8239 ∨
                r = 8287 ∨ r = 12288)%N).

(** The bytes of [string(r)], for a code point below U+10000. *)
Definition encodeRune (r : N) : string :=
  if decide (r < 128)%N then String (ascii_of_N r) ""
  else if decide (r < 2048)%N then
    String (ascii_of_N (192 + r / 64))
      (String (ascii_of_N (128 + r mod 64)) "")
  else
    String (ascii_of_N (224 + r / 4096))
      (String (ascii_of_N (128 + (r / 64) mod 64))
         (String (ascii_of_N (128 + r mod 64)) "")).

Definition encodeRunes (runes : list N) : string :=
  foldr (λ r acc, encodeRune r +:+ acc) "" runes.

End unicode.

(** A string that consists only of white space. *)
Definition whiteSpace (s : string) : Prop :=
  ∃ runes, Forall (λ r, unicode.IsSpace r = true) runes ∧
           s = unicode.encodeRunes runes.

(** The code points of [unicode.IsSpace]. *)
Definition spaceRunes : list N :=
  [9; 10; 11; 12; 13; 32; 133; 160; 5760; 8192; 8193; 8194; 8195; 8196; 8197;
   8198; 8199; 8200; 8201; 8202; 8232; 8233; 8239; 8287; 12288]%N.

Lemma IsSpace_spaceRunes (r : N) : unicode.IsSpace r = true ↔ r ∈ spaceRunes.
Proof.
  split.
  - intros H%bool_decide_eq_true.
    assert (r = 9 ∨ r = 10 ∨ r = 11 ∨ r = 12 ∨ r = 13 ∨ r = 32 ∨ r = 133 ∨
            r = 160 ∨ r = 5760 ∨ r = 8192 ∨ r = 8193 ∨ r = 8194 ∨ r = 8195 ∨
            r = 8196 ∨ r = 8197 ∨ r = 8198 ∨ r = 8199 ∨ r = 8200 ∨ r = 8201 ∨
            r = 8202 ∨ r = 8232 ∨ r = 8233 ∨ r = 8239 ∨ r = 8287 ∨ r = 12288)%N
      as Hr by lia.
    unfold spaceRunes. rewrite !elem_of_cons. tauto.
  - revert r. apply Forall_forall. unfold spaceRunes.
    repeat constructor.
Qed.

Lemma whiteSpace_nil : whiteSpace "".
Proof. by exists []. Qed.

Lemma whiteSpace_rune (r : N) (s : string) :
  unicode.IsSpace r = true → whiteSpace s →
  whiteSpace (unicode.encodeRune r +:+ s).
Proof.
  intros Hr (runes & Hall & ->). exists (r :: runes). split; [|done].
  by constructor.
Qed.

Lemma encodeRunes_app (l1 l2 : list N) :
  unicode.encodeRunes (l1 ++ l2)
  = unicode.encodeRunes l1 +:+ unicode.encodeRunes l2.
Proof.
  induction l1 as [|r l1 IH]; simpl; [by rewrite Str.app_nil_l|].
  by rewrite IH, Str.app_assoc.
Qed.

Lemma whiteSpace_app (s t : string) :
  whiteSpace s → whiteSpace t → whiteSpace (s +:+ t).
Proof.
  intros (l1 & H1 & ->) (l2 & H2 & ->). exists (l1 ++ l2).
  split; [by apply Forall_app | by rewrite encodeRunes_app].
Qed.

(** ** The width of the white space that a string begins with *)

(** [spaceWidth] accepts the encoding of every rune of [unicode.IsSpace]. *)
Lemma spaceWidth_rune (r : N) (rest : string) :
  unicode.IsSpace r = true →
  strings.spaceWidth (unicode.encodeRune r +:+ rest)
  = String.length (unicode.encodeRune r) ∧
  0 < String.length (unicode.encodeRune r) ≤ 3.
Proof.
  intros Hr%IsSpace_spaceRunes. revert rest. revert r Hr.
  apply (proj1 (Forall_forall
    (λ r, ∀ rest,
       strings.spaceWidth (unicode.encodeRune r +:+ rest)
       = String.length (unicode.encodeRune r) ∧
       0 < String.length (unicode.encodeRune r) ≤ 3) spaceRunes)).
  unfold spaceRunes.
  repeat (constructor; [intros rest; split; [reflexivity | simpl; lia]|]).
  constructor.
Qed.

Lemma ascii_of_value (c : ascii) (n : nat) :
  nat_of_ascii c = n → c = ascii_of_nat n.
Proof. intros <-. by rewrite ascii_nat_embedding. Qed.

(** And nothing else. *)
Lemma spaceWidth_inv (s : string) :
  strings.spaceWidth s ≠ 0 →
  ∃ r rest, unicode.IsSpace r = true ∧ s = unicode.encodeRune r +:+ rest ∧
            String.length (unicode.encodeRune r) = strings.spaceWidth s.
Proof.
  destruct s as [|a s]; [done|]. unfold strings.spaceWidth. cbv zeta.
  destruct (strings.asciiSpace (nat_of_ascii a)) eqn:Ha.
  { intros _. apply bool_decide_eq_true in Ha.
    exists (N.of_nat (nat_of_ascii a)), s.
    destruct Ha as [E|[E|[E|[E|[E|E]]]]];
      apply ascii_of_value in E; subst a; by vm_compute. }
  destruct s as [|b s]; [done|].
  case_bool_decide as H2.
  { intros _. destruct H2 as [Ea Hb].
    apply ascii_of_value in Ea. subst a.
    destruct Hb as [Hb|Hb]; apply ascii_of_value in Hb; subst b.
    - by exists 133%N, s.
    - by exists 160%N, s. }
  destruct s as [|c s]; [done|].
  case_bool_decide as H3; [|done].
  intros _.
  destruct H3 as [(Ea & Eb & Ec)|[(Ea & Eb & Ec)|[(Ea & Eb & Ec)|(Ea & Eb & Ec)]]];
    apply ascii_of_value in Ea, Eb; subst a b.
  - apply ascii_of_value in Ec. subst c. by exists 5760%N, s.
  - assert (nat_of_ascii c = 128 ∨ nat_of_ascii c = 129 ∨ nat_of_ascii c = 130 ∨
            nat_of_ascii c = 131 ∨ nat_of_ascii c = 132 ∨ nat_of_ascii c = 133 ∨
            nat_of_ascii c = 134 ∨ nat_of_ascii c = 135 ∨ nat_of_ascii c = 136 ∨
            nat_of_ascii c = 137 ∨ nat_of_ascii c = 138 ∨ nat_of_ascii c = 168 ∨
            nat_of_ascii c = 169 ∨ nat_of_ascii c = 175) as Hc by lia.
    exists (8064 + N.of_nat (nat_of_ascii c))%N, s.
    repeat (destruct Hc as [Hc|Hc];
            [apply ascii_of_value in Hc; subst c; by vm_compute|]).
    apply ascii_of_value in Hc. subst c. by vm_compute.
  - apply ascii_of_value in Ec. subst c. by exists 8287%N, s.
  - apply ascii_of_value in Ec. subst c. by exists 12288%N, s.
Qed.

(** ** [strings.TrimSpace] and white space *)

Lemma trimLeftWith_cons (width : string → nat) (c : ascii) (r1 : string) :
  strings.trimLeftWith width (String c r1) =
  match width (String c r1) with
  | 0 => String c r1
  | 1 => strings.trimLeftWith width r1
  | 2 => match r1 with
         | String _ r2 => strings.trimLeftWith width r2
         | "" => ""
         end
  | _ => match r1 with
         | String _ (String _ r3) => strings.trimLeftWith width r3
         | _ => ""
         end
  end.
Proof. reflexivity. Qed.

(** One turn of the trimming loop: it stops, or it drops a rune. *)
Lemma trimLeftWith_step (width : string → nat) (s : string) :
  width s ≤ 3 → width s ≤ String.length s →
  strings.trimLeftWith width s =
  if decide (width s = 0) then s
  else strings.trimLeftWith width (Str.drop (width s) s).
Proof.
  destruct s as [|c r1].
  { intros _ Hl. simpl in Hl. by rewrite decide_True by lia. }
  rewrite trimLeftWith_cons.
  destruct (width (String c r1)) as [|[|[|[|n]]]] eqn:Hw; simpl; intros H3 Hl.
  - done.
  - done.
  - destruct r1; [simpl in Hl; lia | done].
  - destruct r1 as [|? [|? ?]]; [simpl in Hl; lia.. | done].
  - lia.
Qed.

Lemma spaceWidth_le (s : string) :
  strings.spaceWidth s ≤ 3 ∧ strings.spaceWidth s ≤ String.length s.
Proof.
  destruct s as [|a [|b [|c r]]]; unfold strings.spaceWidth; cbv zeta;
    repeat (case_match || case_bool_decide); simpl; lia.
Qed.

Lemma spaceWidthRev_le (s : string) :
  strings.spaceWidthRev s ≤ 3 ∧ strings.spaceWidthRev s ≤ String.length s.
Proof.
  destruct s as [|a [|b [|c r]]]; unfold strings.spaceWidthRev;
    repeat (case_match || case_bool_decide); simpl; lia.
Qed.

Lemma trimLeft_whiteSpace (s : string) :
  whiteSpace s → strings.trimLeftWith strings.spaceWidth s = "".
Proof.
  intros (runes & Hall & ->).
  induction Hall as [|r runes Hr Hall IH]; [done|].
  change (unicode.encodeRunes (r :: runes))
    with (unicode.encodeRune r +:+ unicode.encodeRunes runes).
  rewrite trimLeftWith_step by apply spaceWidth_le.
  destruct (spaceWidth_rune r (unicode.encodeRunes runes) Hr) as [Hw Hlen].
  rewrite Hw, decide_False by lia. by rewrite Str.drop_app_length.
Qed.

(** What [TrimLeft] removes is white space, and what it leaves begins with
    none. *)
Lemma trimLeft_split (s : string) :
  ∃ w, whiteSpace w ∧
       s = w +:+ strings.trimLeftWith strings.spaceWidth s ∧
       strings.spaceWidth (strings.trimLeftWith strings.spaceWidth s) = 0.
Proof.
  induction s as [s IH] using string_length_ind.
  rewrite trimLeftWith_step by apply spaceWidth_le.
  case_decide as Hw.
  { exists "". split; [apply whiteSpace_nil|]. by rewrite Str.app_nil_l. }
  destruct (spaceWidth_inv s Hw) as (r & rest & Hr & Hs & Hlen).
  rewrite <- Hlen. subst s. rewrite Str.drop_app_length.
  destruct (IH rest) as (w & Hws & Hrest & Hstop).
  { rewrite Str.length_app. lia. }
  exists (unicode.encodeRune r +:+ w). split; [by apply whiteSpace_rune|].
  split; [|done]. rewrite Str.app_assoc. by rewrite <- Hrest.
Qed.

Lemma length_rev (s : string) : String.length (Str.rev s) = String.length s.
Proof.
  induction s as [|c s IH]; [done|].
  rewrite paths.rev_cons, Str.length_app, IH. simpl. lia.
Qed.

Lemma app_whole (x rest t : string) :
  t = x +:+ rest → String.length x = String.length t → x = t.
Proof.
  intros -> Hl. rewrite Str.length_app in Hl.
  assert (rest = "") as -> by (apply Str.length_zero; lia).
  by rewrite Str.app_nil_r.
Qed.

(** The white space that a reversed string begins with. *)
Lemma spaceWidthRev_inv (z : string) :
  strings.spaceWidthRev z ≠ 0 →
  ∃ r rest, unicode.IsSpace r = true ∧
            z = Str.rev (unicode.encodeRune r) +:+ rest ∧
            String.length (unicode.encodeRune r) = strings.spaceWidthRev z.
Proof.
  assert (∀ t n, strings.spaceWidth t = n → String.length t = n → n ≠ 0 →
                 ∃ r, unicode.IsSpace r = true ∧ unicode.encodeRune r = t)
    as Hwhole.
  { intros t n Hw Hl Hn.
    destruct (spaceWidth_inv t) as (r & rest & Hr & Ht & Hlen); [lia|].
    exists r. split; [done|]. apply (app_whole _ rest); [done | lia]. }
  destruct z as [|c z]; [done|]. unfold strings.spaceWidthRev.
  destruct (strings.asciiSpace (nat_of_ascii c)) eqn:Hc.
  { intros _. destruct (Hwhole (String c "") 1) as (r & Hr & He); [|done..|].
    - unfold strings.spaceWidth. cbv zeta. by rewrite Hc.
    - exists r, z. by rewrite He. }
  destruct z as [|b z]; [done|].
  case_bool_decide as H2.
  { intros _.
    destruct (Hwhole (String b (String c "")) 2) as (r & Hr & He); [done..|].
    exists r, z. by rewrite He. }
  destruct z as [|a z]; [done|].
  case_bool_decide as H3; [|done].
  intros _.
  destruct (Hwhole (String a (String b (String c ""))) 3) as (r & Hr & He);
    [done..|].
  exists r, z. by rewrite He.
Qed.

(** A string that [TrimRight] removes entirely is white space. *)
Lemma trimRight_whiteSpace (z : string) :
  strings.trimLeftWith strings.spaceWidthRev z = "" → whiteSpace (Str.rev z).
Proof.
  induction z as [z IH] using string_length_ind.
  rewrite trimLeftWith_step by apply spaceWidthRev_le.
  case_decide as Hw; [intros ->; apply whiteSpace_nil|].
  destruct (spaceWidthRev_inv z Hw) as (r & rest & Hr & Hz & Hlen).
  rewrite <- Hlen, <- (length_rev (unicode.encodeRune r)). subst z.
  rewrite Str.drop_app_length. intros Hrest.
  rewrite paths.rev_app, paths.rev_involutive.
  apply whiteSpace_app.
  - apply IH; [|done]. rewrite Str.length_app, length_rev. lia.
  - rewrite <- (Str.app_nil_r (unicode.encodeRune r)).
    apply whiteSpace_rune; [done | apply whiteSpace_nil].
Qed.

Lemma whiteSpace_width (s : string) :
  whiteSpace s → s ≠ "" → strings.spaceWidth s ≠ 0.
Proof.
  intros (runes & Hall & ->) Hne.
  destruct Hall as [|r runes Hr Hall]; [done|].
  change (unicode.encodeRunes (r :: runes))
    with (unicode.encodeRune r +:+ unicode.encodeRunes runes).
  destruct (spaceWidth_rune r (unicode.encodeRunes runes) Hr) as [Hw Hlen].
  lia.
Qed.

(** [TrimSpace] leaves nothing of a string exactly when the string consists
    only of white space. *)
Lemma TrimSpace_whiteSpace (s : string) :
  strings.TrimSpace s = "" ↔ whiteSpace s.
Proof.
  unfold strings.TrimSpace. split.
  - intros Ht.
    assert (strings.trimLeftWith strings.spaceWidthRev
              (Str.rev (strings.trimLeftWith strings.spaceWidth s)) = "") as Hr.
    { apply Str.length_zero. by rewrite <- length_rev, Ht. }
    apply trimRight_whiteSpace in Hr. rewrite paths.rev_involutive in Hr.
    destruct (trimLeft_split s) as (w & Hw & Hs & Hstop).
    destruct (decide (strings.trimLeftWith strings.spaceWidth s = ""))
      as [He|Hne].
    + rewrite Hs, He, Str.app_nil_r. done.
    + by apply whiteSpace_width in Hr.
  - intros Hs. by rewrite trimLeft_whiteSpace.
Qed.

Example whiteSpace_ex : whiteSpace (String "009" (String " " "")) ∧ ¬ whiteSpace "a ".
Proof.
  split.
  - exists [9; 32]%N. split; [by repeat constructor | done].
  - by intros H%TrimSpace_whiteSpace.
Qed.

(** * Properties of the tokenizer *)

Section SplittingLoop.
  Context (seps : list string).

Lemma find_occurrence (remain : string) :
    (findCutter remain seps).2 ≠ "" →
    remain =
      Str.take (findCutter remain seps).1 remain
      +:+ (findCutter remain seps).2
      +:+ Str.drop ((findCutter remain seps).1
                    + String.length (findCutter remain seps).2) remain.
  Proof.
    intros Hc.
    destruct (findCutter_OK remain seps) as [[? _]|(_ & _ & Hi)]; [done|].
    apply Index_first in Hi as [Hp _]. apply HasPrefix_spec in Hp as [t Ht].
    rewrite <- Str.drop_drop, Ht, Str.drop_app_length, <- Ht.
    by rewrite Str.take_drop.
  Qed.

Lemma unsplit_splitSteps (src : string) : unsplit (splitSteps src seps) = src.
  Proof.
    induction src as [|remain Hne IH] using (splitSteps_ind seps).
    { by rewrite splitSteps_nil. }
    destruct (decide ((findCutter remain seps).2 = "")) as [Hc|Hc].
    - rewrite splitSteps_no_cutter by done. simpl.
      by rewrite !Str.app_nil_r.
    - rewrite splitSteps_cons by done. simpl. rewrite IH.
      symmetry. by apply find_occurrence.
  Qed.

Lemma length_splitSteps (src : string) :
    length (splitSteps src seps)
    = consumed (splitSteps src seps)
      + (if decide (last (splitSteps src seps).*2 = Some "") then 1 else 0).
  Proof.
    induction src as [|remain Hne IH] using (splitSteps_ind seps).
    { by rewrite splitSteps_nil. }
    destruct (decide ((findCutter remain seps).2 = "")) as [Hc|Hc].
    - by rewrite splitSteps_no_cutter by done.
    - rewrite splitSteps_cons by done. unfold consumed in *.
      rewrite filter_cons_True by done. simpl. rewrite IH.
      destruct (splitSteps _ seps) as [|st rest]; simpl.
      + rewrite decide_False by congruence. done.
      + done.
  Qed.

Lemma splitSteps_progress (src fragment : string) :
    (fragment, "") ∈ splitSteps src seps →
    fragment ≠ "" ∧ last (splitSteps src seps) = Some (fragment, "").
  Proof.
    induction src as [|remain Hne IH] using (splitSteps_ind seps).
    { rewrite splitSteps_nil. by intros ?%elem_of_nil. }
    destruct (decide ((findCutter remain seps).2 = "")) as [Hc|Hc].
    - rewrite splitSteps_no_cutter by done.
      intros [= ->]%list_elem_of_singleton. done.
    - rewrite splitSteps_cons by done.
      intros [[= _ Heq]|Hin]%elem_of_cons; [by rewrite <- Heq in Hc|].
      destruct (IH Hin) as [Hf Hl]. split; [done|].
      rewrite last_cons, Hl. done.
  Qed.

Lemma unsplit_snoc (steps : list (string * string)) (fragment cutter : string) :
    unsplit (steps ++ [(fragment, cutter)]) = unsplit steps +:+ fragment +:+ cutter.
  Proof.
    induction steps as [|st steps IH]; simpl.
    - by rewrite Str.app_nil_r.
    - by rewrite IH, !Str.app_assoc.
  Qed.

Lemma last_Some_snoc {A} (l : list A) (x : A) :
    last l = Some x → ∃ l', l = l' ++ [x].
  Proof.
    intros Hl. destruct l as [|y l _] using rev_ind; [done|].
    rewrite last_snoc in Hl. injection Hl as ->. by exists l.
  Qed.

Lemma splitSteps_last (src fragment cutter : string) :
    last (splitSteps src seps) = Some (fragment, cutter) →
    (∃ t, src = t +:+ fragment +:+ cutter) ∧
    last (splitVals src seps) = Some fragment ∧
    (cutter ≠ "" → length (splitVals src seps) = consumed (splitSteps src seps)).
  Proof.
    intros Hl. split; [|split].
    - destruct (last_Some_snoc _ _ Hl) as [steps Hs].
      exists (unsplit steps).
      rewrite <- (unsplit_splitSteps src) at 1. by rewrite Hs, unsplit_snoc.
    - unfold splitVals. by rewrite fmap_last, Hl.
    - intros Hc. unfold splitVals. rewrite length_fmap, length_splitSteps.
      rewrite fmap_last, Hl. simpl.
      rewrite decide_False by congruence. lia.
  Qed.

End SplittingLoop.

(** C4, as it stands, fails: the loop runs while the remainder is not
    empty, so an empty input gives no fragment at all, and an input that
    ends in a separator gets no fragment after that separator: ["a-"] is cut
    into the one fragment ["a"] by the one separator it consumed.  The last
    fragment is empty only when the text before the last separator is:
    ["a--"] is cut into ["a"] and [""] by two separators. *)
Lemma splitVals_count_counterexample :
  splitVals "" ["-"] = [] ∧
  splitVals "a-" ["-"] = ["a"] ∧
  consumed (splitSteps "a-" ["-"]) = 1 ∧
  splitVals "a--" ["-"] = ["a"; ""] ∧
  consumed (splitSteps "a--" ["-"]) = 2.
Proof. vm_compute. repeat (split; [reflexivity|]). reflexivity. Qed.

(** C4, amended: the splitting loop yields one fragment for each turn.  The
    turns read back as the input (fragment, separator, fragment, ...); the
    number of fragments is the number of separator occurrences consumed,
    plus one exactly when the last turn found no separator.  When the last
    turn consumed a separator, the input ends with that separator and no
    fragment follows it: the last fragment is the text before it, which may
    be empty, and there are as many fragments as separators consumed.  A
    turn that found no separator is the last one and its fragment is not
    empty; and the empty input yields no fragment. *)
Theorem splitVals_count (src : string) (seps : list string) :
  unsplit (splitSteps src seps) = src ∧
  length (splitVals src seps)
  = consumed (splitSteps src seps)
    + (if decide (last (splitSteps src seps).*2 = Some "") then 1 else 0) ∧
  (∀ fragment cutter,
     last (splitSteps src seps) = Some (fragment, cutter) → cutter ≠ "" →
     (∃ t, src = t +:+ fragment +:+ cutter) ∧
     last (splitVals src seps) = Some fragment ∧
     length (splitVals src seps) = consumed (splitSteps src seps)) ∧
  (∀ fragment, (fragment, "") ∈ splitSteps src seps →
     fragment ≠ "" ∧ last (splitSteps src seps) = Some (fragment, "")) ∧
  (length (splitVals src seps) = 0 ↔ src = "").
Proof.
  split; [apply unsplit_splitSteps|].
  split; [unfold splitVals; rewrite length_fmap; apply length_splitSteps|].
  split.
  { intros fragment cutter Hl Hc.
    destruct (splitSteps_last seps src fragment cutter Hl) as (Ht & Hv & Hn).
    split; [done|]. split; [done|]. by apply Hn. }
  split; [intros fragment; apply splitSteps_progress|].
  unfold splitVals. rewrite length_fmap. split.
  - intros Hl. destruct (decide (src = "")) as [|Hne]; [done|].
    by rewrite splitSteps_cons in Hl.
  - intros ->. by rewrite splitSteps_nil.
Qed.

(** An input that is one separator, or that ends in two: the fragment
    before the last separator is empty, and it is the last one. *)
Example splitVals_ex2 :
  splitVals "-" ["-"] = [""] ∧ splitVals "a--" ["-"] = ["a"; ""] ∧
  splitVals "a-b" ["-"] = ["a"; "b"].
Proof. vm_compute. repeat (split; [reflexivity|]). reflexivity. Qed.

Section EarliestCut.
  Context (remain : string).

  (** A separator that is not blank and occurs in [remain]. *)
Definition splitsAt (sep : string) (i : nat) : Prop :=
    strings.TrimSpace sep ≠ "" ∧ strings.Index remain sep = Some i.

Lemma splitsAt_lt (sep : string) (i : nat) :
    splitsAt sep i → i < String.length remain.
  Proof.
    intros [Ht Hi]. apply Index_bound in Hi.
    destruct sep; [done | simpl in Hi; lia].
  Qed.

  (** The state of the inner loop: a cutter was found at [cut.1], or none
      and [cut.1] is still [len(remain)]. *)
Definition cutInv (cut : nat * string) : Prop :=
    (cut.2 = "" ∧ cut.1 = String.length remain) ∨ splitsAt cut.2 cut.1.

Lemma cutStep_inv cut sep : cutInv cut → cutInv (cutStep remain cut sep).
  Proof.
    intros Hc. unfold cutStep.
    destruct (decide (strings.TrimSpace sep = "")); [done|].
    destruct (strings.Index remain sep) as [i|] eqn:Hi; [|done].
    destruct (decide (cut.1 ≤ i)); [done|]. by right.
  Qed.

Lemma cutStep_le cut sep : (cutStep remain cut sep).1 ≤ cut.1.
  Proof.
    unfold cutStep.
    destruct (decide (strings.TrimSpace sep = "")); [done|].
    destruct (strings.Index remain sep) as [i|]; [|done].
    destruct (decide (cut.1 ≤ i)); simpl; lia.
  Qed.

Lemma cutStep_blank cut sep :
    strings.TrimSpace sep = "" → cutStep remain cut sep = cut.
  Proof. intros Hb. unfold cutStep. by rewrite decide_True. Qed.

Lemma foldl_cutStep_inv cut l : cutInv cut → cutInv (foldl (cutStep remain) cut l).
  Proof.
    revert cut; induction l as [|s l IH]; intros cut Hc; simpl; [done|].
    by apply IH, cutStep_inv.
  Qed.

Lemma foldl_cutStep_le cut l : (foldl (cutStep remain) cut l).1 ≤ cut.1.
  Proof.
    revert cut; induction l as [|s l IH]; intros cut; simpl; [done|].
    etrans; [apply IH | apply cutStep_le].
  Qed.

Lemma foldl_cutStep_min cut l sep i :
    sep ∈ l → splitsAt sep i → (foldl (cutStep remain) cut l).1 ≤ i.
  Proof.
    revert cut; induction l as [|s l IH]; intros cut Hin Hs; [by inv Hin|].
    simpl. apply elem_of_cons in Hin as [<-|Hin]; [|by apply IH].
    etrans; [apply foldl_cutStep_le|].
    destruct Hs as [Ht Hi]. unfold cutStep.
    rewrite decide_False, Hi by done.
    destruct (decide (cut.1 ≤ i)); simpl; lia.
  Qed.

Lemma foldl_cutStep_filter cut l :
    foldl (cutStep remain) cut (filter (λ sep, strings.TrimSpace sep ≠ "") l)
    = foldl (cutStep remain) cut l.
  Proof.
    revert cut; induction l as [|s l IH]; intros cut; [done|].
    destruct (decide (strings.TrimSpace s = "")) as [Hb|Hb].
    - rewrite filter_cons_False by (by intros ?). simpl.
      by rewrite cutStep_blank.
    - rewrite filter_cons_True by done. simpl. apply IH.
  Qed.

Lemma findCutter_inv seps : cutInv (findCutter remain seps).
  Proof. apply foldl_cutStep_inv. by left. Qed.

Lemma findCutter_min seps sep i :
    sep ∈ seps → splitsAt sep i →
    (findCutter remain seps).1 ≤ i ∧ splitsAt (findCutter remain seps).2 (findCutter remain seps).1.
  Proof.
    intros Hin Hs.
    pose proof (foldl_cutStep_min (String.length remain, "") seps sep i Hin Hs) as Hle.
    fold (findCutter remain seps) in Hle. split; [done|].
    destruct (findCutter_inv seps) as [[_ Hlen]|?]; [|done].
    apply splitsAt_lt in Hs. lia.
  Qed.

Lemma findCutter_perm seps seps' :
    seps ≡ₚ seps' → (findCutter remain seps).1 = (findCutter remain seps').1.
  Proof.
    assert (∀ l l', l ≡ₚ l' → (findCutter remain l').1 ≤ (findCutter remain l).1)
      as Hle.
    { intros l l' Hp.
      destruct (findCutter_OK remain l) as [[_ ->]|(Hin & Ht & Hi)].
      - apply (foldl_cutStep_le (String.length remain, "")).
      - apply (elem_of_Permutation_proper _ _ _ Hp) in Hin.
        by apply (findCutter_min l' _ _ Hin). }
    intros Hp. apply Nat.le_antisymm; by apply Hle.
  Qed.

End EarliestCut.

Lemma splitSteps_filter (src : string) (seps : list string) :
  splitSteps src (filter (λ sep, strings.TrimSpace sep ≠ "") seps)
  = splitSteps src seps.
Proof.
  assert (∀ remain,
    findCutter remain (filter (λ sep, strings.TrimSpace sep ≠ "") seps)
    = findCutter remain seps) as Hf
    by (intros; apply foldl_cutStep_filter).
  induction src as [|remain Hne IH] using (splitSteps_ind seps).
  { by rewrite !splitSteps_nil. }
  rewrite !(splitSteps_cons remain) by done. by rewrite !Hf, IH.
Qed.

Lemma splitVals_cons (remain : string) (seps : list string) :
  remain ≠ "" →
  splitVals remain seps
  = Str.take (findCutter remain seps).1 remain
    :: splitVals
         (Str.drop ((findCutter remain seps).1
                    + String.length (findCutter remain seps).2) remain) seps.
Proof. intros Hne. unfold splitVals. by rewrite splitSteps_cons. Qed.

Lemma splitVals_no_cutter (remain : string) (seps : list string) :
  remain ≠ "" → (findCutter remain seps).2 = "" →
  splitVals remain seps = [remain].
Proof. intros Hne Hc. unfold splitVals. by rewrite splitSteps_no_cutter. Qed.

(** A separator that is only white space may be put into the list, or taken
    out of it, anywhere. *)
Lemma findCutter_whiteSpace (remain : string) (seps1 seps2 : list string)
    (sep : string) :
  whiteSpace sep →
  findCutter remain (seps1 ++ sep :: seps2) = findCutter remain (seps1 ++ seps2).
Proof.
  intros Hw%TrimSpace_whiteSpace. unfold findCutter.
  rewrite !foldl_app. simpl. by rewrite cutStep_blank.
Qed.

Lemma splitVals_whiteSpace (src : string) (seps1 seps2 : list string)
    (sep : string) :
  whiteSpace sep →
  splitVals src (seps1 ++ sep :: seps2) = splitVals src (seps1 ++ seps2).
Proof.
  intros Hw. unfold splitVals. f_equal.
  induction src as [|remain Hne IH] using (splitSteps_ind (seps1 ++ seps2)).
  { by rewrite !splitSteps_nil. }
  rewrite !(splitSteps_cons remain) by done.
  by rewrite findCutter_whiteSpace, IH.
Qed.

(** C9: a turn of the splitting loop on the remainder [remain] cuts at
    [idx]: the fragment is [remain[:idx]] and the loop goes on after the
    [cutter].  The position [idx] is the earliest at which any separator
    of the list that is not only white space occurs in the remainder, and
    the [cutter] is such a separator, with its first occurrence at [idx];
    without such a separator the turn takes the whole remainder.  The
    position does not depend on the order of the list.  A separator that
    consists only of white space is never the cutter, and the fragments are
    the same with it in the list, at any place, as without it. *)
Theorem findCutter_earliest (remain : string) (seps : list string) :
  let idx := (findCutter remain seps).1 in
  let cutter := (findCutter remain seps).2 in
  (remain ≠ "" →
   splitVals remain seps
   = Str.take idx remain
     :: splitVals (Str.drop (idx + String.length cutter) remain) seps) ∧
  (∀ sep i, sep ∈ seps → ¬ whiteSpace sep →
            strings.Index remain sep = Some i →
            idx ≤ i ∧ cutter ∈ seps ∧ ¬ whiteSpace cutter ∧
            strings.Index remain cutter = Some idx) ∧
  ((∀ sep, sep ∈ seps → ¬ whiteSpace sep →
           strings.Index remain sep = None) →
   idx = String.length remain ∧ cutter = "" ∧
   (remain ≠ "" → splitVals remain seps = [remain])) ∧
  (∀ seps', seps ≡ₚ seps' → (findCutter remain seps').1 = idx) ∧
  (whiteSpace cutter → cutter = "") ∧
  (∀ seps1 seps2 sep, whiteSpace sep → seps = seps1 ++ seps2 →
     findCutter remain (seps1 ++ sep :: seps2) = (idx, cutter) ∧
     ∀ src, splitVals src (seps1 ++ sep :: seps2) = splitVals src seps).
Proof.
  intros idx cutter.
  assert (∀ sep, ¬ whiteSpace sep ↔ strings.TrimSpace sep ≠ "") as Hblank
    by (intros sep; by rewrite TrimSpace_whiteSpace).
  split; [by apply splitVals_cons|].
  split.
  { intros sep i Hin Hsep%Hblank Hi.
    destruct (findCutter_min remain seps sep i Hin) as [Hle [Ht Hc]]; [done|].
    split; [done|]. split; [|by split; [apply Hblank|]].
    destruct (findCutter_OK remain seps) as [[Hc' _]|(Hin' & _)]; [|done].
    fold cutter in Ht, Hc'. rewrite Hc' in Ht. done. }
  split.
  { intros Hnone.
    assert (idx = String.length remain ∧ cutter = "") as [Hidx Hcut].
    { destruct (findCutter_OK remain seps) as [[? ?]|(Hin & Ht%Hblank & Hi)];
        [done|].
      by rewrite (Hnone _ Hin Ht) in Hi. }
    split; [done|]. split; [done|].
    intros Hne. by apply splitVals_no_cutter. }
  split; [intros seps' Hp; symmetry; by apply findCutter_perm|].
  split.
  { intros Hw%TrimSpace_whiteSpace.
    destruct (findCutter_OK remain seps) as [[? _]|(_ & Ht & _)]; done. }
  intros seps1 seps2 sep Hw ->. split.
  - rewrite findCutter_whiteSpace by done. by destruct (findCutter _ _).
  - intros src. by apply splitVals_whiteSpace.
Qed.

(** A blank, a tab or a no-break space among the separators cuts nothing. *)
Example splitVals_ex3 :
  splitVals "a b_c" [" "; "_"] = ["a b"; "c"] ∧
  splitVals "a b" [" "; String "009" ""; String "194" (String "160" "")]
  = ["a b"].
Proof. vm_compute. split; reflexivity. Qed.

Example findCutter_ex : findCutter "a_b.c" ["."; " "; "_"] = (1, "_").
Proof. reflexivity. Qed.

(** ** Binding of fragments to keys *)

Section Binding.

  (** The assignments [envs[k] = v] of a binding loop, in order; the key
      ["_"] assigns nothing. *)
Definition assign (envs : gmap string string) (kv : string * string)
    : gmap string string :=
    if decide (kv.1 = "_") then envs else <[kv.1 := kv.2]> envs.

Lemma forRange_app {A} (body : nat → A → res A) (l1 l2 : list nat) (a : A) :
    forRange body (l1 ++ l2) a = (a' ← forRange body l1 a; forRange body l2 a').
  Proof.
    revert a; induction l1 as [|i l1 IH]; intros a; simpl; [done|].
    destruct (body i a) as [a'| |]; simpl; [apply IH | done..].
  Qed.

Lemma forRange_snoc {A} (body : nat → A → res A) (l : list nat) (i : nat) (a : A) :
    forRange body (l ++ [i]) a = (a' ← forRange body l a; body i a').
  Proof.
    rewrite forRange_app. destruct (forRange body l a) as [a'| |]; simpl; [|done..].
    by destruct (body i a').
  Qed.

Lemma bindLeft_Ok (leftKeys vals : list string) (i : nat) envs k v :
    leftKeys !! i = Some k → vals !! i = Some v →
    bindLeft leftKeys vals i envs = Ok (assign envs (k, v)).
  Proof.
    intros Hk Hv. unfold bindLeft, assign. rewrite Hk. simpl.
    destruct (decide (k = "_")); [done|]. by rewrite Hv.
  Qed.

Lemma bindRight_Ok (rightKeys vals : list string) (i : nat) envs k v :
    i < length vals →
    rightKeys !! (length rightKeys - 1 - i) = Some k →
    vals !! (length vals - 1 - i) = Some v →
    bindRight rightKeys vals i envs = Ok (assign envs (k, v)).
  Proof.
    intros Hi Hk Hv. unfold bindRight, assign. rewrite Hk. simpl.
    destruct (decide (k = "_")); [done|].
    rewrite decide_True by done. by rewrite Hv.
  Qed.

Lemma forRange_bindLeft (leftKeys vals : list string) envs (n : nat) :
    n ≤ length leftKeys → n ≤ length vals →
    forRange (bindLeft leftKeys vals) (seq 0 n) envs
    = Ok (foldl assign envs (zip (take n leftKeys) (take n vals))).
  Proof.
    intros Hk Hv. induction n as [|n IH]; [done|].
    rewrite seq_S, forRange_snoc, IH by lia. simpl.
    destruct (lookup_lt_is_Some_2 leftKeys n) as [k Hkn]; [lia|].
    destruct (lookup_lt_is_Some_2 vals n) as [v Hvn]; [lia|].
    rewrite (take_S_r _ _ _ Hkn), (take_S_r _ _ _ Hvn).
    rewrite zip_with_app by (rewrite !length_take; lia).
    rewrite foldl_app. simpl. by apply bindLeft_Ok.
  Qed.

Lemma forRange_bindRight (rightKeys vals : list string) envs (n : nat) :
    n ≤ length rightKeys → n ≤ length vals →
    forRange (bindRight rightKeys vals) (seq 0 n) envs
    = Ok (foldl assign envs
            (reverse (zip (drop (length rightKeys - n) rightKeys)
                          (drop (length vals - n) vals)))).
  Proof.
    intros Hk Hv. induction n as [|n IH].
    { simpl. rewrite !Nat.sub_0_r, !drop_all. done. }
    rewrite seq_S, forRange_snoc, IH by lia. simpl.
    destruct (lookup_lt_is_Some_2 rightKeys (length rightKeys - S n)) as [k Hkn];
      [lia|].
    destruct (lookup_lt_is_Some_2 vals (length vals - S n)) as [v Hvn]; [lia|].
    rewrite (drop_S _ _ _ Hkn), (drop_S _ _ _ Hvn).
    replace (S (length rightKeys - S n)) with (length rightKeys - n) by lia.
    replace (S (length vals - S n)) with (length vals - n) by lia.
    simpl. rewrite reverse_cons, foldl_app. simpl.
    apply bindRight_Ok; [lia|..].
    - by replace (length rightKeys - 1 - n) with (length rightKeys - S n) by lia.
    - by replace (length vals - 1 - n) with (length vals - S n) by lia.
  Qed.

  (** The lookups of a map after a run of assignments: the last assignment
      to a key wins. *)
Lemma lookup_assign_other envs kvs (k : string) :
    k ∉ kvs.*1 → foldl assign envs kvs !! k = envs !! k.
  Proof.
    revert envs; induction kvs as [|[k' v'] kvs IH]; intros envs Hk; [done|].
    simpl in *. apply not_elem_of_cons in Hk as [Hne Hk].
    rewrite IH by done. unfold assign. simpl.
    destruct (decide (k' = "_")); [done|]. by rewrite lookup_insert_ne.
  Qed.

Lemma lookup_assign_last envs kvs1 kvs2 (k v : string) :
    k ≠ "_" → k ∉ kvs2.*1 →
    foldl assign envs (kvs1 ++ (k, v) :: kvs2) !! k = Some v.
  Proof.
    intros Hne Hk. rewrite foldl_app. simpl.
    rewrite lookup_assign_other by done. unfold assign. simpl.
    rewrite decide_False by done. by rewrite lookup_insert_eq.
  Qed.

Lemma lookup_assign_Some envs kvs (k v : string) :
    foldl assign envs kvs !! k = Some v →
    envs !! k = Some v ∨ (k ≠ "_" ∧ (k, v) ∈ kvs).
  Proof.
    revert envs; induction kvs as [|[k' v'] kvs IH]; intros envs Hl; [by left|].
    simpl in Hl. apply IH in Hl as [Hl|[? ?]]; [|right; split; [done|by right]].
    unfold assign in Hl. simpl in Hl.
    destruct (decide (k' = "_")); [by left|].
    destruct (decide (k' = k)) as [->|].
    - rewrite lookup_insert_eq in Hl. injection Hl as ->.
      right. split; [done | by left].
    - rewrite lookup_insert_ne in Hl by done. by left.
  Qed.

Lemma bindKeys_Ok (leftKeys rightKeys vals : list string) :
    length leftKeys + length rightKeys ≤ length vals →
    bindKeys leftKeys rightKeys vals
    = Ok (foldl assign (foldl assign ∅ (zip leftKeys vals))
            (reverse (zip rightKeys
                        (drop (length vals - length rightKeys) vals)))).
  Proof.
    intros Hlen. unfold bindKeys.
    rewrite forRange_bindLeft by lia. simpl.
    rewrite forRange_bindRight by lia.
    rewrite Nat.sub_diag, drop_0. by rewrite zip_with_take_both' by lia.
  Qed.

Lemma elem_of_zip_fst (l k : list string) (x : string) :
    x ∈ (zip l k).*1 → x ∈ l.
  Proof.
    intros ([x' y] & -> & Hin)%list_elem_of_fmap. by apply elem_of_zip_l in Hin.
  Qed.

Lemma zip_split_at (l k : list string) (i : nat) (x y : string) :
    l !! i = Some x → k !! i = Some y →
    zip l k = zip (take i l) (take i k) ++ (x, y) :: zip (drop (S i) l) (drop (S i) k).
  Proof.
    intros Hl Hk.
    rewrite <- (take_drop_middle l i x Hl) at 1.
    rewrite <- (take_drop_middle k i y Hk) at 1.
    rewrite zip_with_app; [done|].
    rewrite !length_take. apply lookup_lt_Some in Hl, Hk. lia.
  Qed.

Lemma findDivider_none (i : nat) (keys : list string) (idx : option nat) :
    "..." ∉ keys → findDivider i keys idx = Ok idx.
  Proof.
    revert i; induction keys as [|k keys IH]; intros i Hk; simpl; [done|].
    apply not_elem_of_cons in Hk as [Hne Hk].
    rewrite decide_False by done. by apply IH.
  Qed.

Lemma findDivider_one (i : nat) (leftKeys rightKeys : list string) :
    "..." ∉ leftKeys → "..." ∉ rightKeys →
    findDivider i (leftKeys ++ "..." :: rightKeys) None
    = Ok (Some (i + length leftKeys)).
  Proof.
    revert i; induction leftKeys as [|k l IH]; intros i Hl Hr; simpl.
    - rewrite findDivider_none by done. by rewrite Nat.add_0_r.
    - apply not_elem_of_cons in Hl as [Hne Hl].
      rewrite decide_False by done. rewrite IH by done. do 2 f_equal. lia.
  Qed.

End Binding.

Example parseEnvs_wildcard_ex :
  parseEnvs "1-2-3-4" ["-"] ["A"; "..."; "B"]
  = Ok (<["A" := "1"]> (<["B" := "4"]> ∅)).
Proof. vm_compute. reflexivity. Qed.

(** C5: with one key divider ["..."] between the keys [leftKeys] and
    [rightKeys], and at least as many fragments as keys, [parseEnvs] returns
    a map in which the [i]-th left key holds the [i]-th fragment and the
    [j]-th right key holds the fragment at the same distance from the end
    (a key written several times keeps its last assignment: the right keys
    are assigned after the left ones, from right to left); every entry of
    the map is such a pair, so the fragments in between are in no entry and
    the key ["_"] is absent.  With fewer fragments it fails. *)
Theorem parseEnvs_wildcard (src : string) (seps leftKeys rightKeys : list string) :
  "..." ∉ leftKeys → "..." ∉ rightKeys →
  let keys := leftKeys ++ "..." :: rightKeys in
  let vals := splitVals src seps in
  let off := length vals - length rightKeys in
  (length leftKeys + length rightKeys ≤ length vals →
   ∃ envs, parseEnvs src seps keys = Ok envs ∧
     (∀ i k, leftKeys !! i = Some k → k ≠ "_" →
             k ∉ drop (S i) leftKeys → k ∉ rightKeys →
             envs !! k = vals !! i) ∧
     (∀ j k, rightKeys !! j = Some k → k ≠ "_" →
             k ∉ take j rightKeys →
             envs !! k = vals !! (off + j)) ∧
     (∀ k v, envs !! k = Some v →
             k ≠ "_" ∧
             ((∃ i, leftKeys !! i = Some k ∧ vals !! i = Some v) ∨
              (∃ j, rightKeys !! j = Some k ∧ vals !! (off + j) = Some v)))) ∧
  (length vals < length leftKeys + length rightKeys →
   parseEnvs src seps keys
   = Err (Errorf ("not enough values for keys: " +:+ src))).
Proof.
  intros Hl Hr keys vals off.
  assert (parseEnvs src seps keys =
          if decide (length vals < length leftKeys + length rightKeys)
          then Err (Errorf ("not enough values for keys: " +:+ src))
          else bindKeys leftKeys rightKeys vals) as Hparse.
  { unfold parseEnvs. fold vals. unfold keys.
    rewrite findDivider_one by done. simpl.
    rewrite length_app. simpl.
    replace (length leftKeys + S (length rightKeys) - 1)
      with (length leftKeys + length rightKeys) by lia.
    destruct (decide _); [done|].
    rewrite take_app_length.
    by rewrite <- drop_drop, drop_app_length. }
  split; [|by intros Hlt; rewrite Hparse, decide_True].
  intros Hlen. rewrite Hparse, decide_False, bindKeys_Ok by lia.
  fold off. eexists. split; [done|].
  set (vr := drop off vals).
  assert (∀ j, vr !! j = vals !! (off + j)) as Hvr
    by (intros; apply lookup_drop).
  split; [|split].
  - intros i k Hi Hne Hlast Hnr.
    rewrite lookup_assign_other.
    2:{ rewrite fmap_reverse, elem_of_reverse. by intros ?%elem_of_zip_fst. }
    destruct (lookup_lt_is_Some_2 vals i) as [v Hv].
    { apply lookup_lt_Some in Hi. lia. }
    rewrite (zip_split_at _ _ _ _ _ Hi Hv), Hv.
    apply lookup_assign_last; [done|]. by intros ?%elem_of_zip_fst.
  - intros j k Hj Hne Hfirst.
    destruct (lookup_lt_is_Some_2 vr j) as [v Hv].
    { apply lookup_lt_Some in Hj. unfold vr. rewrite length_drop. lia. }
    rewrite <- Hvr, Hv, (zip_split_at _ _ _ _ _ Hj Hv).
    rewrite reverse_app, reverse_cons, <- app_assoc. simpl.
    apply lookup_assign_last; [done|].
    rewrite fmap_reverse, elem_of_reverse. by intros ?%elem_of_zip_fst.
  - intros k v Hkv.
    apply lookup_assign_Some in Hkv as [Hkv|[Hne Hin]].
    + apply lookup_assign_Some in Hkv as [Hkv|[Hne Hin]]; [done|].
      split; [done|]. left.
      apply elem_of_lookup_zip_with in Hin as (i & x & y & [= -> ->] & ? & ?).
      by exists i.
    + split; [done|]. right.
      apply elem_of_reverse, elem_of_lookup_zip_with in Hin
        as (j & x & y & [= -> ->] & ? & ?).
      exists j. by rewrite <- Hvr.
Qed.

Lemma parseEnvs_wildcard_witness :
  ("..." ∉ ["A"]) ∧ ("..." ∉ ["B"]) ∧
  ∃ envs, parseEnvs "1-2-3-4" ["-"] (["A"] ++ "..." :: ["B"]) = Ok envs ∧
          envs !! "A" = Some "1" ∧ envs !! "B" = Some "4".
Proof.
  assert ("..." ∉ ["A"]) as HA by by_compute.
  assert ("..." ∉ ["B"]) as HB by by_compute.
  split; [done|]. split; [done|].
  destruct (parseEnvs_wildcard "1-2-3-4" ["-"] ["A"] ["B"] HA HB) as [Hok _].
  destruct Hok as (envs & He & Hleft & Hright & _); [vm_compute; lia|].
  exists envs. split; [done|]. split.
  - apply (Hleft 0 "A"); by_compute.
  - apply (Hright 0 "B"); by_compute.
Defined.

(** * Properties of the destination resolver *)

Section UnknownVariable.
  Context (env : gmap string string).

  (** The references of a pattern that [env] does not define. *)
Definition absent (names : list string) : list string :=
    filter (λ name, env !! name = None) names.

  (** The variable [unknown] after the calls of the closure: every absent
      reference overwrites it. *)
Lemma runCalls_destMapping (names : list string) (unknown : string) :
    runCalls (destMapping env) names unknown
    = match last (absent names) with
      | Some name => "$" +:+ name
      | None => unknown
      end.
  Proof.
    revert unknown; induction names as [|name names IH]; intros unknown;
      [done|].
    change (runCalls (destMapping env) (name :: names) unknown)
      with (runCalls (destMapping env) names (destMapping env name unknown).2).
    rewrite IH. unfold absent. rewrite filter_cons. unfold destMapping.
    destruct (env !! name) as [v|] eqn:Hn.
    - by rewrite decide_False.
    - rewrite decide_True by done. simpl.
      rewrite (last_cons name).
      by destruct (last (filter _ names)).
  Qed.

Lemma destDirectory_unknown_last (src destPattern name : string) :
    filepath.IsAbs src = true →
    last (absent (os.references (strings.TrimSpace destPattern))) = Some name →
    destDirectory src destPattern env
    = Err (Errorf ("unknown environ variable in dest: $" +:+ name)).
  Proof.
    intros Habs Hlast. unfold destDirectory. rewrite Habs. simpl.
    pose proof (Expand_state (destMapping env) (strings.TrimSpace destPattern) "")
      as Hst.
    rewrite runCalls_destMapping, Hlast in Hst.
    destruct (os.Expand _ _ _) as [destDir unknown]. simpl in Hst. subst unknown.
    by rewrite decide_True.
  Qed.

End UnknownVariable.

(** C2, as it stands, fails: the closure overwrites [unknown] at every
    absent reference, and [destDirectory] reads it after the whole pattern is
    expanded.  With references [A] then [B], both absent, the error names
    [$B], not the first one, [$A]. *)
Lemma destDirectory_unknown_counterexample :
  os.references (strings.TrimSpace "/out/${A}/${B}") = ["A"; "B"] ∧
  destDirectory "/src/x" "/out/${A}/${B}" ∅
  = Err (Errorf "unknown environ variable in dest: $B").
Proof. vm_compute. repeat (split; [reflexivity|]). reflexivity. Qed.

(** C2, amended: for an absolute source, a pattern with a reference that
    [env] does not define makes [destDirectory] fail, with no destination,
    and the error names the last such reference of the pattern. *)
Theorem destDirectory_unknown (src destPattern : string)
    (env : gmap string string) (name0 : string) :
  filepath.IsAbs src = true →
  name0 ∈ os.references (strings.TrimSpace destPattern) →
  env !! name0 = None →
  ∃ name,
    last (absent env (os.references (strings.TrimSpace destPattern))) = Some name ∧
    destDirectory src destPattern env
    = Err (Errorf ("unknown environ variable in dest: $" +:+ name)).
Proof.
  intros Habs Hin Hnone.
  destruct (last (absent env (os.references (strings.TrimSpace destPattern))))
    as [name|] eqn:Hlast.
  - exists name. split; [done|]. by apply destDirectory_unknown_last.
  - apply last_None in Hlast.
    assert (name0 ∈ absent env (os.references (strings.TrimSpace destPattern)))
      as Hin' by (by apply list_elem_of_filter).
    rewrite Hlast in Hin'. by apply elem_of_nil in Hin'.
Qed.

Lemma destDirectory_unknown_witness :
  filepath.IsAbs "/src/x" = true ∧
  ("B" ∈ os.references (strings.TrimSpace " /out/$A/${B}/$C ")) ∧
  (∅ : gmap string string) !! "B" = None ∧
  ∃ name,
    last (absent ∅ (os.references (strings.TrimSpace " /out/$A/${B}/$C ")))
    = Some name ∧
    destDirectory "/src/x" " /out/$A/${B}/$C " ∅
    = Err (Errorf ("unknown environ variable in dest: $" +:+ name)).
Proof.
  assert ("B" ∈ os.references (strings.TrimSpace " /out/$A/${B}/$C ")) as Hin
    by by_compute.
  split; [done|]. split; [done|]. split; [done|].
  exact (destDirectory_unknown "/src/x" " /out/$A/${B}/$C " ∅ "B"
           eq_refl Hin eq_refl).
Defined.

(** * Properties of the analysis *)

(** The destination of a source as the analysis computes it: both tokenizer
    passes, the date stamp written over their result, then the resolver. *)
Definition resolveSrc (p : Program) (src : string) : res string :=
  env ← ParseEnvsFromSrc p src;
  destDirectory src (DestPattern p) (<["DATE" := Today p]> env).

(** The line that [Invalids] gets for a source whose resolution fails. *)
Definition invalidLine (p : Program) (src : string) : option string :=
  match resolveSrc p src with
  | Err err => Some (src +:+ " (" +:+ Error err +:+ ")")
  | _ => None
  end.

(** The group of destination [d] among the sources [srcs]: those that
    resolve to [d], in order; a map has no entry for an empty group. *)
Definition groupOf (p : Program) (d : string) (srcs : list string)
  : option (list string) :=
  let l := filter (λ src, resolveSrc p src = Ok d) srcs in
  if decide (l = []) then None else Some l.

(** What the second loop leaves alone. *)
Definition sameSetup (p p' : Program) : Prop :=
  PathSeps p' = PathSeps p ∧ PathKeys p' = PathKeys p ∧
  NameSeps p' = NameSeps p ∧ NameKeys p' = NameKeys p ∧
  DestPattern p' = DestPattern p ∧ Today p' = Today p ∧
  Srcs p' = Srcs p ∧ NotExists p' = NotExists p ∧ SrcIsDir p' = SrcIsDir p.

Lemma sameSetup_refl p : sameSetup p p.
Proof. by repeat split. Qed.

Lemma sameSetup_trans p1 p2 p3 : sameSetup p1 p2 → sameSetup p2 p3 → sameSetup p1 p3.
Proof. unfold sameSetup. intros ? ?. destruct_and!. repeat split; congruence. Qed.

Lemma resolveSrc_sameSetup p p' src :
  sameSetup p p' → resolveSrc p' src = resolveSrc p src.
Proof.
  intros (H1 & H2 & H3 & H4 & H5 & H6 & _).
  unfold resolveSrc, ParseEnvsFromSrc. by rewrite H1, H2, H3, H4, H5, H6.
Qed.

Section AnalyzeSrc.
  Context (fs : Node).

  (** One turn of the second loop: it fails and leaves groups and invalid
      lines as they are, or it adds [src] to the group of its destination,
      or it adds its invalid line. *)
Lemma analyzeSrc_spec (src : string) (p p' : Program) (r : res unit) :
    analyzeSrc fs src p = (p', r) →
    sameSetup p p' ∧
    match r with
    | Ok _ =>
      match resolveSrc p src with
      | Ok d =>
        DestDir p' = <[src := d]> (DestDir p) ∧
        DestDirSrcs p'
        = <[d := default [] (DestDirSrcs p !! d) ++ [src]]> (DestDirSrcs p) ∧
        Invalids p' = Invalids p
      | Err err =>
        (∃ env, ParseEnvsFromSrc p src = Ok env) ∧
        DestDir p' = DestDir p ∧ DestDirSrcs p' = DestDirSrcs p ∧
        Invalids p' = Invalids p ++ [src +:+ " (" +:+ Error err +:+ ")"]
      | Panic => False
      end
    | _ =>
      DestDirSrcs p' = DestDirSrcs p ∧ Invalids p' = Invalids p ∧
      (DestDir p' = DestDir p ∨
       ∃ d, resolveSrc p src = Ok d ∧ DestDir p' = <[src := d]> (DestDir p))
    end.
  Proof.
    unfold analyzeSrc, resolveSrc.
    destruct (ParseEnvsFromSrc p src) as [env|err|]; simpl.
    2,3: intros [= <- <-]; split; [apply sameSetup_refl | auto].
    destruct (destDirectory src (DestPattern p) _) as [d|err|]; simpl.
    2,3: intros [= <- <-]; split; [by repeat split | eauto 10].
    intros Hrun. repeat case_match; simplify_eq/=;
      (split; [by repeat split|]); eauto 10.
  Qed.

End AnalyzeSrc.

Section AnalyzeSrcs.
  Context (fs : Node).

  (** The state of the second loop after the sources [done]. *)
Record analyzed (done : list string) (p : Program) : Prop := {
    analyzed_groups : ∀ d, DestDirSrcs p !! d = groupOf p d done;
    analyzed_dests : ∀ src d,
      DestDir p !! src = Some d ↔ src ∈ done ∧ resolveSrc p src = Ok d;
    analyzed_invalids : Invalids p = omap (invalidLine p) done;
  }.

Lemma omap_ext_all {A B} (f g : A → option B) (l : list A) :
    (∀ x, f x = g x) → omap f l = omap g l.
  Proof.
    intros Hfg. apply list_omap_ext, Forall_Forall2_diag, Forall_forall.
    by intros x _.
  Qed.

Lemma groupOf_sameSetup p p' d srcs :
    sameSetup p p' → groupOf p' d srcs = groupOf p d srcs.
  Proof.
    intros Hs. unfold groupOf.
    replace (filter (λ src, resolveSrc p' src = Ok d) srcs)
      with (filter (λ src, resolveSrc p src = Ok d) srcs); [done|].
    apply list_filter_iff. intros src. by rewrite (resolveSrc_sameSetup p p').
  Qed.

Lemma invalidLine_sameSetup p p' src :
    sameSetup p p' → invalidLine p' src = invalidLine p src.
  Proof. intros Hs. unfold invalidLine. by rewrite (resolveSrc_sameSetup p p'). Qed.

Lemma groupOf_snoc_same p d done src :
    resolveSrc p src = Ok d →
    groupOf p d (done ++ [src])
    = Some (default [] (groupOf p d done) ++ [src]).
  Proof.
    intros Hr. unfold groupOf. rewrite filter_app, filter_cons_True by done.
    rewrite filter_nil.
    rewrite decide_False by (by intros [_ ?]%app_eq_nil).
    by destruct (decide (filter _ done = [])) as [->|].
  Qed.

Lemma groupOf_snoc_other p d done src :
    resolveSrc p src ≠ Ok d → groupOf p d (done ++ [src]) = groupOf p d done.
  Proof.
    intros Hr. unfold groupOf.
    by rewrite filter_app, filter_cons_False, filter_nil, app_nil_r by done.
  Qed.

Lemma analyzeSrc_analyzed (src : string) (done : list string) (p p' : Program) :
    analyzed done p → analyzeSrc fs src p = (p', Ok tt) →
    analyzed (done ++ [src]) p'.
  Proof.
    intros [Hg Hd Hi] Hrun.
    apply analyzeSrc_spec in Hrun as [Hs Hrun].
    assert (∀ s, resolveSrc p' s = resolveSrc p s) as Hres
      by (intros; by apply resolveSrc_sameSetup).
    destruct (resolveSrc p src) as [d|err|] eqn:Hr; [| |done].
    - destruct Hrun as (HD & HG & HI). split.
      + intros d'. rewrite (groupOf_sameSetup p p') by done. rewrite HG.
        destruct (decide (d = d')) as [<-|Hne].
        * by rewrite lookup_insert_eq, groupOf_snoc_same, Hg.
        * rewrite lookup_insert_ne, groupOf_snoc_other, Hg by congruence. done.
      + intros s d'. rewrite HD, Hres, elem_of_app, list_elem_of_singleton.
        destruct (decide (src = s)) as [<-|Hne].
        * rewrite lookup_insert_eq, Hr. naive_solver.
        * rewrite lookup_insert_ne, Hd by done. naive_solver.
      + rewrite HI, Hi, omap_app. simpl.
        unfold invalidLine at 3. rewrite Hres, Hr, app_nil_r.
        apply omap_ext_all. intros s.
        by rewrite (invalidLine_sameSetup p p').
    - destruct Hrun as (_ & HD & HG & HI). split.
      + intros d'. rewrite (groupOf_sameSetup p p') by done. rewrite HG.
        rewrite groupOf_snoc_other, Hg by congruence. done.
      + intros s d'. rewrite HD, Hres, Hd, elem_of_app, list_elem_of_singleton.
        naive_solver congruence.
      + rewrite HI, Hi, omap_app. simpl.
        unfold invalidLine at 3. rewrite Hres, Hr.
        f_equal. apply omap_ext_all. intros s.
        by rewrite (invalidLine_sameSetup p p').
  Qed.

Lemma analyzeSrcs_analyzed (srcs done : list string) (p p' : Program) :
    analyzed done p → analyzeSrcs fs srcs p = (p', Ok tt) →
    analyzed (done ++ srcs) p' ∧ sameSetup p p'.
  Proof.
    revert done p; induction srcs as [|src srcs IH]; intros done p Hinv; simpl.
    - intros [= <-]. rewrite app_nil_r. split; [done | apply sameSetup_refl].
    - destruct (analyzeSrc fs src p) as [p1 r1] eqn:Hstep.
      destruct r1 as [[]| |]; [|done..]. intros Hrest.
      pose proof (analyzeSrc_spec fs _ _ _ _ Hstep) as [Hs _].
      apply (analyzeSrc_analyzed _ done) in Hstep; [|done].
      apply (IH (done ++ [src])) in Hrest as [Hinv' Hs']; [|done].
      rewrite <- app_assoc in Hinv'. split; [done|].
      by eapply sameSetup_trans.
  Qed.

  (** Also when the loop stops early: every recorded destination is the
      resolved one. *)
Lemma analyzeSrcs_dests (srcs : list string) (p p' : Program) (r : res unit) :
    (∀ src d, DestDir p !! src = Some d → resolveSrc p src = Ok d) →
    analyzeSrcs fs srcs p = (p', r) →
    (∀ src d, DestDir p' !! src = Some d → resolveSrc p' src = Ok d) ∧
    sameSetup p p'.
  Proof.
    revert p; induction srcs as [|src srcs IH]; intros p Hinv; simpl.
    - intros [= <- <-]. split; [done | apply sameSetup_refl].
    - destruct (analyzeSrc fs src p) as [p1 r1] eqn:Hstep.
      pose proof (analyzeSrc_spec fs _ _ _ _ Hstep) as [Hs Hspec].
      assert (∀ s d, DestDir p1 !! s = Some d → resolveSrc p1 s = Ok d) as Hinv1.
      { intros s d. rewrite (resolveSrc_sameSetup p p1) by done.
        assert (DestDir p1 = DestDir p ∨
                ∃ d, resolveSrc p src = Ok d ∧ DestDir p1 = <[src := d]> (DestDir p))
          as [->|(d0 & Hr & ->)]; [|by apply Hinv|].
        { destruct r1 as [[]|err|]; [|naive_solver..].
          destruct (resolveSrc p src) as [d0|err|]; naive_solver. }
        destruct (decide (src = s)) as [<-|Hne].
        - rewrite lookup_insert_eq. by intros [= <-].
        - rewrite lookup_insert_ne by done. apply Hinv. }
      destruct r1 as [[]|err|].
      + intros Hrest. apply IH in Hrest as [? ?]; [|done].
        split; [done | by eapply sameSetup_trans].
      + by intros [= <- <-].
      + by intros [= <- <-].
  Qed.

End AnalyzeSrcs.

Section AnalyzeInput.
  Context (fs : Node).

  (** Whether [os.Stat] finds the path. *)
Definition found (path : string) : bool :=
    match os.Stat fs path with
    | Ok _ => true
    | _ => false
    end.

  (** What the first loop leaves alone. *)
Definition sameGroups (p p' : Program) : Prop :=
    PathSeps p' = PathSeps p ∧ PathKeys p' = PathKeys p ∧
    NameSeps p' = NameSeps p ∧ NameKeys p' = NameKeys p ∧
    DestPattern p' = DestPattern p ∧ Today p' = Today p ∧
    DestDir p' = DestDir p ∧ DestDirSrcs p' = DestDirSrcs p ∧
    Invalids p' = Invalids p.

Lemma statPaths_spec (paths : list string) (p p' : Program) (r : res unit) :
    statPaths fs paths p = (p', r) →
    sameGroups p p' ∧
    (r = Ok tt →
     Srcs p' = Srcs p ++ filter (λ s, found s = true) (strings.TrimSpace <$> paths) ∧
     NotExists p'
     = NotExists p ++ filter (λ s, found s ≠ true) (strings.TrimSpace <$> paths)).
  Proof.
    revert p; induction paths as [|src paths IH]; intros p; simpl.
    { intros [= <- <-]. rewrite !app_nil_r. by repeat split. }
    rewrite !filter_cons.
    assert (found (strings.TrimSpace src)
            = match os.Stat fs (strings.TrimSpace src) with
              | Ok _ => true
              | _ => false
              end) as Hf by done.
    destruct (os.Stat fs (strings.TrimSpace src)) as [fi|err|] eqn:Hstat;
      rewrite Hf.
    - intros [Hs Hok]%IH. split.
      { destruct Hs as (?&?&?&?&?&?&?&?&?). by repeat split. }
      intros Hr. destruct (Hok Hr) as [-> ->]. simpl.
      by rewrite <- app_assoc.
    - destruct (IsNotExist err); simpl.
      + intros [Hs Hok]%IH. split.
        { destruct Hs as (?&?&?&?&?&?&?&?&?). by repeat split. }
        intros Hr. destruct (Hok Hr) as [-> ->]. simpl.
        by rewrite <- app_assoc.
      + intros [= <- <-]. split; [by repeat split | done].
    - intros [= <- <-]. split; [by repeat split | done].
  Qed.

  (** A successful analysis: the sources are the candidate paths that
      exist, sorted, and the second loop has run over all of them. *)
Lemma AnalyzeInput_analyzed (now : string) (p p' : Program) (text : string) :
    AnalyzeInput fs now p text = (p', Ok tt) →
    Srcs p'
    = sortStrings (filter (λ s, found s = true)
                     (strings.TrimSpace <$> extractPaths text)) ∧
    NotExists p'
    = filter (λ s, found s ≠ true) (strings.TrimSpace <$> extractPaths text) ∧
    analyzed (Srcs p') p'.
  Proof.
    unfold AnalyzeInput.
    destruct (statPaths fs _ _) as [p1 r1] eqn:Hstat.
    apply statPaths_spec in Hstat as [Hs Hok].
    destruct r1 as [[]|err|]; [|done..]. destruct (Hok eq_refl) as [HS HN].
    simpl in HS, HN. intros Hrun.
    apply (analyzeSrcs_analyzed fs _ []) in Hrun as [Hinv Hs'].
    - destruct Hs' as (_&_&_&_&_&_&HS'&HN'&_). simpl in *.
      rewrite HS', HN', HN. rewrite HS in Hinv |- *. done.
    - destruct Hs as (_&_&_&_&_&_&HD&HG&HI). simpl in *.
      split; simpl.
      + intros d. by rewrite HG, lookup_empty.
      + intros src d. rewrite HD, lookup_empty, elem_of_nil. naive_solver.
      + by rewrite HI.
  Qed.

  (** Also for an analysis that fails: the destinations recorded so far. *)
Lemma AnalyzeInput_dests (now : string) (p p' : Program) (text : string)
      (r : res unit) :
    AnalyzeInput fs now p text = (p', r) →
    Today p' = now ∧
    ∀ src d, DestDir p' !! src = Some d → resolveSrc p' src = Ok d.
  Proof.
    unfold AnalyzeInput.
    destruct (statPaths fs _ _) as [p1 r1] eqn:Hstat.
    apply statPaths_spec in Hstat as [Hs _].
    destruct Hs as (_&_&_&_&_&HT&HD&_&_). simpl in *.
    assert (analyzeSrcs fs (sortStrings (Srcs p1)) (setSrcs (sortStrings (Srcs p1)) p1)
            = (p', r) → Today p' = now ∧
              ∀ src d, DestDir p' !! src = Some d → resolveSrc p' src = Ok d)
      as Hloop.
    { intros Hrun. apply analyzeSrcs_dests in Hrun as [Hdest Hs'].
      - split; [|done]. destruct Hs' as (_&_&_&_&_&HT'&_). by rewrite HT'.
      - intros src d. simpl. by rewrite HD, lookup_empty. }
    destruct r1 as [[]|err|]; [done|..]; intros [= <- <-];
      (split; [done|]); intros src d; by rewrite HD, lookup_empty.
  Qed.

End AnalyzeInput.

(** ** A small batch

    Three files in [/in]; the name of a file is cut at ["_"] into [SHOW] and
    [DATE], and the destination pattern uses both. *)

Definition nl : string := String "010"%char "".

Definition exampleFS : Node :=
  Dir true [("in", Dir true [("bad", File "b"); ("x_y", File "x"); ("z_w", File "z")])].

Definition exampleProgram : Program :=
  mkProgram "" ["/"] ["..."] ["_"] ["SHOW"; "DATE"] "/out/${SHOW}/${DATE}" "link"
    false false [] [] [] ∅ ∅ ∅ ∅ ∅ "".

Definition exampleText : string :=
  "/in/z_w" +:+ nl +:+ "file:///in/x_y" +:+ nl +:+ "/in/none" +:+ nl +:+ "hello".

Definition exampleTextBad : string :=
  "/in/z_w" +:+ nl +:+ "/in/bad" +:+ nl +:+ "/in/x_y" +:+ nl +:+ "/in/none".

Example AnalyzeInput_ex :
  let p' := (AnalyzeInput exampleFS "260101" exampleProgram exampleText).1 in
  (AnalyzeInput exampleFS "260101" exampleProgram exampleText).2 = Ok tt ∧
  Srcs p' = ["/in/x_y"; "/in/z_w"] ∧
  NotExists p' = ["/in/none"] ∧
  Invalids p' = [] ∧
  DestDirSrcs p' !! "/out/x/260101" = Some ["/in/x_y"] ∧
  DestDirSrcs p' !! "/out/z/260101" = Some ["/in/z_w"] ∧
  size (DestDirSrcs p') = 2.
Proof. vm_compute. repeat (split; [reflexivity|]). reflexivity. Qed.

(** C1 fails on the code: [AnalyzeInput] returns the error of
    [ParseEnvsFromSrc] at once.  In the batch below the name [bad] has one
    fragment for two keys: the analysis ends with that error, [Invalids]
    stays empty, and the paths [/in/x_y] and [/in/z_w], which resolve, are in
    no group. *)
Lemma AnalyzeInput_tokenization_failure :
  let p' := (AnalyzeInput exampleFS "260101" exampleProgram exampleTextBad).1 in
  (AnalyzeInput exampleFS "260101" exampleProgram exampleTextBad).2
  = Err (Errorf "not enough values for keys: bad") ∧
  Srcs p' = ["/in/bad"; "/in/x_y"; "/in/z_w"] ∧
  Invalids p' = [] ∧
  size (DestDirSrcs p') = 0 ∧
  resolveSrc p' "/in/x_y" = Ok "/out/x/260101".
Proof. vm_compute. repeat (split; [reflexivity|]). reflexivity. Qed.

(** C6: after a successful analysis, every existing source whose destination
    resolved is in the group of that destination; the members of a group are
    existing sources that resolved to its key, so a source is in one group
    only; a group is not empty and lists its sources in the order of the
    sorted [Srcs]; a member of a group is neither a path that was not found
    nor an invalid one. *)
Theorem AnalyzeInput_groups (fs : Node) (now : string) (p p' : Program)
    (text : string) :
  AnalyzeInput fs now p text = (p', Ok tt) →
  (∀ src d, src ∈ Srcs p' → resolveSrc p' src = Ok d →
     ∃ srcs, DestDirSrcs p' !! d = Some srcs ∧ src ∈ srcs) ∧
  (∀ d srcs src, DestDirSrcs p' !! d = Some srcs → src ∈ srcs →
     src ∈ Srcs p' ∧ resolveSrc p' src = Ok d ∧ found fs src = true) ∧
  (∀ src d1 d2 srcs1 srcs2,
     DestDirSrcs p' !! d1 = Some srcs1 → src ∈ srcs1 →
     DestDirSrcs p' !! d2 = Some srcs2 → src ∈ srcs2 → d1 = d2) ∧
  (∀ d srcs, DestDirSrcs p' !! d = Some srcs →
     srcs ≠ [] ∧ srcs = filter (λ src, resolveSrc p' src = Ok d) (Srcs p')) ∧
  (∀ d srcs src, DestDirSrcs p' !! d = Some srcs → src ∈ srcs →
     src ∉ NotExists p' ∧ invalidLine p' src = None) ∧
  Invalids p' = omap (invalidLine p') (Srcs p').
Proof.
  intros (HS & HN & [Hg Hd Hi])%AnalyzeInput_analyzed.
  assert (∀ d srcs, DestDirSrcs p' !! d = Some srcs →
            srcs ≠ [] ∧ srcs = filter (λ src, resolveSrc p' src = Ok d) (Srcs p'))
    as Hgroup.
  { intros d srcs. rewrite Hg. unfold groupOf.
    destruct (decide (filter _ (Srcs p') = [])); [done|]. by intros [= <-]. }
  assert (∀ d srcs src, DestDirSrcs p' !! d = Some srcs → src ∈ srcs →
            src ∈ Srcs p' ∧ resolveSrc p' src = Ok d) as Hmem.
  { intros d srcs src [_ ->]%Hgroup. by intros [? ?]%list_elem_of_filter. }
  assert (∀ src, src ∈ Srcs p' → found fs src = true) as Hfound.
  { intros src. rewrite HS. unfold sortStrings.
    rewrite merge_sort_Permutation. by intros [? _]%list_elem_of_filter. }
  split; [|split; [|split; [|split; [|split]]]]; [| | |done| |done].
  - intros src d Hin Hr. specialize (Hg d). unfold groupOf in Hg.
    assert (src ∈ filter (λ src, resolveSrc p' src = Ok d) (Srcs p')) as Hin'
      by (by apply list_elem_of_filter).
    destruct (decide (filter _ (Srcs p') = [])) as [Hnil|_].
    + rewrite Hnil in Hin'. by apply elem_of_nil in Hin'.
    + eauto.
  - intros d srcs src Hl Hin. destruct (Hmem _ _ _ Hl Hin) as [? ?]. auto.
  - intros src d1 d2 srcs1 srcs2 Hl1 Hin1 Hl2 Hin2.
    destruct (Hmem _ _ _ Hl1 Hin1) as [_ Hr1].
    destruct (Hmem _ _ _ Hl2 Hin2) as [_ Hr2]. congruence.
  - intros d srcs src Hl Hin. destruct (Hmem _ _ _ Hl Hin) as [Hsrc Hr].
    split.
    + rewrite HN. intros [Hnf _]%list_elem_of_filter.
      by apply Hnf, Hfound.
    + unfold invalidLine. by rewrite Hr.
Qed.

Lemma AnalyzeInput_groups_witness :
  AnalyzeInput exampleFS "260101" exampleProgram exampleText
  = ((AnalyzeInput exampleFS "260101" exampleProgram exampleText).1, Ok tt) ∧
  ∃ srcs,
    DestDirSrcs (AnalyzeInput exampleFS "260101" exampleProgram exampleText).1
      !! "/out/x/260101" = Some srcs ∧
    "/in/x_y" ∈ srcs.
Proof.
  assert (AnalyzeInput exampleFS "260101" exampleProgram exampleText
          = ((AnalyzeInput exampleFS "260101" exampleProgram exampleText).1, Ok tt))
    as Hrun by (vm_compute; reflexivity).
  split; [exact Hrun|].
  destruct (AnalyzeInput_groups _ _ _ _ _ Hrun) as [Hin _].
  apply Hin; [by_compute | vm_compute; reflexivity].
Defined.

(** C10: whatever the analysis returns, its date stamp is [now], and every
    destination it recorded was resolved from the map of the two tokenizer
    passes with [DATE] set to that stamp afterwards: there [DATE] is the
    stamp, whatever the passes bound it to. *)
Theorem AnalyzeInput_date (fs : Node) (now : string) (p p' : Program)
    (text : string) (r : res unit) :
  AnalyzeInput fs now p text = (p', r) →
  Today p' = now ∧
  ∀ src d, DestDir p' !! src = Some d →
    ∃ env, ParseEnvsFromSrc p' src = Ok env ∧
           <["DATE" := now]> env !! "DATE" = Some now ∧
           destDirectory src (DestPattern p') (<["DATE" := now]> env) = Ok d.
Proof.
  intros [HT Hd]%AnalyzeInput_dests. split; [done|].
  intros src d Hr%Hd. unfold resolveSrc in Hr. rewrite HT in Hr.
  destruct (ParseEnvsFromSrc p' src) as [env|err|]; [|done..].
  exists env. split; [done|]. split; [apply lookup_insert_eq | done].
Qed.

Lemma AnalyzeInput_date_witness :
  AnalyzeInput exampleFS "260101" exampleProgram exampleText
  = ((AnalyzeInput exampleFS "260101" exampleProgram exampleText).1, Ok tt) ∧
  parseEnvs "x_y" ["_"] ["SHOW"; "DATE"]
  = Ok (<["SHOW" := "x"]> (<["DATE" := "y"]> ∅)) ∧
  DestDir (AnalyzeInput exampleFS "260101" exampleProgram exampleText).1
    !! "/in/x_y" = Some "/out/x/260101" ∧
  Today (AnalyzeInput exampleFS "260101" exampleProgram exampleText).1 = "260101".
Proof.
  assert (AnalyzeInput exampleFS "260101" exampleProgram exampleText
          = ((AnalyzeInput exampleFS "260101" exampleProgram exampleText).1, Ok tt))
    as Hrun by (vm_compute; reflexivity).
  split; [exact Hrun|].
  split; [vm_compute; reflexivity|].
  split; [vm_compute; reflexivity|].
  exact (proj1 (AnalyzeInput_date _ _ _ _ _ _ Hrun)).
Defined.

(** * Properties of the copy *)

Section CopyKeeps.
Import fsfacts.
Context (p : Program).

Lemma copyFile_keeps (fs fs' : Node) (s d : string) (errno : Errno)
    (err : option error) :
  os.node fs d = Err errno → copyFile fs s d = (fs', err) → keeps fs fs'.
Proof.
  intros Habsent. unfold copyFile.
  destruct (os.node fs s) as [ns| |]; try (intros [= <- <-]; apply keeps_refl).
  destruct (os.Create fs d) as [fs1 [e1|]] eqn:Hcreate.
  all: apply Create_keeps in Hcreate as [Hk Hnew];
    [|by intros c; rewrite Habsent].
  { by intros [= <- <-]. }
  destruct (Hnew eq_refl) as [Hd Hfile].
  destruct (os.node fs1 s) as [[content|r entries]| |]; intros [= <- <-];
    try done.
  intros elems c Hf. apply write_keeps; [eauto| |by apply Hk].
  intros ->. unfold os.node in Habsent. rewrite decide_False in Habsent by done.
  congruence.
Qed.

Lemma copyFunc_keeps (fs fs' : Node) (s d : string) (errno : Errno)
    (err : option error) :
  os.node fs d = Err errno → copyFunc p fs s d = (fs', err) → keeps fs fs'.
Proof.
  unfold copyFunc. destruct (decide (Method p = "copy")).
  - apply copyFile_keeps.
  - intros _. apply Link_keeps.
Qed.

Lemma copyOne_keeps (destDir : string) (fs fs' : Node) (s sub : string)
    (r : res unit) :
  copyOne p destDir fs s sub = (fs', r) → keeps fs fs'.
Proof.
  unfold copyOne.
  set (d := filepath.Join destDir sub). set (dDir := filepath.Dir d).
  assert (∃ fs1 r1,
    match os.Stat fs dDir with
    | Ok _ => (fs, Ok tt)
    | Err err =>
      if negb (IsNotExist err)
      then (fs, Err (Errorf (Error err +:+ ": " +:+ dDir)))
      else match os.MkdirAll fs dDir with
           | (fs', Some err) =>
             (fs', Err (Errorf ("make dirs: " +:+ Error err +:+ ": " +:+ dDir)))
           | (fs', None) => (fs', Ok tt)
           end
    | Panic => (fs, Panic)
    end = (fs1, r1) ∧ keeps fs fs1) as (fs1 & r1 & -> & Hk1).
  { destruct (os.Stat fs dDir) as [?|err|];
      [eexists _, _; split; [done | apply keeps_refl]|..
      |eexists _, _; split; [done | apply keeps_refl]].
    destruct (negb (IsNotExist err));
      [eexists _, _; split; [done | apply keeps_refl]|].
    destruct (os.MkdirAll fs dDir) as [fs1 [e|]] eqn:Hm;
      eexists _, _; (split; [done|]); by eapply MkdirAll_keeps. }
  destruct r1 as [[]|e|]; try (by intros [= <- <-]).
  unfold os.Lstat. destruct (os.node fs1 d) as [n|errno|] eqn:Hn;
    try (by intros [= <- <-]).
  destruct (negb _); [by intros [= <- <-]|].
  destruct (copyFunc p fs1 s d) as [fs2 [e|]] eqn:Hc; intros [= <- <-];
    (eapply keeps_trans; [done|]); by eapply copyFunc_keeps.
Qed.

Lemma copyPairs_keeps (destDir : string) (pairs : list (string * string))
    (fs fs' : Node) (r : res unit) :
  copyPairs p destDir pairs fs = (fs', r) → keeps fs fs'.
Proof.
  revert fs; induction pairs as [|[s sub] pairs IH]; intros fs; simpl.
  { intros [= <- <-]. apply keeps_refl. }
  destruct (copyOne p destDir fs s sub) as [fs1 r1] eqn:Hone.
  apply copyOne_keeps in Hone.
  destruct r1 as [[]|e|]; try (by intros [= <- <-]).
  intros ?%IH. by eapply keeps_trans.
Qed.

Lemma copyGroups_keeps range (groups : list (string * list string))
    (fs fs' : Node) (r : res unit) :
  copyGroups range p groups fs = (fs', r) → keeps fs fs'.
Proof.
  revert fs; induction groups as [|[destDir srcs] groups IH]; intros fs; simpl.
  { intros [= <- <-]. apply keeps_refl. }
  destruct (subPaths p fs srcs ∅) as [subPath|e|];
    try (intros [= <- <-]; apply keeps_refl).
  destruct (copyPairs p destDir _ fs) as [fs1 r1] eqn:Hpairs.
  apply copyPairs_keeps in Hpairs.
  destruct r1 as [[]|e|]; try (by intros [= <- <-]).
  intros ?%IH. by eapply keeps_trans.
Qed.

Lemma Copy_keeps range (fs : Node) : keeps fs (Copy range p fs).1.
Proof.
  unfold Copy. destruct (negb (Analyzed p)); [apply keeps_refl|].
  destruct (copyGroups range p _ fs) as [fs' r] eqn:Hrun.
  by eapply copyGroups_keeps.
Qed.

(** What is found at a joined path has its directory found too. *)
Lemma node_Dir_Join (fs : Node) (a b : string) (n : Node) :
  os.node fs (filepath.Join a b) = Ok n →
  ∃ n', os.node fs (filepath.Dir (filepath.Join a b)) = Ok n'.
Proof.
  assert (filepath.Join a b = "" ∨ ∃ y, filepath.Join a b = filepath.Clean y)
    as [->|[y ->]].
  { unfold filepath.Join. repeat case_decide; eauto. }
  { done. }
  unfold os.node. rewrite decide_False by apply paths.Clean_nonempty.
  rewrite decide_False by apply paths.Clean_nonempty.
  intros Hl. eapply lookupNode_prefix; [done|].
  apply paths.pathElems_Dir_Clean.
Qed.

Lemma copyOne_skip (destDir : string) (fs : Node) (s sub : string) (b : bool) :
  os.Lstat fs (filepath.Join destDir sub) = Ok b →
  copyOne p destDir fs s sub = (fs, Ok tt).
Proof.
  intros Hl. unfold copyOne.
  assert (∃ n, os.node fs (filepath.Join destDir sub) = Ok n) as [n Hn].
  { unfold os.Lstat in Hl. destruct (os.node fs _); [eauto | done..]. }
  destruct (node_Dir_Join _ _ _ _ Hn) as [n' Hn'].
  unfold os.Stat. rewrite Hn'. by rewrite Hl.
Qed.

End CopyKeeps.

(** C7: a destination path at which something exists is skipped, without
    error and with the file system left as it is; no run of [Copy] changes
    the content of a file that exists, whatever the order in which the maps
    are visited; so a second run keeps every file of the first. *)
Theorem Copy_never_overwrites (range range' : ∀ V : Type, gmap string V → list (string * V))
    (p : Program) (fs : Node) :
  (∀ destDir s sub b,
     os.Lstat fs (filepath.Join destDir sub) = Ok b →
     copyOne p destDir fs s sub = (fs, Ok tt)) ∧
  (∀ path content,
     os.node fs path = Ok (File content) →
     os.node (Copy range p fs).1 path = Ok (File content)) ∧
  (∀ path content,
     os.node (Copy range p fs).1 path = Ok (File content) →
     os.node (Copy range' p (Copy range p fs).1).1 path = Ok (File content)).
Proof.
  split; [|split].
  - intros destDir s sub b. apply copyOne_skip.
  - apply fsfacts.keeps_keepsFiles, Copy_keeps.
  - apply fsfacts.keeps_keepsFiles, Copy_keeps.
Qed.

(** ** A directory source

    [/in/d] holds a file, a directory [locked] and a directory [sub]; in
    [lockedFS] the directory [locked] cannot be listed. *)

Definition treeFS (readable : bool) : Node :=
  Dir true
    [("in", Dir true
       [("d", Dir true
          [("a.txt", File "A");
           ("locked", Dir readable [("l.txt", File "L")]);
           ("sub", Dir true [("z.txt", File "Z")])])])].

Definition readableFS : Node := treeFS true.
Definition lockedFS : Node := treeFS false.

Definition treeProgram : Program :=
  mkProgram "" ["/"] ["..."] ["_"] ["NAME"] "/out" "link"
    false false [] [] [] ∅ ∅ ∅ ∅ ∅ "".

(** The state after the analysis of [text] on [readableFS], once the caller
    has set [Analyzed]. *)
Definition analyzedTree (text : string) : Program :=
  setAnalyzed true (AnalyzeInput readableFS "260101" treeProgram text).1.

(** C3 fails on the code: [Copy] does not look at what [filepath.WalkDir]
    returns.  The walk of [/in/d] on [lockedFS] stops with the error of
    listing [locked]; [Copy] goes on with the one file found before it and
    returns no error, and the file in [sub] is not materialized.  The
    analysis, on the same file system, returns the error of its walk. *)
Lemma Copy_ignores_walk_error :
  (AnalyzeInput readableFS "260101" treeProgram "/in/d").2 = Ok tt ∧
  (filepath.WalkDir lockedFS "/in/d" (collectFile "/in") ∅).2
  = WalkErr (PathError "open" "/in/d/locked" EACCES) ∧
  (Copy rangeList (analyzedTree "/in/d") lockedFS).2 = Ok tt ∧
  os.node (Copy rangeList (analyzedTree "/in/d") lockedFS).1 "/out/d/a.txt"
  = Ok (File "A") ∧
  os.node (Copy rangeList (analyzedTree "/in/d") lockedFS).1 "/out/d/sub/z.txt"
  = Err ENOENT ∧
  (AnalyzeInput lockedFS "260101" treeProgram "/in/d").2
  = Err (PathError "open" "locked" EACCES).
Proof. vm_compute. repeat (split; [reflexivity|]). reflexivity. Qed.

(** C8 fails on the code: [Copy] takes [filepath.Dir(src)] for the parent
    of a directory source.  For the source [/in/d/], pasted with a slash at
    its end, that is [/in/d], the directory itself: the sub-path of
    [/in/d/a.txt] is [/a.txt] and that of [/in/d/sub/z.txt] is [/sub/z.txt],
    without the base name [d], and the files are materialized as
    [/out/a.txt] and [/out/sub/z.txt], not below [/out/d].  The same
    directory pasted as [/in/d] keeps its name: [/out/d/a.txt]. *)
Lemma Copy_drops_base_name :
  (AnalyzeInput readableFS "260101" treeProgram "/in/d/").2 = Ok tt ∧
  DestDirSrcs (analyzedTree "/in/d/") !! "/out" = Some ["/in/d/"] ∧
  flag (SrcIsDir (analyzedTree "/in/d/")) "/in/d/" = true ∧
  filepath.Base "/in/d/" = "d" ∧
  filepath.Dir "/in/d/" = "/in/d" ∧
  (subPaths (analyzedTree "/in/d/") readableFS ["/in/d/"] ∅
     ≫= λ m, Ok (m !! "/in/d/a.txt", m !! "/in/d/sub/z.txt"))
  = Ok (Some "/a.txt", Some "/sub/z.txt") ∧
  (Copy rangeList (analyzedTree "/in/d/") readableFS).2 = Ok tt ∧
  os.node (Copy rangeList (analyzedTree "/in/d/") readableFS).1 "/out/a.txt"
  = Ok (File "A") ∧
  os.node (Copy rangeList (analyzedTree "/in/d/") readableFS).1 "/out/sub/z.txt"
  = Ok (File "Z") ∧
  os.node (Copy rangeList (analyzedTree "/in/d/") readableFS).1 "/out/d"
  = Err ENOENT ∧
  os.node (Copy rangeList (analyzedTree "/in/d") readableFS).1 "/out/d/a.txt"
  = Ok (File "A").
Proof. vm_compute. repeat (split; [reflexivity|]). reflexivity. Qed.

(** ** The files below a directory source *)

(** Induction on a tree, with the hypothesis for every entry. *)
Lemma Node_ind_entries (P : Node → Prop)
    (HFile : ∀ content, P (File content))
    (HDir : ∀ readable entries,
       Forall (λ e : string * Node, P e.2) entries → P (Dir readable entries))
    (n : Node) : P n.
Proof.
  revert n. fix IH 1. intros [content|readable entries]; [apply HFile|].
  apply HDir. induction entries as [|e entries IHentries]; constructor.
  - apply IH.
  - apply IHentries.
Qed.

(** A tree that a walk lists in full: every directory is readable, and the
    entries of a directory have names, each once. *)
#[warnings="-register-all"]
Inductive wfTree : Node → Prop :=
  | wfFile content : wfTree (File content)
  | wfDir entries :
      Forall paths.isName entries.*1 → NoDup entries.*1 →
      Forall (λ e : string * Node, wfTree e.2) entries →
      wfTree (Dir true entries).

(** The files of a tree, by the names that lead to them, in the order of
    the walk. *)
Fixpoint files (n : Node) : list (list string) :=
  match n with
  | File _ => [[]]
  | Dir _ entries =>
    (fix filesIn (entries : list (string * Node)) : list (list string) :=
       match entries with
       | [] => []
       | (name, child) :: entries' =>
         ((name ::.) <$> files child) ++ filesIn entries'
       end) entries
  end.

Fixpoint filesIn (entries : list (string * Node)) : list (list string) :=
  match entries with
  | [] => []
  | (name, child) :: entries' => ((name ::.) <$> files child) ++ filesIn entries'
  end.

Lemma files_Dir (readable : bool) (entries : list (string * Node)) :
  files (Dir readable entries) = filesIn entries.
Proof.
  simpl. induction entries as [|[name child] entries IH]; [done|].
  simpl. by rewrite IH.
Qed.

Lemma entry_Some_elem_of (name : string) (child : Node)
    (entries : list (string * Node)) :
  entry name entries = Some child → (name, child) ∈ entries.
Proof.
  induction entries as [|[n x] entries IH]; simpl; [done|].
  destruct (decide (n = name)) as [->|]; [intros [= ->]; by left|].
  intros ?%IH. by right.
Qed.

Lemma elem_of_entry (name : string) (child : Node)
    (entries : list (string * Node)) :
  NoDup entries.*1 → (name, child) ∈ entries → entry name entries = Some child.
Proof.
  induction entries as [|[n x] entries IH]; simpl; [by intros _ ?%elem_of_nil|].
  intros [Hn Hnd]%NoDup_cons [[= -> ->]|Hin]%elem_of_cons.
  - by rewrite decide_True.
  - rewrite decide_False; [by apply IH|].
    intros ->. apply Hn. apply list_elem_of_fmap. by exists (name, child).
Qed.

Lemma elem_of_filesIn (entries : list (string * Node)) (rel : list string) :
  rel ∈ filesIn entries ↔
  ∃ name child rest,
    rel = name :: rest ∧ (name, child) ∈ entries ∧ rest ∈ files child.
Proof.
  induction entries as [|[n x] entries IH]; simpl.
  - split; [by intros ?%elem_of_nil|]. by intros (?&?&?&_&?%elem_of_nil&_).
  - rewrite elem_of_app, IH, list_elem_of_fmap. split.
    + intros [(rest & -> & Hrest)|(name & child & rest & -> & Hin & Hrest)].
      * exists n, x, rest. split; [done|]. split; [by left | done].
      * exists name, child, rest. split; [done|]. split; [by right | done].
    + intros (name & child & rest & -> & [[= -> ->]|Hin]%elem_of_cons & Hrest).
      * left. by exists rest.
      * right. by exists name, child, rest.
Qed.

(** The files of a well-formed tree are what [lookupNode] finds to be
    files. *)
Lemma elem_of_files (n : Node) (rel : list string) :
  wfTree n → rel ∈ files n ↔ ∃ content, lookupNode rel n = Ok (File content).
Proof.
  revert rel. induction n as [content|readable entries IH] using Node_ind_entries;
    intros rel Hwf.
  - simpl. rewrite list_elem_of_singleton. split.
    + intros ->. by exists content.
    + intros [c Hc]. by destruct rel.
  - inversion Hwf as [|entries' Hnames Hnodup Hsub]; subst.
    rewrite files_Dir, elem_of_filesIn. split.
    + intros (name & child & rest & -> & Hin & Hrest). simpl.
      rewrite (elem_of_entry _ _ _ Hnodup Hin).
      rewrite Forall_forall in IH, Hsub.
      apply (IH (name, child) Hin rest); [|done]. by apply (Hsub (name, child)).
    + intros [content Hl]. destruct rel as [|name rest]; [done|]. simpl in Hl.
      destruct (entry name entries) as [child|] eqn:He; [|done].
      apply entry_Some_elem_of in He.
      exists name, child, rest. split; [done|]. split; [done|].
      rewrite Forall_forall in IH, Hsub.
      apply (IH (name, child) He rest); [by apply (Hsub (name, child)) | eauto].
Qed.

Lemma files_names (n : Node) (rel : list string) :
  wfTree n → rel ∈ files n → Forall paths.isName rel.
Proof.
  revert rel. induction n as [content|readable entries IH] using Node_ind_entries;
    intros rel Hwf.
  - simpl. by intros ->%list_elem_of_singleton.
  - inversion Hwf as [|entries' Hnames Hnodup Hsub]; subst.
    rewrite files_Dir, elem_of_filesIn.
    intros (name & child & rest & -> & Hin & Hrest).
    rewrite Forall_forall in IH. rewrite Forall_forall in Hnames.
    rewrite Forall_forall in Hsub. constructor.
    + apply Hnames, list_elem_of_fmap. by exists (name, child).
    + apply (IH (name, child) Hin rest); [|done]. by apply (Hsub (name, child)).
Qed.

Section WalkCollect.
Context (srcDir : string).

(** The entry that [collectFile] writes for the file at [elems]. *)
Definition collected (m : gmap string string) (elems : list string)
  : gmap string string :=
  <[paths.abs elems := Str.drop (String.length srcDir) (paths.abs elems)]> m.

Lemma walkDir_Dir {St : Type} join
    (fn : St → string → option bool → option error → St * WalkResult)
    (path : string) (readable : bool) (entries : list (string * Node)) (st : St) :
  walkDir join fn path (Dir readable entries) st
  = let '(st1, r1) := fn st path (Some true) None in
    match r1 with
    | SkipDir => (st1, WalkNil)
    | WalkNil =>
      if readable then walkEntries join fn path entries st1
      else
        let '(st2, r2) :=
          fn st1 path (Some true) (Some (PathError "open" path EACCES)) in
        match r2 with
        | SkipDir => (st2, WalkNil)
        | _ => (st2, r2)
        end
    | _ => (st1, r1)
    end.
Proof.
  simpl. destruct (fn st path (Some true) None) as [st1 r1].
  destruct r1; try done. destruct readable; [|done].
  clear st. revert st1. induction entries as [|[name child] entries IH];
    intros st1; simpl; [done|].
  destruct (walkDir join fn (join path name) child st1) as [st' r].
  destruct r; first [done | apply IH].
Qed.

Lemma foldl_ext_all {A B} (f g : A → B → A) (a : A) (l : list B) :
  (∀ a b, f a b = g a b) → foldl f a l = foldl g a l.
Proof.
  intros Hfg. revert a; induction l as [|b l IH]; intros a; simpl; [done|].
  by rewrite Hfg, IH.
Qed.

(** The walk of a well-formed tree at the absolute path of [elems] ends
    without error, with an entry for each of its files. *)
Lemma walkDir_collect (n : Node) (elems : list string) (m : gmap string string) :
  wfTree n → Forall paths.isName elems →
  String.length srcDir ≤ String.length (paths.abs elems) →
  walkDir filepath.Join (collectFile srcDir) (paths.abs elems) n m
  = (foldl (λ m rel, collected m (elems ++ rel)) m (files n), WalkNil).
Proof.
  revert elems m.
  induction n as [content|readable entries IH] using Node_ind_entries;
    intros elems m Hwf Helems Hlen.
  - simpl. rewrite decide_True by done. by rewrite app_nil_r.
  - inversion Hwf as [|entries' Hnames Hnodup Hsub]; subst.
    rewrite walkDir_Dir, files_Dir. simpl. clear Hwf Hnodup.
    revert m. induction entries as [|[name child] entries IHentries];
      intros m; simpl; [done|].
    apply Forall_cons in IH as [IHchild IH].
    apply Forall_cons in Hsub as [Hchild Hsub].
    simpl in Hnames. apply Forall_cons in Hnames as [Hname Hnames].
    simpl in IHchild, Hchild.
    rewrite paths.Join_abs_name by done.
    rewrite (IHchild (elems ++ [name]) m); [|done|..].
    + rewrite foldl_app, foldl_fmap.
      rewrite IHentries by done. f_equal. f_equal.
      apply foldl_ext_all. intros m' rel. by rewrite <- app_assoc.
    + apply Forall_app. split; [done | by constructor].
    + etrans; [done | apply paths.length_abs_app].
Qed.

Lemma lookup_collected (rels : list (list string)) (elems : list string)
    (m : gmap string string) (s : string) :
  foldl (λ m rel, collected m (elems ++ rel)) m rels !! s
  = if decide (s ∈ (λ rel, paths.abs (elems ++ rel)) <$> rels)
    then Some (Str.drop (String.length srcDir) s)
    else m !! s.
Proof.
  revert m; induction rels as [|rel rels IH]; intros m.
  { rewrite decide_False; [done | by intros ?%elem_of_nil]. }
  rewrite fmap_cons. cbn [foldl]. rewrite IH. unfold collected.
  destruct (decide (s ∈ _ <$> rels)) as [Hin|Hnin].
  - rewrite decide_True; [done | by right].
  - destruct (decide (s = paths.abs (elems ++ rel))) as [->|Hne].
    + rewrite lookup_insert_eq. rewrite decide_True; [done | by left].
    + rewrite lookup_insert_ne by done.
      rewrite decide_False; [done|]. by intros [?|?]%elem_of_cons.
Qed.

End WalkCollect.

(** X25: a directory source given by a clean absolute path [/parent/name]
    (its elements are names: no slash at the end, no empty element, ["."]
    or [".."]) whose tree is walked to its end (every directory can be
    listed): the loop that fills [subPath] adds one pair for each file of
    the tree, and nothing else: the file at [rel] below the source, of path
    [s], gets the sub-path that [s] continues the path of the parent with,
    which begins with [name], the base name of the source, and goes on with
    [rel]; joined to a destination directory it lands at [name/rel] below
    it.  A source that is not a directory gets the one pair from its path to
    its base name.  (A pair may be replaced by a later source of the group
    that reaches the same file.) *)
Theorem subPaths_directory (p : Program) (fs : Node) (parent : list string)
    (name : string) (tree : Node) (m : gmap string string) :
  Forall paths.isName parent → paths.isName name →
  flag (SrcIsDir p) (paths.abs (parent ++ [name])) = true →
  os.node fs (paths.abs (parent ++ [name])) = Ok tree →
  wfTree tree →
  filepath.Dir (paths.abs (parent ++ [name])) = paths.abs parent ∧
  filepath.Base (paths.abs (parent ++ [name])) = name ∧
  (∃ m', subPaths p fs [paths.abs (parent ++ [name])] m = Ok m' ∧
     (∀ rel content, lookupNode rel tree = Ok (File content) →
        os.node fs (paths.abs (parent ++ name :: rel)) = Ok (File content) ∧
        paths.abs (parent ++ name :: rel)
        = paths.abs parent +:+ paths.below parent (name :: rel) ∧
        m' !! paths.abs (parent ++ name :: rel)
        = Some (paths.below parent (name :: rel)) ∧
        ∀ destDir,
          pathElems (filepath.Join destDir (paths.below parent (name :: rel)))
          = pathElems destDir ++ name :: rel) ∧
     (∀ s sub, m' !! s = Some sub →
        m !! s = Some sub ∨
        ∃ rel content,
          lookupNode rel tree = Ok (File content) ∧
          s = paths.abs (parent ++ name :: rel) ∧
          sub = paths.below parent (name :: rel))) ∧
  (∀ src m0, flag (SrcIsDir p) src = false →
     subPaths p fs [src] m0 = Ok (<[src := filepath.Base src]> m0)).
Proof.
  intros Hparent Hname Hflag Hnode Hwf.
  assert (Forall paths.isName (parent ++ [name])) as Hsrc
    by (apply Forall_app; split; [done | by constructor]).
  pose proof (paths.Dir_abs_snoc parent name Hparent Hname) as HDir.
  split; [done|]. split; [by apply paths.Base_abs_snoc|].
  split; [|by intros src m0 Hf; simpl; rewrite Hf].
  eexists. split.
  { simpl. rewrite Hflag, HDir. unfold filepath.WalkDir, walkRoot.
    rewrite Hnode, walkDir_collect; [done..|]. apply paths.length_abs_app. }
  assert (∀ rel, (parent ++ [name]) ++ rel = parent ++ name :: rel) as Happ
    by (intros; by rewrite <- app_assoc).
  split.
  - intros rel content Hfile.
    assert (rel ∈ files tree) as Hin by (apply elem_of_files; eauto).
    pose proof (files_names _ _ Hwf Hin) as Hrel.
    assert (Forall paths.isName (parent ++ name :: rel)) as Hall
      by (rewrite <- Happ; by apply Forall_app).
    split; [|split; [|split]].
    + unfold os.node in *. rewrite decide_False in Hnode by done.
      rewrite decide_False by done.
      rewrite paths.pathElems_abs in Hnode |- * by done.
      by rewrite <- Happ, fsfacts.lookupNode_app, Hnode.
    + by apply paths.abs_app.
    + rewrite lookup_collected, decide_True.
      * by rewrite paths.drop_abs_app.
      * apply list_elem_of_fmap. exists rel. by rewrite Happ.
    + intros destDir. apply paths.pathElems_Join_below; [|done].
      by constructor.
  - intros s sub. rewrite lookup_collected.
    destruct (decide _) as [Hin|_]; [|by left].
    apply list_elem_of_fmap in Hin as (rel & -> & Hin).
    intros Heq. apply (inj Some) in Heq. subst sub. right.
    apply elem_of_files in Hin as [content Hfile]; [|done].
    exists rel, content. split; [done|]. rewrite Happ. split; [done|].
    by rewrite paths.drop_abs_app.
Qed.

Lemma subPaths_directory_witness :
  Forall paths.isName ["in"] ∧ paths.isName "d" ∧
  flag (SrcIsDir (analyzedTree "/in/d")) (paths.abs (["in"] ++ ["d"])) = true ∧
  (∃ tree, os.node readableFS (paths.abs (["in"] ++ ["d"])) = Ok tree ∧
           wfTree tree) ∧
  ∃ m', subPaths (analyzedTree "/in/d") readableFS ["/in/d"] ∅ = Ok m' ∧
        m' !! "/in/d/sub/z.txt" = Some "/d/sub/z.txt" ∧
        pathElems (filepath.Join "/out" "/d/sub/z.txt") = ["out"; "d"; "sub"; "z.txt"].
Proof.
  assert (Forall paths.isName ["in"]) as H1 by by_compute.
  assert (paths.isName "d") as H2 by by_compute.
  assert (flag (SrcIsDir (analyzedTree "/in/d")) (paths.abs (["in"] ++ ["d"])) = true)
    as H3 by (vm_compute; reflexivity).
  set (tree := Dir true
         [("a.txt", File "A");
          ("locked", Dir true [("l.txt", File "L")]);
          ("sub", Dir true [("z.txt", File "Z")])]).
  assert (os.node readableFS (paths.abs (["in"] ++ ["d"])) = Ok tree) as H4
    by (vm_compute; reflexivity).
  assert (wfTree tree) as H5.
  { repeat first
      [ apply wfFile
      | apply wfDir
      | apply List.Forall_cons
      | apply List.Forall_nil
      | by_compute ]. }
  split; [exact H1|]. split; [exact H2|]. split; [exact H3|].
  split; [exists tree; split; [exact H4 | exact H5]|].
  destruct (subPaths_directory _ _ _ _ _ ∅ H1 H2 H3 H4 H5)
    as (_ & _ & (m' & Hm' & Hfiles & _) & _).
  exists m'. split; [exact Hm'|].
  destruct (Hfiles ["sub"; "z.txt"] "Z" eq_refl) as (_ & _ & Hsub & Hjoin).
  split; [exact Hsub | exact (Hjoin "/out")].
Defined.

(** * More on the tokenizer *)

(** ** The key divider *)

Lemma findDivider_again (i x : nat) (keys : list string) :
  "..." ∈ keys →
  findDivider i keys (Some x)
  = Err (Errorf "multiple key divider (...) is not allowed").
Proof.
  revert i; induction keys as [|k keys IH]; intros i Hin;
    [by apply elem_of_nil in Hin|].
  simpl. destruct (decide (k = "...")); [done|].
  apply IH. by apply elem_of_cons in Hin as [?|?].
Qed.

Lemma findDivider_twice (i : nat) (l r : list string) (idx : option nat) :
  "..." ∈ r →
  findDivider i (l ++ "..." :: r) idx
  = Err (Errorf "multiple key divider (...) is not allowed").
Proof.
  intros Hin. revert i idx; induction l as [|k l IH]; intros i idx; simpl.
  - destruct idx; [done|]. by apply findDivider_again.
  - destruct (decide (k = "...")); [|apply IH].
    destruct idx; [done|]. apply findDivider_again.
    apply elem_of_app. right. by left.
Qed.

(** A list of keys has no divider, one, or more. *)
Lemma keys_shape (keys : list string) :
  "..." ∉ keys ∨
  (∃ l r, keys = l ++ "..." :: r ∧ "..." ∉ l ∧ "..." ∉ r) ∨
  (∃ l r, keys = l ++ "..." :: r ∧ "..." ∈ r).
Proof.
  induction keys as [|k keys IH].
  { left. by intros ?%elem_of_nil. }
  destruct IH as [Hk|[(l & r & -> & Hl & Hr)|(l & r & -> & Hr)]].
  - destruct (decide (k = "...")) as [->|Hne].
    + right. left. exists [], keys. split; [done|].
      split; [by intros ?%elem_of_nil | done].
    + left. by intros [?|?]%elem_of_cons.
  - destruct (decide (k = "...")) as [->|Hne].
    + right. right. exists [], (l ++ "..." :: r). split; [done|].
      apply elem_of_app. right. by left.
    + right. left. exists (k :: l), r. split; [done|].
      split; [by intros [?|?]%elem_of_cons | done].
  - right. right. by exists (k :: l), r.
Qed.

Lemma parseEnvs_plain (src : string) (seps keys : list string) :
  "..." ∉ keys →
  parseEnvs src seps keys =
  if decide (length keys < length (splitVals src seps)) then
    Err (Errorf ("too many values for keys: " +:+ src))
  else if decide (length (splitVals src seps) < length keys) then
    Err (Errorf ("not enough values for keys: " +:+ src))
  else bindKeys keys [] (splitVals src seps).
Proof. intros Hk. unfold parseEnvs. by rewrite findDivider_none. Qed.

Lemma parseEnvs_divided (src : string) (seps l r : list string) :
  "..." ∉ l → "..." ∉ r →
  parseEnvs src seps (l ++ "..." :: r) =
  if decide (length (splitVals src seps) < length l + length r) then
    Err (Errorf ("not enough values for keys: " +:+ src))
  else bindKeys l r (splitVals src seps).
Proof.
  intros Hl Hr. unfold parseEnvs.
  rewrite findDivider_one by done. simpl.
  rewrite length_app. simpl.
  replace (length l + S (length r) - 1) with (length l + length r) by lia.
  destruct (decide _); [done|].
  rewrite take_app_length.
  by rewrite <- drop_drop, drop_app_length.
Qed.

(** The keys that a run of assignments binds. *)
Lemma assign_is_Some (envs : gmap string string) (kvs : list (string * string))
    (k : string) :
  is_Some (foldl assign envs kvs !! k) ↔
  is_Some (envs !! k) ∨ (k ≠ "_" ∧ k ∈ kvs.*1).
Proof.
  revert envs; induction kvs as [|[k' v'] kvs IH]; intros envs; simpl.
  { rewrite elem_of_nil. naive_solver. }
  rewrite IH, elem_of_cons. unfold assign. simpl.
  destruct (decide (k' = "_")) as [->|Hne].
  - naive_solver.
  - rewrite lookup_insert_is_Some'. naive_solver.
Qed.

Lemma bindKeys_is_Some (l r vals : list string) (envs : gmap string string)
    (k : string) :
  bindKeys l r vals = Ok envs →
  length l + length r ≤ length vals →
  is_Some (envs !! k) ↔ k ≠ "_" ∧ (k ∈ l ∨ k ∈ r).
Proof.
  intros Hb Hlen. rewrite bindKeys_Ok in Hb by done. injection Hb as <-.
  rewrite !assign_is_Some, lookup_empty, fmap_reverse, elem_of_reverse.
  rewrite !fst_zip by (rewrite ?length_drop; lia).
  split; [|naive_solver].
  intros [[[? [=]]|?]|?]; naive_solver.
Qed.

Lemma parseEnvs_outcomes (src : string) (seps keys : list string) :
  (∃ envs, parseEnvs src seps keys = Ok envs) ∨
  parseEnvs src seps keys
  = Err (Errorf "multiple key divider (...) is not allowed") ∨
  parseEnvs src seps keys
  = Err (Errorf ("too many values for keys: " +:+ src)) ∨
  parseEnvs src seps keys
  = Err (Errorf ("not enough values for keys: " +:+ src)).
Proof.
  destruct (keys_shape keys) as [Hk|[(l & r & -> & Hl & Hr)|(l & r & -> & Hr)]].
  - rewrite parseEnvs_plain by done.
    destruct (decide _); [auto|]. destruct (decide _); [auto|].
    left. rewrite bindKeys_Ok by (simpl; lia). eauto.
  - rewrite parseEnvs_divided by done.
    destruct (decide _); [auto|].
    left. rewrite bindKeys_Ok by lia. eauto.
  - right. left. unfold parseEnvs. by rewrite findDivider_twice.
Qed.


Lemma parseEnvs_is_Some (src : string) (seps keys : list string)
    (envs : gmap string string) (k : string) :
  parseEnvs src seps keys = Ok envs →
  is_Some (envs !! k) ↔ k ∈ keys ∧ k ≠ "_" ∧ k ≠ "...".
Proof.
  destruct (keys_shape keys) as [Hk|[(l & r & -> & Hl & Hr)|(l & r & -> & Hr)]].
  - rewrite parseEnvs_plain by done.
    destruct (decide _); [done|]. destruct (decide _); [done|].
    intros Hb. rewrite (bindKeys_is_Some _ _ _ _ k Hb) by (simpl; lia).
    rewrite elem_of_nil. split; [|naive_solver].
    intros [? [?|[]]]. repeat split; [done..|]. by intros ->.
  - rewrite parseEnvs_divided by done.
    destruct (decide _); [done|].
    intros Hb. rewrite (bindKeys_is_Some _ _ _ _ k Hb) by lia.
    rewrite elem_of_app, elem_of_cons. split.
    + intros [? [?|?]]; (split; [auto|]); (split; [done|]); by intros ->.
    + naive_solver.
  - unfold parseEnvs. by rewrite findDivider_twice.
Qed.

(** X2: a successful [parseEnvs] binds every key of the list other than
    ["_"] and the divider ["..."], and nothing else: which names the map
    defines depends on the keys only, not on the source. *)
Theorem parseEnvs_bound_keys (src : string) (seps keys : list string)
    (envs : gmap string string) :
  parseEnvs src seps keys = Ok envs →
  ∀ k, is_Some (envs !! k) ↔ k ∈ keys ∧ k ≠ "_" ∧ k ≠ "...".
Proof. intros Hrun k. by apply (parseEnvs_is_Some src seps). Qed.

Lemma parseEnvs_bound_keys_witness :
  ∃ envs, parseEnvs "/show/a_b" ["/"; "_"] ["_"; "SHOW"; "..."; "_"] = Ok envs ∧
          is_Some (envs !! "SHOW") ∧ ¬ is_Some (envs !! "_").
Proof.
  assert (∃ envs, parseEnvs "/show/a_b" ["/"; "_"] ["_"; "SHOW"; "..."; "_"]
                  = Ok envs) as [envs Hrun]
    by (vm_compute; eexists; reflexivity).
  exists envs. split; [exact Hrun|].
  pose proof (parseEnvs_bound_keys _ _ _ _ Hrun) as Hdom. split.
  - apply Hdom. split; [by_compute | split; by_compute].
  - intros [_ [Hne _]]%Hdom. by apply Hne.
Defined.

(** X5: a list of keys with more than one divider is refused, whatever the
    source and the separators are, and before the fragments are counted. *)
Theorem parseEnvs_multiple_divider (src : string) (seps l1 l2 l3 : list string) :
  parseEnvs src seps (l1 ++ "..." :: l2 ++ "..." :: l3)
  = Err (Errorf "multiple key divider (...) is not allowed").
Proof.
  unfold parseEnvs. rewrite findDivider_twice; [done|].
  apply elem_of_app. right. by left.
Qed.

(** X4: without a divider, [parseEnvs] wants as many fragments as keys: then
    the key at index [i] holds the fragment at index [i] (a key written
    several times keeps its last fragment, and ["_"] none), and every entry
    of the map is such a pair; with more fragments, or fewer, it fails. *)
Theorem parseEnvs_plain_keys (src : string) (seps keys : list string) :
  "..." ∉ keys →
  let vals := splitVals src seps in
  (length vals = length keys →
   ∃ envs, parseEnvs src seps keys = Ok envs ∧
     (∀ i k, keys !! i = Some k → k ≠ "_" → k ∉ drop (S i) keys →
             envs !! k = vals !! i) ∧
     (∀ k v, envs !! k = Some v →
             k ≠ "_" ∧ ∃ i, keys !! i = Some k ∧ vals !! i = Some v)) ∧
  (length keys < length vals →
   parseEnvs src seps keys
   = Err (Errorf ("too many values for keys: " +:+ src))) ∧
  (length vals < length keys →
   parseEnvs src seps keys
   = Err (Errorf ("not enough values for keys: " +:+ src))).
Proof.
  intros Hk vals. rewrite parseEnvs_plain by done. fold vals.
  split; [|split].
  - intros Hlen. rewrite !decide_False, bindKeys_Ok by (simpl; lia).
    simpl. eexists. split; [done|]. split.
    + intros i k Hi Hne Hlast.
      destruct (lookup_lt_is_Some_2 vals i) as [v Hv].
      { apply lookup_lt_Some in Hi. lia. }
      rewrite (zip_split_at _ _ _ _ _ Hi Hv), Hv.
      apply lookup_assign_last; [done|]. by intros ?%elem_of_zip_fst.
    + intros k v Hkv.
      apply lookup_assign_Some in Hkv as [Hkv|[Hne Hin]]; [done|].
      split; [done|].
      apply elem_of_lookup_zip_with in Hin as (i & x & y & [= -> ->] & ? & ?).
      by exists i.
  - intros Hlt. by rewrite decide_True.
  - intros Hlt. by rewrite decide_False, decide_True by lia.
Qed.

Lemma parseEnvs_plain_keys_witness :
  ("..." ∉ ["SEQ"; "_"; "SHOT"]) ∧
  ∃ envs, parseEnvs "ep01_x_sh010" ["_"] ["SEQ"; "_"; "SHOT"] = Ok envs ∧
          envs !! "SHOT" = Some "sh010".
Proof.
  assert ("..." ∉ ["SEQ"; "_"; "SHOT"]) as Hk by by_compute.
  split; [exact Hk|].
  destruct (parseEnvs_plain_keys "ep01_x_sh010" ["_"] _ Hk) as [Hok _].
  destruct Hok as (envs & He & Hkeys & _); [vm_compute; reflexivity|].
  exists envs. split; [exact He|].
  apply (Hkeys 2 "SHOT"); by_compute.
Defined.

(** ** Fragments *)

Lemma HasPrefix_take (s sep : string) (n : nat) :
  strings.HasPrefix (Str.take n s) sep = true → strings.HasPrefix s sep = true.
Proof.
  rewrite !HasPrefix_spec. intros [t Ht]. exists (t +:+ Str.drop n s).
  by rewrite <- Str.app_assoc, <- Ht, Str.take_drop.
Qed.

Lemma HasPrefix_nil (s : string) : strings.HasPrefix s "" = true.
Proof. by destruct s. Qed.

Lemma HasPrefix_drop_take (s sep : string) (j n : nat) :
  strings.HasPrefix (Str.drop j (Str.take n s)) sep = true →
  strings.HasPrefix (Str.drop j s) sep = true.
Proof.
  revert s n; induction j as [|j IH]; intros s n; simpl.
  { apply HasPrefix_take. }
  destruct s as [|c s]; [by destruct n|].
  destruct n as [|n]; simpl; [|apply IH].
  destruct sep; [intros _; apply HasPrefix_nil | done].
Qed.

(** An occurrence at [j] puts the first occurrence at [j] or before. *)
Lemma Index_le (s sep : string) (j : nat) :
  strings.HasPrefix (Str.drop j s) sep = true →
  ∃ i, strings.Index s sep = Some i ∧ i ≤ j.
Proof.
  intros Hp. destruct (strings.Index s sep) as [i|] eqn:Hi.
  - exists i. split; [done|]. destruct (Index_first _ _ _ Hi) as [_ Hmin].
    destruct (decide (i ≤ j)); [done|]. rewrite Hmin in Hp by lia. done.
  - by rewrite (Index_none _ _ j Hi) in Hp.
Qed.

Lemma splitSteps_fragment_free (seps : list string) (sep : string) :
  sep ∈ seps → strings.TrimSpace sep ≠ "" →
  ∀ src st, st ∈ splitSteps src seps → strings.Index st.1 sep = None.
Proof.
  intros Hin Ht src. induction src as [|remain Hne IH] using (splitSteps_ind seps).
  { intros st. rewrite splitSteps_nil. by intros ?%elem_of_nil. }
  intros st. rewrite splitSteps_cons by done.
  intros [->|Hst]%elem_of_cons; [|by apply IH]. simpl.
  destruct (strings.Index (Str.take _ remain) sep) as [j|] eqn:Hj; [|done].
  exfalso.
  pose proof (Index_bound _ _ _ Hj) as Hb. rewrite Str.length_take in Hb.
  destruct (Index_first _ _ _ Hj) as [Hp _].
  apply HasPrefix_drop_take, Index_le in Hp as (i & Hi & Hle).
  destruct (findCutter_min remain seps sep i Hin) as [Hmin _]; [done|].
  apply Ht. destruct sep; [done | simpl in Hb; lia].
Qed.

(** X3: no fragment holds a separator: a separator of the list that is not
    only white space occurs in none of the fragments that the splitting
    loop yields. *)
Theorem splitVals_fragment_free (src : string) (seps : list string)
    (frag sep : string) :
  frag ∈ splitVals src seps → sep ∈ seps → ¬ whiteSpace sep →
  strings.Index frag sep = None.
Proof.
  intros ([frag' cutter] & -> & Hst)%list_elem_of_fmap Hin Hw.
  rewrite <- TrimSpace_whiteSpace in Hw.
  by apply (splitSteps_fragment_free seps sep Hin Hw src).
Qed.

Lemma splitVals_fragment_free_witness :
  "b" ∈ splitVals "a_b.c" ["_"; "."] ∧ "." ∈ ["_"; "."] ∧
  ¬ whiteSpace "." ∧ strings.Index "b" "." = None.
Proof.
  assert ("b" ∈ splitVals "a_b.c" ["_"; "."]) as H1 by by_compute.
  assert ("." ∈ ["_"; "."]) as H2 by by_compute.
  assert (¬ whiteSpace ".") as H3
    by (rewrite <- TrimSpace_whiteSpace; by_compute).
  split; [exact H1|]. split; [exact H2|]. split; [exact H3|].
  exact (splitVals_fragment_free _ _ _ _ H1 H2 H3).
Defined.

(** X6: a source that begins with a separator (one that is not only white
    space) has an empty first fragment:
    the path pass of an absolute path, with ["/"] among the separators,
    starts with a fragment [""] that a key has to take. *)
Theorem splitVals_leading_separator (src : string) (seps : list string)
    (sep : string) :
  sep ∈ seps → ¬ whiteSpace sep →
  strings.HasPrefix src sep = true →
  head (splitVals src seps) = Some "".
Proof.
  intros Hin Ht Hp. rewrite <- TrimSpace_whiteSpace in Ht.
  assert (src ≠ "") as Hne.
  { intros ->. destruct sep; [done | done]. }
  assert (strings.Index src sep = Some 0) as Hi
    by (by rewrite Index_unfold, Hp).
  destruct (findCutter_min src seps sep 0 Hin) as [Hmin _]; [done|].
  unfold splitVals. rewrite splitSteps_cons by done. simpl.
  replace (findCutter src seps).1 with 0 by lia. by destruct src.
Qed.

Lemma splitVals_leading_separator_witness :
  "/" ∈ ["/"] ∧ ¬ whiteSpace "/" ∧
  strings.HasPrefix "/show/ep01" "/" = true ∧
  head (splitVals "/show/ep01" ["/"]) = Some "".
Proof.
  assert ("/" ∈ ["/"]) as H1 by by_compute.
  assert (¬ whiteSpace "/") as H2
    by (rewrite <- TrimSpace_whiteSpace; by_compute).
  assert (strings.HasPrefix "/show/ep01" "/" = true) as H3 by reflexivity.
  split; [exact H1|]. split; [exact H2|]. split; [exact H3|].
  exact (splitVals_leading_separator _ _ _ H1 H2 H3).
Defined.

(** * More on the destination resolver *)

Section ExpandOutput.
  Context {St St' : Type}.
  Context (mapping : string → St → string * St).
  Context (mapping' : string → St' → string * St').

  (** The text that [os.Expand] returns depends on the texts that [mapping]
      returns only. *)
Lemma Expand_output (s : string) (st : St) (st' : St') :
    (∀ name st st', (mapping name st).1 = (mapping' name st').1) →
    (os.Expand mapping s st).1 = (os.Expand mapping' s st').1.
  Proof.
    intros Hm. revert st st'.
    induction s as [s IH] using string_length_ind. intros st st'.
    destruct s as [|c [|c' r]]; simp Expand; simpl; [done..|].
    pose proof (os.getShellName_bound (String c' r)) as Hb.
    set (g := os.getShellName (String c' r)) in *. clearbody g.
    assert (String.length (Str.drop g.2 (String c' r))
            < String.length (String c (String c' r))) as Hlt.
    { rewrite Str.length_drop. simpl in *. lia. }
    repeat case_bool_decide; cbn [fst snd].
    - apply IH, Hlt.
    - f_equal. apply IH, Hlt.
    - f_equal; [apply Hm | apply IH, Hlt].
    - f_equal. apply IH. simpl. lia.
  Qed.

End ExpandOutput.

(** A text without [$] is expanded to itself, and [mapping] is not
    called. *)
Lemma Expand_literal {St : Type} (mapping : string → St → string * St)
    (s : string) (st : St) :
  strings.Index s "$" = None → os.Expand mapping s st = (s, st).
Proof.
  induction s as [|c s IH]; [by simp Expand|].
  rewrite Index_unfold. simpl.
  case_bool_decide as Hc; [by destruct s|].
  destruct (strings.Index s "$") as [i|] eqn:Hi; [done|]. intros _.
  destruct s as [|c' r]; simp Expand; [done|].
  rewrite bool_decide_false by done.
  by rewrite IH.
Qed.

(** The pattern expanded with the values of [env]. *)
Definition expandWith (env : gmap string string) (pattern : string) : string :=
  (os.Expand (λ k (_ : unit), (default "" (env !! k), tt)) pattern tt).1.

Lemma destDirectory_defined (src destPattern : string) (env : gmap string string) :
  filepath.IsAbs src = true →
  absent env (os.references (strings.TrimSpace destPattern)) = [] →
  destDirectory src destPattern env
  = Ok (expandWith env (strings.TrimSpace destPattern)).
Proof.
  intros Habs Hnone. unfold destDirectory. rewrite Habs. simpl.
  destruct (os.Expand (destMapping env) _ "") as [destDir unknown] eqn:He.
  assert (unknown = "") as ->.
  { change unknown with (destDir, unknown).2.
    by rewrite <- He, Expand_state, runCalls_destMapping, Hnone. }
  rewrite decide_False by (by intros []).
  f_equal. change destDir with (destDir, "").1. rewrite <- He.
  apply Expand_output. intros name st st'. unfold destMapping.
  by destruct (env !! name).
Qed.

Lemma absent_nil (env : gmap string string) (names : list string) :
  absent env names = [] ↔ ∀ name, name ∈ names → is_Some (env !! name).
Proof.
  unfold absent. induction names as [|name' names IH].
  { split; [by intros _ name ?%elem_of_nil | done]. }
  rewrite filter_cons. destruct (decide (env !! name' = None)) as [Hn|Hs].
  - split; [done|]. intros H. destruct (H name') as [v Hv]; [by left|].
    by rewrite Hn in Hv.
  - apply not_eq_None_Some in Hs. rewrite IH. split.
    + intros H name [->|?]%elem_of_cons; auto.
    + intros H name Hin. apply H. by right.
Qed.

Lemma destDirectory_cases (src destPattern : string) (env : gmap string string) :
  destDirectory src destPattern env =
  if negb (filepath.IsAbs src) then
    Err (Errorf ("not an absolute path: " +:+ src))
  else
    match last (absent env (os.references (strings.TrimSpace destPattern))) with
    | Some name =>
      Err (Errorf ("unknown environ variable in dest: $" +:+ name))
    | None => Ok (expandWith env (strings.TrimSpace destPattern))
    end.
Proof.
  destruct (filepath.IsAbs src) eqn:Habs; simpl.
  2:{ unfold destDirectory. by rewrite Habs. }
  destruct (last _) as [name|] eqn:Hl.
  - by apply destDirectory_unknown_last.
  - apply destDirectory_defined; [done|]. by apply last_None.
Qed.

(** X7: [destDirectory] returns a destination exactly for an absolute source
    and a pattern whose references are all defined in [env]; the destination
    is then the pattern, without the white space around it, with every
    reference replaced by its value.  The source path itself is not part of
    the destination. *)
Theorem destDirectory_resolves (src destPattern : string)
    (env : gmap string string) (destDir : string) :
  destDirectory src destPattern env = Ok destDir ↔
  filepath.IsAbs src = true ∧
  (∀ name, name ∈ os.references (strings.TrimSpace destPattern) →
           is_Some (env !! name)) ∧
  destDir = expandWith env (strings.TrimSpace destPattern).
Proof.
  rewrite destDirectory_cases, <- absent_nil.
  destruct (filepath.IsAbs src); simpl; [|naive_solver].
  destruct (absent env _) as [|name names] using rev_ind.
  - simpl. naive_solver.
  - rewrite last_snoc. split; [done|]. by intros (_ & [_ ?]%app_eq_nil & _).
Qed.

(** X8: a pattern without [$] is a fixed destination: every absolute source
    resolves to the pattern itself, without the white space around it,
    whatever [env] holds. *)
Theorem destDirectory_literal (src destPattern : string)
    (env : gmap string string) :
  filepath.IsAbs src = true →
  strings.Index (strings.TrimSpace destPattern) "$" = None →
  destDirectory src destPattern env = Ok (strings.TrimSpace destPattern).
Proof.
  intros Habs Hlit. unfold destDirectory. rewrite Habs. simpl.
  by rewrite Expand_literal.
Qed.

Lemma destDirectory_literal_witness :
  filepath.IsAbs "/in/a" = true ∧
  strings.Index (strings.TrimSpace " /mnt/out/ ") "$" = None ∧
  destDirectory "/in/a" " /mnt/out/ " ∅ = Ok "/mnt/out/".
Proof.
  assert (filepath.IsAbs "/in/a" = true) as H1 by reflexivity.
  assert (strings.Index (strings.TrimSpace " /mnt/out/ ") "$" = None) as H2
    by reflexivity.
  split; [exact H1|]. split; [exact H2|].
  exact (destDirectory_literal "/in/a" " /mnt/out/ " ∅ H1 H2).
Defined.

(** * More on the analysis *)

(** ** White space around a path *)

Lemma spaceWidth_slash (r : string) : strings.spaceWidth (String "/" r) = 0.
Proof. by destruct r as [|b [|c r]]. Qed.

(** The white-space rune that a string ends with holds no slash. *)
Lemma spaceWidthRev_cases (s : string) :
  strings.spaceWidthRev s = 0 ∨ strings.spaceWidthRev s = 1 ∨
  (strings.spaceWidthRev s = 2 ∧
   ∃ c b r, s = String c (String b r) ∧ b ≠ "/"%char) ∨
  (strings.spaceWidthRev s = 3 ∧
   ∃ c b a r, s = String c (String b (String a r)) ∧
              b ≠ "/"%char ∧ a ≠ "/"%char).
Proof.
  destruct s as [|c r]; [by left|].
  unfold strings.spaceWidthRev.
  destruct (strings.asciiSpace (nat_of_ascii c)); [by right; left|].
  destruct r as [|b r]; [by left|].
  case_bool_decide as H2.
  { right. right. left. split; [done|]. exists c, b, r. split; [done|].
    intros ->. by rewrite spaceWidth_slash in H2. }
  destruct r as [|a r]; [by left|].
  case_bool_decide as H3; [|by left].
  right. right. right. split; [done|]. exists c, b, a, r. split; [done|].
  split; intros ->; [|by rewrite spaceWidth_slash in H3].
  unfold strings.spaceWidth in H3.
  destruct (strings.asciiSpace (nat_of_ascii a)); [done|].
  repeat case_bool_decide; try done; simpl in *; naive_solver lia.
Qed.

(** Trimming on the right stops at a slash, at the latest. *)
Lemma trimRight_slash (t : string) :
  ∃ t', strings.trimLeftWith strings.spaceWidthRev (t +:+ "/") = t' +:+ "/".
Proof.
  induction t as [t IH] using string_length_ind.
  destruct t as [|c r]; [by exists ""|].
  rewrite Str.app_cons, trimLeftWith_cons.
  destruct (spaceWidthRev_cases (String c (r +:+ "/")))
    as [->|[->|[[-> (c0 & b & r2 & Heq & Hb)]|[-> (c0 & b & a & r3 & Heq & Hb & Ha)]]]].
  - exists (String c r). by rewrite Str.app_cons.
  - apply IH. simpl. lia.
  - destruct r as [|b' r'].
    + rewrite Str.app_nil_l in Heq. congruence.
    + rewrite Str.app_cons. apply IH. simpl. lia.
  - destruct r as [|b' [|a' r']].
    + rewrite Str.app_nil_l in Heq. congruence.
    + rewrite Str.app_cons, Str.app_nil_l in Heq. congruence.
    + rewrite !Str.app_cons. apply IH. simpl. lia.
Qed.

(** A path that begins with a slash still does after [strings.TrimSpace]. *)
Lemma TrimSpace_slash (s : string) :
  strings.HasPrefix s "/" = true →
  strings.HasPrefix (strings.TrimSpace s) "/" = true.
Proof.
  intros [r ->]%HasPrefix_spec. unfold strings.TrimSpace.
  change ("/" +:+ r) with (String "/" r).
  rewrite trimLeftWith_cons, spaceWidth_slash, paths.rev_cons.
  destruct (trimRight_slash (Str.rev r)) as [t' ->].
  by rewrite paths.rev_app.
Qed.

(** ** What the analysis keeps *)

(** The settings of the program: what the window sets before an analysis,
    and the two state flags. *)
Definition config (p : Program) :=
  (InputText p, PathSeps p, PathKeys p, NameSeps p, NameKeys p,
   DestPattern p, Method p, Analyzed p, Done p).

Lemma statPaths_config (fs : Node) (paths : list string) (p : Program) :
  config (statPaths fs paths p).1 = config p.
Proof.
  revert p; induction paths as [|src paths IH]; intros p; simpl; [done|].
  destruct (os.Stat fs _) as [fi|err|]; [by rewrite IH| |done].
  destruct (IsNotExist err); simpl; [by rewrite IH | done].
Qed.

Lemma analyzeSrc_config (fs : Node) (src : string) (p : Program) :
  config (analyzeSrc fs src p).1 = config p.
Proof. unfold analyzeSrc. by repeat case_match; simplify_eq/=. Qed.

Lemma analyzeSrcs_config (fs : Node) (srcs : list string) (p : Program) :
  config (analyzeSrcs fs srcs p).1 = config p.
Proof.
  revert p; induction srcs as [|src srcs IH]; intros p; simpl; [done|].
  pose proof (analyzeSrc_config fs src p) as Hc.
  destruct (analyzeSrc fs src p) as [p1 [[]| |]]; simpl in *; [|done..].
  by rewrite IH.
Qed.

Lemma AnalyzeInput_config (fs : Node) (now : string) (p : Program) (text : string) :
  config (AnalyzeInput fs now p text).1 = config p.
Proof.
  unfold AnalyzeInput.
  set (p0 := setToday now _).
  pose proof (statPaths_config fs (extractPaths text) p0) as Hc.
  destruct (statPaths fs _ p0) as [p1 [[]| |]]; simpl in *; [|done..].
  by rewrite analyzeSrcs_config.
Qed.

(** The analysis reads the settings only. *)
Lemma AnalyzeInput_config_only (fs : Node) (now : string) (p1 p2 : Program)
    (text : string) :
  config p1 = config p2 →
  AnalyzeInput fs now p1 text = AnalyzeInput fs now p2 text.
Proof.
  intros Hc. unfold AnalyzeInput.
  replace (setToday now (setDestDirExists ∅ (setDestDirSrcs ∅ (setDestDir ∅
    (setSrcDirFileCount ∅ (setSrcIsDir ∅ (setSrcs [] (setInvalids []
      (setNotExists [] p1)))))))))
    with (setToday now (setDestDirExists ∅ (setDestDirSrcs ∅ (setDestDir ∅
    (setSrcDirFileCount ∅ (setSrcIsDir ∅ (setSrcs [] (setInvalids []
      (setNotExists [] p2))))))))); [done|].
  destruct p1, p2. unfold config in Hc. simpl in Hc.
  injection Hc as -> -> -> -> -> -> -> -> ->. done.
Qed.

(** X9: an analysis changes none of the settings (the separators, the keys,
    the pattern, the method, the input text and the two state flags), and
    it starts from them alone: what an earlier analysis left in the program
    is forgotten, so analysing the same text again, at the same date and on
    the same files, gives the same state and the same result. *)
Theorem AnalyzeInput_again (fs : Node) (now : string) (p : Program)
    (text : string) :
  let p' := (AnalyzeInput fs now p text).1 in
  InputText p' = InputText p ∧
  PathSeps p' = PathSeps p ∧ PathKeys p' = PathKeys p ∧
  NameSeps p' = NameSeps p ∧ NameKeys p' = NameKeys p ∧
  DestPattern p' = DestPattern p ∧ Method p' = Method p ∧
  Analyzed p' = Analyzed p ∧ Done p' = Done p ∧
  AnalyzeInput fs now p' text = AnalyzeInput fs now p text.
Proof.
  intros p'. pose proof (AnalyzeInput_config fs now p text) as Hc.
  fold p' in Hc. split_and!; [by injection Hc..|].
  by apply AnalyzeInput_config_only.
Qed.

(** ** The names that the two passes bind *)

Lemma ParseEnvsFromSrc_lookup (p : Program) (src : string)
    (env : gmap string string) :
  ParseEnvsFromSrc p src = Ok env →
  ∃ pathEnv nameEnv,
    parseEnvs src (PathSeps p) (PathKeys p) = Ok pathEnv ∧
    parseEnvs (filepath.Base src) (NameSeps p) (NameKeys p) = Ok nameEnv ∧
    ∀ k, env !! k = match nameEnv !! k with
                    | Some v => Some v
                    | None => pathEnv !! k
                    end.
Proof.
  unfold ParseEnvsFromSrc, copyInto.
  destruct (parseEnvs src _ _) as [pathEnv| |]; simpl; [|done..].
  destruct (parseEnvs (filepath.Base src) _ _) as [nameEnv| |]; simpl; [|done..].
  intros [= <-]. exists pathEnv, nameEnv. split; [done|]. split; [done|].
  intros k. rewrite (right_id ∅ (∪)), lookup_union.
  destruct (nameEnv !! k), (pathEnv !! k); done.
Qed.

Lemma ParseEnvsFromSrc_is_Some (p : Program) (src : string)
    (env : gmap string string) (k : string) :
  ParseEnvsFromSrc p src = Ok env →
  is_Some (env !! k) ↔
  (k ∈ PathKeys p ∨ k ∈ NameKeys p) ∧ k ≠ "_" ∧ k ≠ "...".
Proof.
  intros (pathEnv & nameEnv & Hp & Hn & Hl)%ParseEnvsFromSrc_lookup.
  rewrite Hl.
  pose proof (parseEnvs_is_Some _ _ _ _ k Hp) as Hpk.
  pose proof (parseEnvs_is_Some _ _ _ _ k Hn) as Hnk.
  destruct (nameEnv !! k) as [v|] eqn:Hv.
  - assert (is_Some (Some v)) as Hs by eauto. apply Hnk in Hs. naive_solver.
  - rewrite Hpk. split; [naive_solver|].
    intros [[?|?] [? ?]]; [done|].
    assert (is_Some (@None string)) as [? [=]]. apply Hnk. done.
Qed.

(** X10: [ParseEnvsFromSrc] succeeds when both passes do, the path pass on
    the whole source and the name pass on its base name; a key of both
    passes gets the value of the name pass; and the names it binds are the
    path keys and the name keys other than ["_"] and ["..."], whatever the
    source is. *)
Theorem ParseEnvsFromSrc_bound_keys (p : Program) (src : string)
    (env : gmap string string) :
  ParseEnvsFromSrc p src = Ok env →
  (∃ pathEnv nameEnv,
     parseEnvs src (PathSeps p) (PathKeys p) = Ok pathEnv ∧
     parseEnvs (filepath.Base src) (NameSeps p) (NameKeys p) = Ok nameEnv ∧
     ∀ k, env !! k = match nameEnv !! k with
                     | Some v => Some v
                     | None => pathEnv !! k
                     end) ∧
  ∀ k, is_Some (env !! k) ↔
       (k ∈ PathKeys p ∨ k ∈ NameKeys p) ∧ k ≠ "_" ∧ k ≠ "...".
Proof.
  intros Hrun. split; [by apply ParseEnvsFromSrc_lookup|].
  intros k. by apply (ParseEnvsFromSrc_is_Some p src).
Qed.

Lemma ParseEnvsFromSrc_bound_keys_witness :
  ∃ env, ParseEnvsFromSrc exampleProgram "/in/x_y" = Ok env ∧
         is_Some (env !! "SHOW") ∧ ¬ is_Some (env !! "...").
Proof.
  assert (∃ env, ParseEnvsFromSrc exampleProgram "/in/x_y" = Ok env)
    as [env Hrun] by (vm_compute; eexists; reflexivity).
  exists env. split; [exact Hrun|].
  destruct (ParseEnvsFromSrc_bound_keys _ _ _ Hrun) as [_ Hdom]. split.
  - apply Hdom. split; [right; by_compute | split; by_compute].
  - intros (_ & _ & Hne)%Hdom. by apply Hne.
Defined.

(** ** Whether a source resolves does not depend on the source *)

(** The references of the pattern that no key binds, and that are not
    [DATE]. *)
Definition unbound (p : Program) : list string :=
  filter (λ name,
            ¬ (name = "DATE" ∨
               ((name ∈ PathKeys p ∨ name ∈ NameKeys p) ∧
                name ≠ "_" ∧ name ≠ "...")))
    (os.references (strings.TrimSpace (DestPattern p))).

Lemma resolveSrc_cases (p : Program) (src : string) (env : gmap string string) :
  ParseEnvsFromSrc p src = Ok env → filepath.IsAbs src = true →
  resolveSrc p src =
  match last (unbound p) with
  | Some name => Err (Errorf ("unknown environ variable in dest: $" +:+ name))
  | None =>
    Ok (expandWith (<["DATE" := Today p]> env) (strings.TrimSpace (DestPattern p)))
  end.
Proof.
  intros Hparse Habs. unfold resolveSrc. rewrite Hparse. simpl.
  rewrite destDirectory_cases, Habs. simpl.
  replace (absent _ _) with (unbound p); [done|].
  unfold unbound, absent. apply list_filter_iff. intros name.
  rewrite lookup_insert_None, eq_None_not_Some.
  rewrite (ParseEnvsFromSrc_is_Some p src env name Hparse).
  destruct (decide (name = "DATE")); naive_solver.
Qed.

Lemma ParseEnvsFromSrc_sameSetup (p p' : Program) (src : string) :
  sameSetup p p' → ParseEnvsFromSrc p' src = ParseEnvsFromSrc p src.
Proof.
  intros (H1 & H2 & H3 & H4 & _).
  unfold ParseEnvsFromSrc. by rewrite H1, H2, H3, H4.
Qed.

(** In a loop that ends without error, both passes succeeded on every
    source. *)
Lemma analyzeSrcs_parsed (fs : Node) (srcs : list string) (p p' : Program) :
  analyzeSrcs fs srcs p = (p', Ok tt) →
  ∀ src, src ∈ srcs → ∃ env, ParseEnvsFromSrc p src = Ok env.
Proof.
  revert p; induction srcs as [|src0 srcs IH]; intros p; simpl.
  { by intros _ src ?%elem_of_nil. }
  destruct (analyzeSrc fs src0 p) as [p1 r1] eqn:Hstep.
  apply analyzeSrc_spec in Hstep as [Hs Hspec].
  destruct r1 as [[]| |]; [|done..].
  intros Hrest src [->|Hin]%elem_of_cons.
  - unfold resolveSrc in Hspec.
    destruct (ParseEnvsFromSrc p src0) as [env| |]; [eauto|..];
      simpl in Hspec; [|done].
    by destruct Hspec as [[env' ?] _].
  - destruct (IH _ Hrest src Hin) as [env Henv]. exists env.
    by rewrite <- (ParseEnvsFromSrc_sameSetup p p1).
Qed.

Lemma analyzeSrcs_sameSetup (fs : Node) (srcs : list string) (p p' : Program)
    (r : res unit) :
  analyzeSrcs fs srcs p = (p', r) → sameSetup p p'.
Proof.
  revert p; induction srcs as [|src0 srcs IH]; intros p; simpl.
  { intros [= <- <-]. apply sameSetup_refl. }
  destruct (analyzeSrc fs src0 p) as [p1 r1] eqn:Hstep.
  apply analyzeSrc_spec in Hstep as [Hs _].
  destruct r1 as [[]| |]; [|by intros [= <- <-]..].
  intros Hrest%IH. by eapply sameSetup_trans.
Qed.

Lemma AnalyzeInput_parsed (fs : Node) (now : string) (p p' : Program)
    (text : string) :
  AnalyzeInput fs now p text = (p', Ok tt) →
  ∀ src, src ∈ Srcs p' → ∃ env, ParseEnvsFromSrc p' src = Ok env.
Proof.
  unfold AnalyzeInput.
  destruct (statPaths fs _ _) as [p1 r1] eqn:Hstat.
  destruct r1 as [[]| |]; [|done..]. intros Hrun src Hin.
  pose proof (analyzeSrcs_parsed _ _ _ _ Hrun) as Hparsed.
  apply analyzeSrcs_sameSetup in Hrun as Hs.
  rewrite (ParseEnvsFromSrc_sameSetup _ p') by done.
  apply Hparsed. destruct Hs as (_&_&_&_&_&_&HS&_). by rewrite <- HS.
Qed.

Lemma extractPaths_abs (text l : string) :
  l ∈ extractPaths text → strings.HasPrefix l "/" = true.
Proof. unfold extractPaths. by intros [? _]%list_elem_of_filter. Qed.

Lemma AnalyzeInput_abs (fs : Node) (now : string) (p p' : Program) (text : string) :
  AnalyzeInput fs now p text = (p', Ok tt) →
  ∀ src, src ∈ Srcs p' ∨ src ∈ NotExists p' → filepath.IsAbs src = true.
Proof.
  intros (HS & HN & _)%AnalyzeInput_analyzed src. rewrite HS, HN.
  unfold sortStrings. rewrite merge_sort_Permutation.
  intros [[_ Hin]%list_elem_of_filter|[_ Hin]%list_elem_of_filter];
    apply list_elem_of_fmap in Hin as (l & -> & Hl);
    by apply TrimSpace_slash, (extractPaths_abs text).
Qed.

Lemma omap_none {A B} (f : A → option B) (l : list A) :
  (∀ x, x ∈ l → f x = None) → omap f l = [].
Proof.
  induction l as [|x l IH]; intros H; simpl; [done|].
  rewrite (H x) by (by left). apply IH. intros y Hy. apply H. by right.
Qed.

Lemma omap_all {A B} (f : A → option B) (g : A → B) (l : list A) :
  (∀ x, x ∈ l → f x = Some (g x)) → omap f l = g <$> l.
Proof.
  induction l as [|x l IH]; intros H; simpl; [done|].
  rewrite (H x) by (by left). f_equal. apply IH. intros y Hy. apply H. by right.
Qed.

Lemma filter_none {A} (P : A → Prop) `{∀ x, Decision (P x)} (l : list A) :
  (∀ x, x ∈ l → ¬ P x) → filter P l = [].
Proof.
  induction l as [|x l IH]; intros HP; [done|].
  rewrite filter_cons_False by (apply HP; by left).
  apply IH. intros y Hy. apply HP. by right.
Qed.

Lemma unbound_config (p p' : Program) : config p' = config p → unbound p' = unbound p.
Proof. unfold unbound. intros [= _ _ -> _ -> -> _ _ _]. done. Qed.

Lemma AnalyzeInput_resolveSrc (fs : Node) (now : string) (p p' : Program)
    (text : string) :
  AnalyzeInput fs now p text = (p', Ok tt) →
  ∀ src, src ∈ Srcs p' →
    match last (unbound p) with
    | Some name =>
      resolveSrc p' src
      = Err (Errorf ("unknown environ variable in dest: $" +:+ name))
    | None => ∃ d, resolveSrc p' src = Ok d
    end.
Proof.
  intros Hrun src Hin.
  destruct (AnalyzeInput_parsed _ _ _ _ _ Hrun src Hin) as [env Henv].
  rewrite (resolveSrc_cases p' src env Henv).
  2:{ apply (AnalyzeInput_abs _ _ _ _ _ Hrun). by left. }
  rewrite (unbound_config p p').
  2:{ pose proof (AnalyzeInput_config fs now p text) as Hc.
      by rewrite Hrun in Hc. }
  destruct (last (unbound p)); eauto.
Qed.

(** X11: whether a source is invalid does not depend on the source.  After an
    analysis without error, either every reference of the pattern is [DATE]
    or a key of the settings, and then no source is invalid and each has its
    destination; or some reference is not, and then every source is invalid,
    with the same error, which names the last such reference, and there is
    no destination and no group at all. *)
Theorem AnalyzeInput_uniform (fs : Node) (now : string) (p p' : Program)
    (text : string) :
  AnalyzeInput fs now p text = (p', Ok tt) →
  match last (unbound p) with
  | None =>
    Invalids p' = [] ∧ ∀ src, src ∈ Srcs p' → is_Some (DestDir p' !! src)
  | Some name =>
    DestDirSrcs p' = ∅ ∧ DestDir p' = ∅ ∧
    Invalids p'
    = (λ src, src +:+ " (unknown environ variable in dest: $" +:+ name +:+ ")")
        <$> Srcs p'
  end.
Proof.
  intros Hrun.
  pose proof (AnalyzeInput_resolveSrc _ _ _ _ _ Hrun) as Hres.
  apply AnalyzeInput_analyzed in Hrun as (_ & _ & [Hg Hd Hi]).
  destruct (last (unbound p)) as [name|].
  - split; [|split].
    + apply map_empty. intros d. rewrite Hg. unfold groupOf.
      rewrite filter_none; [done|].
      intros src Hin. rewrite (Hres src Hin). done.
    + apply map_empty. intros src.
      destruct (DestDir p' !! src) as [d|] eqn:Hsrc; [|done].
      apply Hd in Hsrc as [Hin Hr]. by rewrite (Hres src Hin) in Hr.
    + rewrite Hi. apply omap_all. intros src Hin.
      unfold invalidLine. by rewrite (Hres src Hin).
  - split.
    + rewrite Hi. apply omap_none. intros src Hin.
      unfold invalidLine. by destruct (Hres src Hin) as [d ->].
    + intros src Hin. destruct (Hres src Hin) as [d Hr].
      exists d. by apply Hd.
Qed.

Lemma AnalyzeInput_uniform_witness :
  AnalyzeInput exampleFS "260101" exampleProgram exampleText
  = ((AnalyzeInput exampleFS "260101" exampleProgram exampleText).1, Ok tt) ∧
  last (unbound exampleProgram) = None ∧
  Invalids (AnalyzeInput exampleFS "260101" exampleProgram exampleText).1 = [].
Proof.
  assert (AnalyzeInput exampleFS "260101" exampleProgram exampleText
          = ((AnalyzeInput exampleFS "260101" exampleProgram exampleText).1, Ok tt))
    as Hrun by (vm_compute; reflexivity).
  assert (last (unbound exampleProgram) = None) as Hu by (vm_compute; reflexivity).
  split; [exact Hrun|]. split; [exact Hu|].
  pose proof (AnalyzeInput_uniform _ _ _ _ _ Hrun) as H.
  rewrite Hu in H. exact (proj1 H).
Defined.

(** ** The sources and the paths not found *)

Section Sources.
  Context (fs : Node).

  (** What the first loop knows of the paths it has sorted out. *)
Definition statInv (p : Program) : Prop :=
    (∀ src, src ∈ Srcs p →
       ∃ b, SrcIsDir p !! src = Some b ∧ os.Stat fs src = Ok b) ∧
    (∀ src, src ∈ NotExists p → os.node fs src = Err ENOENT).

Lemma statPaths_inv (paths : list string) (p p' : Program) :
    statInv p → statPaths fs paths p = (p', Ok tt) → statInv p'.
  Proof.
    revert p; induction paths as [|src0 paths IH]; intros p Hinv; simpl.
    { by intros [= <-]. }
    destruct Hinv as [HS HN].
    destruct (os.Stat fs (strings.TrimSpace src0)) as [fi|err|] eqn:Hstat;
      [| |done].
    - apply IH. split; simpl; [|done].
      intros src Hin.
      destruct (decide (src = strings.TrimSpace src0)) as [->|Hne].
      + exists fi. by rewrite lookup_insert_eq.
      + rewrite lookup_insert_ne by done. apply HS.
        apply elem_of_app in Hin as [Hin|Hin%list_elem_of_singleton]; done.
    - destruct (IsNotExist err) eqn:Hne; simpl; [|done].
      apply IH. split; simpl; [done|].
      intros src [Hin|Hin%list_elem_of_singleton]%elem_of_app; [by apply HN|].
      subst src. unfold os.Stat in Hstat.
      destruct (os.node fs (strings.TrimSpace src0)) as [n|errno|]; [done| |done].
      injection Hstat as <-. by destruct errno.
  Qed.

Lemma AnalyzeInput_statInv (now : string) (p p' : Program) (text : string) :
    AnalyzeInput fs now p text = (p', Ok tt) → statInv p'.
  Proof.
    unfold AnalyzeInput.
    destruct (statPaths fs _ _) as [p1 r1] eqn:Hstat.
    destruct r1 as [[]| |]; [|done..].
    apply statPaths_inv in Hstat as [HS HN].
    2:{ split; simpl; by intros src ?%elem_of_nil. }
    intros (_&_&_&_&_&_&HS'&HN'&HD')%analyzeSrcs_sameSetup. simpl in *.
    split.
    - intros src. rewrite HS', HD'. unfold sortStrings.
      rewrite merge_sort_Permutation. apply HS.
    - intros src. rewrite HN'. apply HN.
  Qed.

End Sources.

(** X12: after an analysis without error, [Srcs] holds the candidate paths of
    the text that [os.Stat] finds, each without the white space around it,
    as often as the text has them and in the order of [sort.Strings];
    [NotExists] holds the others, in the order of the text.  Every one of
    them is an absolute path; a path of [NotExists] is absent from the file
    system, and [SrcIsDir] tells for a path of [Srcs] whether it is a
    directory. *)
Theorem AnalyzeInput_sources (fs : Node) (now : string) (p p' : Program)
    (text : string) :
  AnalyzeInput fs now p text = (p', Ok tt) →
  Srcs p' ≡ₚ filter (λ s, found fs s = true)
               (strings.TrimSpace <$> extractPaths text) ∧
  StronglySorted String.le (Srcs p') ∧
  NotExists p'
  = filter (λ s, found fs s ≠ true) (strings.TrimSpace <$> extractPaths text) ∧
  (∀ src, src ∈ Srcs p' →
     filepath.IsAbs src = true ∧
     os.Stat fs src = Ok (flag (SrcIsDir p') src)) ∧
  (∀ src, src ∈ NotExists p' →
     filepath.IsAbs src = true ∧ os.node fs src = Err ENOENT).
Proof.
  intros Hrun.
  pose proof (AnalyzeInput_abs _ _ _ _ _ Hrun) as Habs.
  pose proof (AnalyzeInput_statInv _ _ _ _ _ Hrun) as [HS HN].
  apply AnalyzeInput_analyzed in Hrun as (HSrcs & HNot & _).
  split; [rewrite HSrcs; apply merge_sort_Permutation|].
  split; [rewrite HSrcs; apply StronglySorted_merge_sort; apply _|].
  split; [done|]. split.
  - intros src Hin. split; [apply Habs; by left|].
    destruct (HS src Hin) as (b & Hb & Hstat). unfold flag. by rewrite Hb.
  - intros src Hin. split; [apply Habs; by right | by apply HN].
Qed.

Lemma AnalyzeInput_sources_witness :
  AnalyzeInput exampleFS "260101" exampleProgram exampleText
  = ((AnalyzeInput exampleFS "260101" exampleProgram exampleText).1, Ok tt) ∧
  StronglySorted String.le
    (Srcs (AnalyzeInput exampleFS "260101" exampleProgram exampleText).1).
Proof.
  assert (AnalyzeInput exampleFS "260101" exampleProgram exampleText
          = ((AnalyzeInput exampleFS "260101" exampleProgram exampleText).1, Ok tt))
    as Hrun by (vm_compute; reflexivity).
  split; [exact Hrun|].
  exact (proj1 (proj2 (AnalyzeInput_sources _ _ _ _ _ Hrun))).
Defined.

(** ** Whether a destination exists *)

Section DestDirExists.
  Context (fs : Node).

Lemma analyzeSrc_exists (src : string) (p p' : Program) :
    analyzeSrc fs src p = (p', Ok tt) →
    match resolveSrc p src with
    | Ok d =>
      DestDirExists p'
      = match DestDirExists p !! d with
        | Some _ => DestDirExists p
        | None => <[d := found fs d]> (DestDirExists p)
        end
    | _ => DestDirExists p' = DestDirExists p
    end.
  Proof.
    unfold analyzeSrc, resolveSrc, found.
    destruct (ParseEnvsFromSrc p src) as [env|err|]; simpl; [|done..].
    destruct (destDirectory src (DestPattern p) _) as [d|err|]; simpl.
    2,3: by intros [= <-].
    intros Hrun. by repeat case_match; simplify_eq/=.
  Qed.

  (** The state of the second loop: [DestDirExists] has the keys of
      [DestDirSrcs], and tells whether [os.Stat] finds them. *)
Definition existsInv (p : Program) : Prop :=
    ∀ d, DestDirExists p !! d = (λ _, found fs d) <$> DestDirSrcs p !! d.

Lemma analyzeSrc_existsInv (src : string) (p p' : Program) :
    existsInv p → analyzeSrc fs src p = (p', Ok tt) → existsInv p'.
  Proof.
    intros Hinv Hrun d.
    pose proof (analyzeSrc_exists _ _ _ Hrun) as HE.
    apply analyzeSrc_spec in Hrun as [_ Hspec].
    destruct (resolveSrc p src) as [d0|err|]; [| |done].
    - destruct Hspec as (_ & -> & _). rewrite HE.
      destruct (decide (d0 = d)) as [->|Hne].
      + rewrite lookup_insert_eq. simpl.
        destruct (DestDirExists p !! d) as [b|] eqn:Hb.
        * rewrite Hb. rewrite Hinv in Hb.
          by destruct (DestDirSrcs p !! d); simplify_eq/=.
        * by rewrite lookup_insert_eq.
      + rewrite lookup_insert_ne by done.
        destruct (DestDirExists p !! d0); [done|].
        by rewrite lookup_insert_ne.
    - destruct Hspec as (_ & _ & -> & _). by rewrite HE.
  Qed.

Lemma analyzeSrcs_existsInv (srcs : list string) (p p' : Program) :
    existsInv p → analyzeSrcs fs srcs p = (p', Ok tt) → existsInv p'.
  Proof.
    revert p; induction srcs as [|src srcs IH]; intros p Hinv; simpl.
    { by intros [= <-]. }
    destruct (analyzeSrc fs src p) as [p1 r1] eqn:Hstep.
    destruct r1 as [[]| |]; [|done..].
    apply IH. by eapply analyzeSrc_existsInv.
  Qed.

Lemma statPaths_tables (paths : list string) (p : Program) :
    DestDirExists (statPaths fs paths p).1 = DestDirExists p ∧
    SrcDirFileCount (statPaths fs paths p).1 = SrcDirFileCount p ∧
    DestDirSrcs (statPaths fs paths p).1 = DestDirSrcs p.
  Proof.
    revert p; induction paths as [|src paths IH]; intros p; simpl; [done|].
    destruct (os.Stat fs _) as [fi|err|]; [by rewrite !(proj1 (IH _)),
      !(proj1 (proj2 (IH _))), !(proj2 (proj2 (IH _)))| |done].
    destruct (IsNotExist err); simpl; [|done].
    by rewrite !(proj1 (IH _)), !(proj1 (proj2 (IH _))), !(proj2 (proj2 (IH _))).
  Qed.

Lemma AnalyzeInput_existsInv (now : string) (p p' : Program) (text : string) :
    AnalyzeInput fs now p text = (p', Ok tt) → existsInv p'.
  Proof.
    unfold AnalyzeInput.
    set (p0 := setToday now _).
    pose proof (statPaths_tables (extractPaths text) p0) as (HE & _ & HG).
    destruct (statPaths fs _ _) as [p1 r1] eqn:Hstat.
    destruct r1 as [[]| |]; [|done..].
    apply analyzeSrcs_existsInv.
    intros d. simpl in *. by rewrite HE, HG, !lookup_empty.
  Qed.

End DestDirExists.

(** X13: after an analysis without error, [DestDirExists] has an entry for
    each destination that has a group, and for no other path; the entry
    tells whether [os.Stat] finds something at the destination. *)
Theorem AnalyzeInput_dest_exists (fs : Node) (now : string) (p p' : Program)
    (text : string) :
  AnalyzeInput fs now p text = (p', Ok tt) →
  ∀ d, DestDirExists p' !! d
       = match DestDirSrcs p' !! d with
         | Some _ =>
           Some (match os.Stat fs d with
                 | Ok _ => true
                 | _ => false
                 end)
         | None => None
         end.
Proof.
  intros Hinv%AnalyzeInput_existsInv d. rewrite Hinv.
  by destruct (DestDirSrcs p' !! d).
Qed.

Lemma AnalyzeInput_dest_exists_witness :
  AnalyzeInput exampleFS "260101" exampleProgram exampleText
  = ((AnalyzeInput exampleFS "260101" exampleProgram exampleText).1, Ok tt) ∧
  DestDirExists (AnalyzeInput exampleFS "260101" exampleProgram exampleText).1
    !! "/out/x/260101" = Some false.
Proof.
  assert (AnalyzeInput exampleFS "260101" exampleProgram exampleText
          = ((AnalyzeInput exampleFS "260101" exampleProgram exampleText).1, Ok tt))
    as Hrun by (vm_compute; reflexivity).
  split; [exact Hrun|].
  rewrite (AnalyzeInput_dest_exists _ _ _ _ _ Hrun "/out/x/260101").
  vm_compute. reflexivity.
Defined.

(** ** The number of files of a directory source *)

Section Counting.
  Context (src : string).

  (** What a walk with [countFiles] makes of the count of [src], over a tree
      of [n] files: the walk counts every file until the count is over 1000;
      after that it leaves the directory it is in at once, and counts the
      first file of each directory it still gets to. *)
Definition counted (n : nat) (counts counts' : gmap string nat)
      (r : WalkResult) : Prop :=
    (∀ s, s ≠ src → counts' !! s = counts !! s) ∧
    match r with
    | WalkErr _ => True
    | WalkPanic => False
    | _ =>
      count counts src ≤ count counts' src ≤ count counts src + n ∧
      (count counts' src ≤ 1000 → count counts' src = count counts src + n) ∧
      (r = SkipDir → 1000 < count counts' src)
    end.

Lemma counted_seq (n1 n2 : nat) (c0 c1 c2 : gmap string nat) (r : WalkResult) :
    counted n1 c0 c1 WalkNil → counted n2 c1 c2 r → counted (n1 + n2) c0 c2 r.
  Proof.
    intros [Ho1 (Hb1 & He1 & _)] [Ho2 H2]. split.
    { intros s Hs. by rewrite Ho2, Ho1. }
    destruct r; [|..|done|done];
      destruct H2 as (Hb2 & He2 & Hs2); (split; [lia|]); (split; [lia|done]).
  Qed.

Lemma counted_skip (n1 n2 : nat) (c0 c1 : gmap string nat) :
    counted n1 c0 c1 SkipDir → counted (n1 + n2) c0 c1 WalkNil.
  Proof.
    intros [Ho1 (Hb1 & He1 & Hs1)]. split; [done|].
    specialize (Hs1 eq_refl). split; [lia|]. split; [lia | done].
  Qed.

Lemma walkDir_File {St : Type} join
      (fn : St → string → option bool → option error → St * WalkResult)
      (path content : string) (st : St) :
    walkDir join fn path (File content) st = fn st path (Some false) None.
  Proof. simpl. by destruct (fn st path (Some false) None). Qed.

Lemma countFiles_file (counts : gmap string nat) (path : string) :
    countFiles src counts path (Some false) None
    = (<[src := count counts src + 1]> counts,
       if decide (1000 < count (<[src := count counts src + 1]> counts) src)
       then SkipDir else WalkNil).
  Proof. unfold countFiles. by destruct (decide _). Qed.

Lemma walkDir_count join (n : Node) (path : string)
      (counts counts' : gmap string nat) (r : WalkResult) :
    walkDir join (countFiles src) path n counts = (counts', r) →
    counted (length (files n)) counts counts' r.
  Proof.
    revert path counts counts' r.
    induction n as [content|readable entries IH] using Node_ind_entries;
      intros path counts counts' r.
    - rewrite walkDir_File, countFiles_file. simpl.
      set (c1 := <[src := count counts src + 1]> counts).
      assert (count c1 src = count counts src + 1) as Hc
        by (unfold count, c1; by rewrite lookup_insert_eq).
      assert (∀ s, s ≠ src → c1 !! s = counts !! s) as Ho
        by (intros; unfold c1; by rewrite lookup_insert_ne).
      clearbody c1. intros [= <- <-]. split; [done|].
      destruct (decide _); (split; [lia|]); (split; [lia|done]).
    - rewrite walkDir_Dir, files_Dir. simpl.
      destruct readable; [|by intros [= <- <-]].
      revert counts counts' r.
      induction entries as [|[name child] entries IHentries];
        intros counts counts' r; simpl.
      { intros [= <- <-]. split; [done|]. split; [lia|]. split; [lia|done]. }
      apply Forall_cons in IH as [IHchild IH]. simpl in IHchild.
      rewrite length_app, length_fmap.
      destruct (walkDir join _ (join path name) child counts) as [c1 r1] eqn:Hw.
      apply IHchild in Hw.
      destruct r1.
      + intros Hrest%IHentries; [|done]. by eapply counted_seq.
      + intros [= <- <-]. by apply counted_skip.
      + intros [= <- <-]. by destruct Hw.
      + by destruct Hw.
  Qed.

Lemma WalkDir_count_other (fs : Node) (dir : string)
      (counts counts' : gmap string nat) (r : WalkResult) :
    fs.WalkDir fs dir (countFiles src) counts = (counts', r) →
    ∀ s, s ≠ src → counts' !! s = counts !! s.
  Proof.
    unfold fs.WalkDir, walkRoot.
    destruct (os.node fs dir) as [tree|errno|]; simpl.
    - destruct (walkDir _ _ "." tree counts) as [c1 r1] eqn:Hw.
      apply walkDir_count in Hw as [Ho _].
      by destruct r1; intros [= <- <-].
    - by intros [= <- <-].
    - by intros [= <- <-].
  Qed.

Lemma WalkDir_count (fs : Node) (dir : string) (tree : Node)
      (counts counts' : gmap string nat) (r : WalkResult) :
    os.node fs dir = Ok tree →
    fs.WalkDir fs dir (countFiles src) counts = (counts', r) →
    counted (length (files tree)) counts counts' r ∧ r ≠ SkipDir.
  Proof.
    unfold fs.WalkDir, walkRoot. intros ->.
    destruct (walkDir _ _ "." tree counts) as [c1 r1] eqn:Hw.
    apply walkDir_count in Hw.
    destruct r1; intros [= <- <-]; (split; [|done]); [done| |done..].
    destruct Hw as [Ho (Hb & He & Hs)]. split; [done|]. split; [done|].
    split; [done|]. done.
  Qed.

End Counting.

Section FileCount.
  Context (fs : Node).

Lemma analyzeSrc_counts (src : string) (p p' : Program) :
    analyzeSrc fs src p = (p', Ok tt) →
    match resolveSrc p src with
    | Ok _ =>
      if flag (SrcIsDir p) src then
        ∃ r, fs.WalkDir fs src (countFiles src) (SrcDirFileCount p)
             = (SrcDirFileCount p', r) ∧
             (r = WalkNil ∨ r = SkipDir)
      else SrcDirFileCount p' = SrcDirFileCount p
    | _ => SrcDirFileCount p' = SrcDirFileCount p
    end.
  Proof.
    unfold analyzeSrc, resolveSrc.
    destruct (ParseEnvsFromSrc p src) as [env|err|]; simpl; [|done..].
    destruct (destDirectory src (DestPattern p) _) as [d|err|]; simpl.
    2,3: by intros [= <-].
    destruct (flag (SrcIsDir p) src) eqn:Hflag.
    - destruct (fs.WalkDir fs src _ _) as [counts r] eqn:Hw. simpl.
      intros Hrun. exists r.
      by repeat case_match; simplify_eq/=; auto.
    - intros Hrun. by repeat case_match; simplify_eq/=.
  Qed.

  (** The sources equal to [s]. *)
Definition occurrences (s : string) (srcs : list string) : nat :=
    length (filter (λ src, src = s) srcs).

Lemma analyzeSrcs_counts (srcs : list string) (p p' : Program) (s : string) :
    analyzeSrcs fs srcs p = (p', Ok tt) →
    let k0 := count (SrcDirFileCount p) s in
    let k := count (SrcDirFileCount p') s in
    ((flag (SrcIsDir p) s = false ∨ ∀ d, resolveSrc p s ≠ Ok d) → k = k0) ∧
    ∀ d tree, resolveSrc p s = Ok d → flag (SrcIsDir p) s = true →
      os.node fs s = Ok tree →
      k0 ≤ k ≤ k0 + occurrences s srcs * length (files tree) ∧
      (k ≤ 1000 → k = k0 + occurrences s srcs * length (files tree)).
  Proof.
    revert p; induction srcs as [|src0 srcs IH]; intros p; simpl.
    { intros [= <-]. split; [done|]. intros d tree _ _ _. unfold occurrences.
      simpl. lia. }
    destruct (analyzeSrc fs src0 p) as [p1 r1] eqn:Hstep.
    destruct r1 as [[]| |]; [|done..]. intros Hrest.
    pose proof (analyzeSrc_spec fs _ _ _ _ Hstep) as [Hs _].
    apply analyzeSrc_counts in Hstep.
    destruct (IH _ Hrest) as [IHsame IHtree]. clear IH.
    assert (flag (SrcIsDir p1) s = flag (SrcIsDir p) s) as Hflag.
    { destruct Hs as (_&_&_&_&_&_&_&_&HD). by rewrite HD. }
    rewrite Hflag in IHsame, IHtree.
    assert (∀ d, resolveSrc p1 s = Ok d ↔ resolveSrc p s = Ok d) as Hres
      by (intros d; by rewrite (resolveSrc_sameSetup p p1)).
    assert ((∀ d, resolveSrc p s ≠ Ok d) → ∀ d, resolveSrc p1 s ≠ Ok d) as Hres'
      by (intros H d; rewrite Hres; apply H).
    assert (occurrences s (src0 :: srcs)
            = if decide (src0 = s) then S (occurrences s srcs)
              else occurrences s srcs) as ->.
    { unfold occurrences. rewrite filter_cons. by destruct (decide _). }
    destruct (decide (src0 = s)) as [->|Hne].
    - split.
      + intros Hor. rewrite IHsame by (destruct Hor; auto).
        destruct Hor as [Hf|Hr].
        * rewrite Hf in Hstep. by destruct (resolveSrc p s); rewrite Hstep.
        * destruct (resolveSrc p s) as [d| |]; [by destruct (Hr d)|..];
            by rewrite Hstep.
      + intros d tree Hd Hf Htree. rewrite Hd, Hf in Hstep.
        destruct Hstep as (r & Hw & Hr).
        apply (WalkDir_count _ _ _ tree) in Hw as [[_ Hw] _]; [|done].
        assert (count (SrcDirFileCount p) s ≤ count (SrcDirFileCount p1) s
                ≤ count (SrcDirFileCount p) s + length (files tree) ∧
                (count (SrcDirFileCount p1) s ≤ 1000 →
                 count (SrcDirFileCount p1) s
                 = count (SrcDirFileCount p) s + length (files tree)))
          as [Hb1 He1] by (destruct Hr as [->| ->]; naive_solver).
        apply Hres in Hd.
        destruct (IHtree d tree Hd Hf Htree) as [Hb He]. split; [lia|].
        intros Hk. specialize (He Hk). lia.
    - assert (count (SrcDirFileCount p1) s = count (SrcDirFileCount p) s) as Hk1.
      { destruct (resolveSrc p src0); [|by rewrite Hstep..].
        destruct (flag (SrcIsDir p) src0); [|by rewrite Hstep].
        destruct Hstep as (r & Hw & _).
        unfold count. by rewrite (WalkDir_count_other _ _ _ _ _ _ Hw s). }
      rewrite <- Hk1. split.
      + intros Hor. apply IHsame. destruct Hor; auto.
      + intros d tree Hd Hf Htree. apply Hres in Hd. by eapply IHtree.
  Qed.

End FileCount.

Lemma AnalyzeInput_counted (fs : Node) (now : string) (p p' : Program)
    (text src d : string) (tree : Node) :
  AnalyzeInput fs now p text = (p', Ok tt) →
  DestDir p' !! src = Some d →
  os.node fs src = Ok tree →
  let n := occurrences src (Srcs p') * length (files tree) in
  let k := count (SrcDirFileCount p') src in
  if isDir tree then (n ≤ 1000 → k = n) ∧ (1000 < n → 1000 < k ≤ n)
  else k = 0.
Proof.
  intros Hrun Hd Htree.
  pose proof (AnalyzeInput_statInv _ _ _ _ _ Hrun) as [HS _].
  pose proof (AnalyzeInput_analyzed _ _ _ _ _ Hrun) as (_ & _ & [_ Hdest _]).
  apply Hdest in Hd as [Hin Hres].
  destruct (HS src Hin) as (b & Hb & Hstat).
  unfold os.Stat in Hstat. rewrite Htree in Hstat. injection Hstat as <-.
  revert Hrun. unfold AnalyzeInput.
  set (p0 := setToday now _).
  pose proof (statPaths_tables fs (extractPaths text) p0) as (_ & HC & _).
  destruct (statPaths fs _ _) as [p1 r1] eqn:Hstat.
  destruct r1 as [[]| |]; [|done..]. intros Hrun.
  pose proof (analyzeSrcs_sameSetup _ _ _ _ _ Hrun) as Hs.
  pose proof (analyzeSrcs_counts fs _ _ _ src Hrun) as [Hsame Hbounds].
  assert (count (SrcDirFileCount (setSrcs (sortStrings (Srcs p1)) p1)) src = 0)
    as Hzero by (simpl in *; unfold count; by rewrite HC, lookup_empty).
  rewrite Hzero in Hsame, Hbounds.
  assert (flag (SrcIsDir (setSrcs (sortStrings (Srcs p1)) p1)) src = isDir tree)
    as Hflag.
  { destruct Hs as (_&_&_&_&_&_&_&_&HD). rewrite <- HD. unfold flag.
    by rewrite Hb. }
  rewrite (resolveSrc_sameSetup _ p') in Hres by done.
  assert (Srcs p' = sortStrings (Srcs p1)) as HSrcs
    by (by destruct Hs as (_&_&_&_&_&_&->&_)).
  rewrite HSrcs. simpl in *.
  destruct (isDir tree).
  - destruct (Hbounds d tree Hres Hflag Htree) as [Hb1 He1]. split; lia.
  - apply Hsame. by left.
Qed.

(** X14: the count of a directory source.  After an analysis without error,
    for a source that has a destination, [SrcDirFileCount] holds 0 when the
    source is a file; when it is a directory with [n] files below it, at any
    depth, named once in the text, it holds [n] if [n] is at most 1000, and
    otherwise a number over 1000 that is at most [n]; a directory named [m]
    times in the text is counted [m] times, so [n] is then [m] times its
    number of files. *)
Theorem AnalyzeInput_file_count (fs : Node) (now : string) (p p' : Program)
    (text src d : string) (tree : Node) :
  AnalyzeInput fs now p text = (p', Ok tt) →
  DestDir p' !! src = Some d →
  os.node fs src = Ok tree →
  let n := occurrences src (Srcs p') * length (files tree) in
  let k := count (SrcDirFileCount p') src in
  if isDir tree then (n ≤ 1000 → k = n) ∧ (1000 < n → 1000 < k ≤ n)
  else k = 0.
Proof. apply AnalyzeInput_counted. Qed.

Lemma AnalyzeInput_file_count_witness :
  AnalyzeInput readableFS "260101" treeProgram "/in/d"
  = ((AnalyzeInput readableFS "260101" treeProgram "/in/d").1, Ok tt) ∧
  (∃ d, DestDir (AnalyzeInput readableFS "260101" treeProgram "/in/d").1
          !! "/in/d" = Some d) ∧
  (∃ tree, os.node readableFS "/in/d" = Ok tree ∧ isDir tree = true ∧
           length (files tree) = 3) ∧
  count (SrcDirFileCount (AnalyzeInput readableFS "260101" treeProgram "/in/d").1)
    "/in/d" = 3.
Proof.
  assert (AnalyzeInput readableFS "260101" treeProgram "/in/d"
          = ((AnalyzeInput readableFS "260101" treeProgram "/in/d").1, Ok tt))
    as Hrun by (vm_compute; reflexivity).
  assert (DestDir (AnalyzeInput readableFS "260101" treeProgram "/in/d").1
            !! "/in/d" = Some "/out") as Hd by (vm_compute; reflexivity).
  assert (∃ tree, os.node readableFS "/in/d" = Ok tree ∧ isDir tree = true ∧
                  length (files tree) = 3) as (tree & Htree & Hdir & Hn)
    by (vm_compute; eexists; split; [reflexivity | split; reflexivity]).
  split; [exact Hrun|]. split; [exists "/out"; exact Hd|].
  split; [exists tree; split; [exact Htree | split; [exact Hdir | exact Hn]]|].
  pose proof (AnalyzeInput_file_count _ _ _ _ _ _ _ _ Hrun Hd Htree) as H.
  rewrite Hdir, Hn in H. cbv beta iota zeta in H.
  etrans; [apply (proj1 H); vm_compute; lia | vm_compute; reflexivity].
Defined.

(** * More on the copy *)

(** ** What exists stays *)

Section Stays.
Import fsfacts.

(** Everything found in [n] is found in [n']. *)
Definition stays (n n' : Node) : Prop :=
  ∀ elems x, lookupNode elems n = Ok x → ∃ x', lookupNode elems n' = Ok x'.

Lemma stays_refl n : stays n n.
Proof. intros ? ? ?. eauto. Qed.

Lemma stays_trans n1 n2 n3 : stays n1 n2 → stays n2 n3 → stays n1 n3.
Proof. intros H1 H2 l x Hx. destruct (H1 l x Hx) as [x' Hx']. by eapply H2. Qed.

Lemma mkdirAllNode_stays (l : list string) (n n' : Node) :
  mkdirAllNode l n = Ok n' → stays n n'.
Proof.
  revert n n'; induction l as [|e l IH]; intros [c|r entries] n'; simpl;
    try done.
  - intros [= <-]. apply stays_refl.
  - destruct (entry e entries) as [child|] eqn:He.
    + destruct (mkdirAllNode l child) as [child'| |] eqn:Hc; [|done..].
      simpl. intros [= <-] [|e0 rest] x; [by eauto|]. simpl.
      destruct (decide (e0 = e)) as [->|Hne].
      * rewrite He, entry_setEntry_eq. by apply IH.
      * rewrite entry_setEntry_ne by done. eauto.
    + intros [= <-] [|e0 rest] x; [by eauto|]. simpl.
      destruct (decide (e0 = e)) as [->|Hne]; [by rewrite He|].
      rewrite entry_setEntry_ne by done. eauto.
Qed.

(** [putNode] at a place that holds no directory. *)
Lemma putNode_stays (new : option Node → result Errno Node)
    (l : list string) (n n' : Node) :
  putNode new l n = Ok n' →
  (∀ r entries, lookupNode l n ≠ Ok (Dir r entries)) →
  stays n n'.
Proof.
  revert n n'; induction l as [|e l IH]; intros n n'; simpl.
  - intros _ Hnd [|e0 rest] x; [by eauto|].
    destruct n as [c|r entries]; [done | by destruct (Hnd r entries)].
  - destruct n as [c|r entries]; [done|].
    destruct l as [|e' l].
    + destruct (new (entry e entries)) as [x0| |]; [|done..].
      simpl. intros [= <-] Hnd [|e0 rest] x; [by eauto|]. simpl.
      destruct (decide (e0 = e)) as [->|Hne].
      * rewrite entry_setEntry_eq.
        destruct (entry e entries) as [[c|r' es]|]; [|by destruct (Hnd r' es)|done].
        destruct rest; [by eauto | done].
      * rewrite entry_setEntry_ne by done. eauto.
    + destruct (entry e entries) as [child|] eqn:He; [|done].
      destruct (putNode new (e' :: l) child) as [child'| |] eqn:Hc; [|done..].
      simpl. intros [= <-] Hnd [|e0 rest] x; [by eauto|]. simpl.
      destruct (decide (e0 = e)) as [->|Hne].
      * rewrite He, entry_setEntry_eq. by eapply IH.
      * rewrite entry_setEntry_ne by done. eauto.
Qed.

Lemma lookupNode_newDirs (l : list string) :
  lookupNode l (newDirs l) = Ok (Dir true []).
Proof. induction l as [|e l IH]; simpl; [done|]. by rewrite decide_True. Qed.

(** The directory that [mkdirAllNode] makes where nothing was is empty. *)
Lemma mkdirAllNode_fresh (l : list string) (n n' : Node) :
  lookupNode l n = Err ENOENT → mkdirAllNode l n = Ok n' →
  lookupNode l n' = Ok (Dir true []).
Proof.
  revert n n'; induction l as [|e l IH]; intros [c|r entries] n'; simpl;
    try done.
  destruct (entry e entries) as [child|] eqn:He.
  - intros Hl. destruct (mkdirAllNode l child) as [child'| |] eqn:Hc; [|done..].
    simpl. intros [= <-]. simpl. rewrite entry_setEntry_eq. by apply (IH child).
  - intros _ [= <-]. simpl. rewrite entry_setEntry_eq. apply lookupNode_newDirs.
Qed.

(** [putNode] succeeds where something is found, when [new] does. *)
Lemma putNode_at (new : option Node → result Errno Node)
    (l : list string) (n y x : Node) :
  lookupNode l n = Ok y → new (Some y) = Ok x →
  ∃ n', putNode new l n = Ok n' ∧ lookupNode l n' = Ok x.
Proof.
  revert n; induction l as [|e l IH]; intros n; simpl.
  - intros [= ->] Hx. by exists x.
  - destruct n as [c|r entries]; [done|].
    destruct (entry e entries) as [child|] eqn:He; [|done].
    destruct l as [|e' l].
    + intros [= ->] Hx. rewrite Hx. simpl. eexists. split; [done|].
      simpl. by rewrite entry_setEntry_eq.
    + intros Hl Hx. destruct (IH child Hl Hx) as (child' & -> & Hc).
      simpl. eexists. split; [done|].
      cbn [lookupNode]. by rewrite entry_setEntry_eq.
Qed.

(** In terms of paths. *)
Definition staysPaths (fs fs' : Node) : Prop :=
  ∀ path n, os.node fs path = Ok n → ∃ n', os.node fs' path = Ok n'.

Lemma stays_staysPaths fs fs' : stays fs fs' → staysPaths fs fs'.
Proof.
  intros Hs path n. unfold os.node. destruct (decide (path = "")); [done|].
  apply Hs.
Qed.

Lemma MkdirAll_stays (fs fs' : Node) (path : string) (err : option error) :
  os.MkdirAll fs path = (fs', err) → stays fs fs'.
Proof.
  unfold os.MkdirAll. destruct (decide (path = ""));
    [intros [= <- <-]; apply stays_refl|].
  destruct (mkdirAllNode _ fs) as [fs1| |] eqn:Hm; intros [= <- <-];
    [by eapply mkdirAllNode_stays | apply stays_refl..].
Qed.

Lemma Link_stays (fs fs' : Node) (old new : string) (err : option error) :
  os.Link fs old new = (fs', err) → stays fs fs'.
Proof.
  unfold os.Link.
  destruct (os.node fs old) as [[content|r entries]| |];
    try (intros [= <- <-]; apply stays_refl).
  destruct (decide (new = "")); [intros [= <- <-]; apply stays_refl|].
  destruct (putNode _ _ fs) as [fs1| |] eqn:Hput; intros [= <- <-];
    [|apply stays_refl..].
  eapply putNode_stays; [done|]. intros r entries Hd.
  apply putNode_found in Hput as (x & Hnew & _). by rewrite Hd in Hnew.
Qed.

Lemma Create_stays (fs fs' : Node) (name : string) (err : option error) :
  os.Create fs name = (fs', err) → stays fs fs'.
Proof.
  unfold os.Create.
  destruct (decide (name = "")); [intros [= <- <-]; apply stays_refl|].
  destruct (putNode _ _ fs) as [fs1| |] eqn:Hput; intros [= <- <-];
    [|apply stays_refl..].
  eapply putNode_stays; [done|]. intros r entries Hd.
  apply putNode_found in Hput as (x & Hnew & _). by rewrite Hd in Hnew.
Qed.

(** Writing to a file that is there. *)
Lemma write_at (fs : Node) (name content c : string) :
  lookupNode (pathElems name) fs = Ok (File c) →
  lookupNode (pathElems name) (os.write fs name content) = Ok (File content) ∧
  stays fs (os.write fs name content) ∧
  ∀ elems c', elems ≠ pathElems name →
    lookupNode elems fs = Ok (File c') →
    lookupNode elems (os.write fs name content) = Ok (File c').
Proof.
  intros Hc. unfold os.write.
  destruct (putNode_at (λ _, Ok (File content)) _ _ _ (File content) Hc eq_refl)
    as (fs1 & Hput & Hl).
  rewrite Hput. split; [done|]. split.
  - eapply putNode_stays; [done|]. intros ? ?. congruence.
  - intros elems c' Hne Hf. eapply putNode_other; [done| |done..].
    intros ? ?. congruence.
Qed.

End Stays.

(** ** [copyFile] *)

Section CopyFile.
Import fsfacts.

Lemma Create_new (fs fs' : Node) (name : string) :
  os.Create fs name = (fs', None) →
  name ≠ "" ∧ lookupNode (pathElems name) fs' = Ok (File "") ∧
  ∀ elems c, elems ≠ pathElems name →
    lookupNode elems fs = Ok (File c) → lookupNode elems fs' = Ok (File c).
Proof.
  unfold os.Create. destruct (decide (name = "")); [done|].
  destruct (putNode _ _ fs) as [fs1| |] eqn:Hput; [|done|].
  2:{ apply putNode_no_panic in Hput; [done|]. by intros [[]|]. }
  intros [= <-]. split; [done|].
  pose proof (putNode_found _ _ _ _ Hput) as (x & Hnew & Hx).
  split.
  - destruct (lookupNode (pathElems name) fs) as [[?|? ?]| |];
      simpl in Hnew; congruence.
  - intros elems c Hne Hf. eapply putNode_other; [done| |done..].
    intros r entries Hd. by rewrite Hd in Hnew.
Qed.

Lemma copyFile_result (fs fs' : Node) (src dest content : string) :
  os.node fs src = Ok (File content) →
  copyFile fs src dest = (fs', None) →
  os.node fs' dest
  = Ok (File (if decide (pathElems src = pathElems dest) then "" else content)) ∧
  ∀ path c, pathElems path ≠ pathElems dest →
    os.node fs path = Ok (File c) → os.node fs' path = Ok (File c).
Proof.
  intros Hsrc. unfold copyFile. rewrite Hsrc.
  destruct (os.Create fs dest) as [fs1 [e1|]] eqn:Hcreate; [done|].
  apply Create_new in Hcreate as (Hd & Hnew & Hother).
  assert (src ≠ "") as Hs by (intros ->; done).
  unfold os.node in *. rewrite decide_False in Hsrc |- * by done.
  rewrite (decide_False (P := dest = "")) by done.
  assert (lookupNode (pathElems src) fs1
          = Ok (File (if decide (pathElems src = pathElems dest)
                      then "" else content))) as Hsrc1.
  { destruct (decide (pathElems src = pathElems dest)) as [->|Hne]; [done|].
    by apply Hother. }
  rewrite Hsrc1. intros [= <-].
  destruct (write_at fs1 dest
              (if decide (pathElems src = pathElems dest) then "" else content)
              "" Hnew) as (Hw & _ & Hwo).
  split; [done|].
  intros path c Hne. destruct (decide (path = "")); [done|].
  intros Hf. apply Hwo; [done|]. by apply Hother.
Qed.

End CopyFile.


(** ** The directory of a destination *)

Section DirOfClean.
Import paths.

(** A clean path is the root, or one name below its [filepath.Dir]. *)
Lemma pathElems_Dir_cases (path : string) :
  pathElems (filepath.Clean path) = [] ∨
  ∃ e, pathElems (filepath.Clean path)
       = pathElems (filepath.Dir (filepath.Clean path)) ++ [e].
Proof.
  rewrite (pathElems_Clean path).
  destruct (Clean_shape path) as (k & Hns & [-> | ->]).
  - destruct (pathElems path) as [|e es _] using rev_ind.
    + by left.
    + right. apply Forall_app in Hns as [Hes He]. inv He.
      rewrite Dir_abs_snoc, pathElems_abs by done. by exists e.
  - unfold filepath.Dir. rewrite pathElems_Clean. fold (dirPart (rel k (pathElems path))).
    unfold rel. destruct (decide _) as [Hnil|Hne].
    { left. by apply app_eq_nil in Hnil as [_ ?]. }
    pose proof (dots_slashFree k _ Hns) as Hsf.
    destruct (pathElems path) as [|e ns _] using rev_ind; [by left|].
    right. exists e.
    rewrite app_assoc in *. apply Forall_app in Hns as [Hns He]. inv He.
    apply Forall_app in Hsf as [Hsf Hse]. inv Hse.
    destruct (decide (replicate k ".." ++ ns = [])) as [Hk|Hk].
    + apply app_eq_nil in Hk as [Hk ->]. rewrite app_nil_r in *.
      destruct k; [|done]. simpl. by rewrite dirPart_slashFree by done.
    + rewrite joinSlash_snoc, dirPart_snoc by done.
      unfold pathElems.
      change (filepath.joinSlash (replicate k ".." ++ ns) +:+ "/")
        with (filepath.joinSlash (replicate k ".." ++ ns) +:+ String "/" "").
      rewrite SplitByte_app, SplitByte_joinSlash by done.
      rewrite <- app_assoc, cleanElems_dots, cleanElems_app.
      rewrite (cleanElems_names true ns) by done. simpl.
      by rewrite !reverse_involutive.
Qed.

End DirOfClean.

(** ** One file of a copy *)

Section CopyOne.
Import fsfacts.
Context (p : Program).

Lemma Link_ok (fs fs' : Node) (s d : string) :
  os.Link fs s d = (fs', None) →
  ∃ content, os.node fs s = Ok (File content) ∧
             os.node fs' d = Ok (File content).
Proof.
  unfold os.Link.
  destruct (os.node fs s) as [[content|r entries]| |] eqn:Hs; [|done..|].
  2:{ by apply node_no_panic in Hs. }
  destruct (decide (d = "")) as [|Hd]; [done|].
  destruct (putNode _ _ fs) as [fs1| |] eqn:Hput; [|done|].
  2:{ apply putNode_no_panic in Hput; [done|]. by intros [?|]. }
  intros [= <-]. exists content. split; [done|].
  apply putNode_found in Hput as (x & Hnew & Hx).
  unfold os.node. rewrite decide_False by done.
  destruct (lookupNode (pathElems d) fs) as [?| |]; simpl in Hnew; congruence.
Qed.

Lemma copyFile_ok (fs fs' : Node) (s d : string) :
  copyFile fs s d = (fs', None) →
  (∃ c, os.node fs' d = Ok (File c)) ∧ stays fs fs'.
Proof.
  unfold copyFile.
  destruct (os.node fs s) as [ns| |] eqn:Hs; [|done|].
  2:{ by apply node_no_panic in Hs. }
  destruct (os.Create fs d) as [fs1 [e1|]] eqn:Hcreate; [done|].
  pose proof (Create_stays _ _ _ _ Hcreate) as Hst.
  apply Create_new in Hcreate as (Hd & Hnew & _).
  destruct (os.node fs1 s) as [[content|r entries]| |] eqn:Hs1; [|done..|].
  2:{ by apply node_no_panic in Hs1. }
  intros [= <-].
  destruct (write_at fs1 d content "" Hnew) as (Hw & Hws & _).
  split.
  - exists content. unfold os.node. by rewrite decide_False.
  - by eapply stays_trans.
Qed.

Lemma copyFunc_ok (fs fs' : Node) (s d : string) (errno : Errno) :
  copyFunc p fs s d = (fs', None) → os.node fs d = Err errno →
  (∃ c, os.node fs' d = Ok (File c)) ∧ stays fs fs' ∧
  ∀ content, os.node fs s = Ok (File content) →
             os.node fs' d = Ok (File content).
Proof.
  unfold copyFunc. destruct (decide (Method p = "copy")); intros Hrun Hd.
  - destruct (copyFile_ok _ _ _ _ Hrun) as [Hex Hst].
    split; [done|]. split; [done|]. intros content Hs.
    destruct (copyFile_result _ _ _ _ _ Hs Hrun) as [Hres _].
    rewrite decide_False in Hres; [done|]. intros Heq.
    unfold os.node in Hs, Hd.
    destruct (decide (s = "")); [done|]. destruct (decide (d = "")).
    + subst d. unfold copyFile, os.Create in Hrun.
      rewrite decide_True in Hrun by done.
      by destruct (os.node fs s) as [[?|? ?]| |].
    + congruence.
  - pose proof (Link_stays _ _ _ _ _ Hrun) as Hst.
    apply Link_ok in Hrun as (content & Hs & Hd').
    split; [eauto|]. split; [done|]. intros c Hc. congruence.
Qed.

Lemma Join_shape (a b : string) :
  filepath.Join a b = "" ∨ ∃ y, filepath.Join a b = filepath.Clean y.
Proof. unfold filepath.Join. repeat case_decide; eauto. Qed.

(** A successful turn of the loop over [subPath] found something at the
    destination and left it, or found nothing and made the file there, after
    the directories on the way. *)
Lemma copyOne_cases (destDir : string) (fs fs' : Node) (s sub : string) :
  copyOne p destDir fs s sub = (fs', Ok tt) →
  (∃ n, os.node fs (filepath.Join destDir sub) = Ok n ∧ fs' = fs) ∨
  (os.node fs (filepath.Join destDir sub) = Err ENOENT ∧
   ∃ fs1, keeps fs fs1 ∧ stays fs fs1 ∧
          os.node fs1 (filepath.Join destDir sub) = Err ENOENT ∧
          copyFunc p fs1 s (filepath.Join destDir sub) = (fs', None)).
Proof.
  unfold copyOne.
  set (d := filepath.Join destDir sub). set (dDir := filepath.Dir d).
  assert (∀ fs0 err, os.Lstat fs0 d = Err err → IsNotExist err = true →
                     os.node fs0 d = Err ENOENT) as Hlstat.
  { intros fs0 err. unfold os.Lstat.
    destruct (os.node fs0 d) as [?|errno|]; [done| |done].
    intros [= <-]. by destruct errno. }
  destruct (os.Stat fs dDir) as [b|err|] eqn:Hstat; [| |done].
  - destruct (os.Lstat fs d) as [b'|err|] eqn:Hl; [| |done].
    + intros [= <-]. left. unfold os.Lstat in Hl.
      destruct (os.node fs d) as [n| |]; [eauto | done..].
    + destruct (IsNotExist err) eqn:Hne; simpl; [|done].
      destruct (copyFunc p fs s d) as [fs2 [e|]] eqn:Hc; [done|].
      intros [= <-]. right. split; [by eapply Hlstat|].
      exists fs. split; [apply keeps_refl|]. split; [apply stays_refl|].
      split; [by eapply Hlstat | done].
  - destruct (IsNotExist err) eqn:Hne; simpl; [|done].
    destruct (os.MkdirAll fs dDir) as [fs1 [e|]] eqn:Hm; [done|].
    assert (os.node fs dDir = Err ENOENT) as HdDir.
    { unfold os.Stat in Hstat.
      destruct (os.node fs dDir) as [?|errno|]; [done| |done].
      injection Hstat as <-. by destruct errno. }
    assert (os.node fs d = Err ENOENT ∧ os.node fs1 d = Err ENOENT) as [Hd Hd1].
    { destruct (Join_shape destDir sub) as [Hj|[y Hj]]; fold d in Hj.
      { exfalso. unfold dDir in HdDir. rewrite Hj in HdDir. done. }
      assert (d ≠ "") as Hdne by (rewrite Hj; apply paths.Clean_nonempty).
      assert (dDir ≠ "") as HdDirne by apply paths.Clean_nonempty.
      unfold os.node in HdDir |- *. unfold os.MkdirAll in Hm.
      rewrite decide_False in HdDir by done.
      rewrite decide_False in Hm by done.
      rewrite !(decide_False (P := d = "")) by done.
      destruct (mkdirAllNode (pathElems dDir) fs) as [fs1'| |] eqn:Hmk; [|done|].
      2:{ by apply mkdirAllNode_no_panic in Hmk. }
      injection Hm as ->.
      pose proof (mkdirAllNode_fresh _ _ _ HdDir Hmk) as Hfresh.
      pose proof (pathElems_Dir_cases y) as Hcases.
      pose proof (paths.pathElems_Dir_Clean y) as [k Hk].
      rewrite <- Hj in Hcases, Hk. fold dDir in Hcases, Hk.
      destruct Hcases as [Hroot|[e He]].
      { rewrite Hroot in Hk. symmetry in Hk. apply app_eq_nil in Hk as [Hk _].
        by rewrite Hk in HdDir. }
      rewrite He, !lookupNode_app, HdDir, Hfresh. done. }
    destruct (os.Lstat fs1 d) as [b'|err'|] eqn:Hl; [| |done].
    { unfold os.Lstat in Hl. by rewrite Hd1 in Hl. }
    destruct (IsNotExist err'); simpl; [|done].
    destruct (copyFunc p fs1 s d) as [fs2 [e|]] eqn:Hc; [done|].
    intros [= <-]. right. split; [done|].
    exists fs1. split; [by eapply MkdirAll_keeps|].
    split; [by eapply MkdirAll_stays | done].
Qed.

Lemma copyOne_ok (destDir : string) (fs fs' : Node) (s sub : string) :
  copyOne p destDir fs s sub = (fs', Ok tt) →
  (∃ n, os.node fs' (filepath.Join destDir sub) = Ok n) ∧ stays fs fs'.
Proof.
  intros [(n & Hn & ->)|(Hd & fs1 & _ & Hst & Hd1 & Hc)]%copyOne_cases.
  { split; [eauto | apply stays_refl]. }
  destruct (copyFunc_ok _ _ _ _ _ Hc Hd1) as ([c Hc'] & Hst' & _).
  split; [eauto | by eapply stays_trans].
Qed.

Lemma copyOne_new (destDir : string) (fs fs' : Node) (s sub content : string)
    (errno : Errno) :
  copyOne p destDir fs s sub = (fs', Ok tt) →
  os.node fs s = Ok (File content) →
  os.node fs (filepath.Join destDir sub) = Err errno →
  os.node fs' (filepath.Join destDir sub) = Ok (File content).
Proof.
  intros [(n & Hn & ->)|(_ & fs1 & Hk & _ & Hd1 & Hc)]%copyOne_cases Hs Hd.
  { congruence. }
  destruct (copyFunc_ok _ _ _ _ _ Hc Hd1) as (_ & _ & Hcontent).
  apply Hcontent. by apply (keeps_keepsFiles _ _ Hk).
Qed.

End CopyOne.

(** X16: one turn of the loop over [subPath], with either method: when the
    source is a file and nothing is at the destination path, a turn that
    returns no error leaves at the destination a file with the content of
    the source, below directories made on the way where they were missing;
    the source is as it was. *)
Theorem copyOne_materializes (p : Program) (destDir : string) (fs fs' : Node)
    (s sub content : string) (errno : Errno) :
  copyOne p destDir fs s sub = (fs', Ok tt) →
  os.node fs s = Ok (File content) →
  os.node fs (filepath.Join destDir sub) = Err errno →
  os.node fs' (filepath.Join destDir sub) = Ok (File content) ∧
  os.node fs' s = Ok (File content) ∧
  ∃ n, os.node fs' (filepath.Dir (filepath.Join destDir sub)) = Ok n.
Proof.
  intros Hrun Hs Hd.
  pose proof (copyOne_new _ _ _ _ _ _ _ _ Hrun Hs Hd) as Hnew.
  split; [done|]. split.
  - apply (fsfacts.keeps_keepsFiles fs); [|done]. by eapply copyOne_keeps.
  - by eapply node_Dir_Join.
Qed.

Lemma copyOne_materializes_witness :
  copyOne treeProgram "/out/new" readableFS "/in/d/a.txt" "a.txt"
  = ((copyOne treeProgram "/out/new" readableFS "/in/d/a.txt" "a.txt").1, Ok tt) ∧
  os.node readableFS "/in/d/a.txt" = Ok (File "A") ∧
  os.node readableFS (filepath.Join "/out/new" "a.txt") = Err ENOENT ∧
  os.node (copyOne treeProgram "/out/new" readableFS "/in/d/a.txt" "a.txt").1
    (filepath.Join "/out/new" "a.txt") = Ok (File "A").
Proof.
  assert (copyOne treeProgram "/out/new" readableFS "/in/d/a.txt" "a.txt"
          = ((copyOne treeProgram "/out/new" readableFS "/in/d/a.txt" "a.txt").1,
             Ok tt)) as Hrun by (vm_compute; reflexivity).
  assert (os.node readableFS "/in/d/a.txt" = Ok (File "A")) as Hs
    by (vm_compute; reflexivity).
  assert (os.node readableFS (filepath.Join "/out/new" "a.txt") = Err ENOENT)
    as Hd by (vm_compute; reflexivity).
  split; [exact Hrun|]. split; [exact Hs|]. split; [exact Hd|].
  exact (proj1 (copyOne_materializes _ _ _ _ _ _ _ _ Hrun Hs Hd)).
Defined.

(** ** A whole copy *)

(** A [range] statement visits every entry of a map, and nothing else. *)
Definition rangeOK (range : ∀ V : Type, gmap string V → list (string * V))
  : Prop :=
  ∀ V (m : gmap string V) k v, (k, v) ∈ range V m ↔ m !! k = Some v.

Lemma rangeList_OK : rangeOK rangeList.
Proof. intros V m k v. apply elem_of_map_to_list. Qed.

(** A plan whose sources are all files. *)
Definition plainSources (p : Program) : Prop :=
  ∀ d srcs s, DestDirSrcs p !! d = Some srcs → s ∈ srcs →
              flag (SrcIsDir p) s = false.

Section CopyAll.
Import fsfacts.
Context (p : Program).

Lemma subPaths_plain (fs : Node) (srcs : list string) (m : gmap string string) :
  (∀ s, s ∈ srcs → flag (SrcIsDir p) s = false) →
  ∃ m', subPaths p fs srcs m = Ok m' ∧
        ∀ s sub, m' !! s = Some sub ↔
                 (s ∈ srcs ∧ sub = filepath.Base s) ∨
                 (s ∉ srcs ∧ m !! s = Some sub).
Proof.
  revert m; induction srcs as [|src srcs IH]; intros m Hplain; simpl.
  { exists m. split; [done|]. intros s sub. rewrite elem_of_nil. naive_solver. }
  rewrite Hplain by (by left).
  destruct (IH (<[src := filepath.Base src]> m)) as (m' & -> & Hm').
  { intros s Hs. apply Hplain. by right. }
  exists m'. split; [done|]. intros s sub. rewrite Hm', elem_of_cons.
  destruct (decide (s = src)) as [->|Hne].
  - rewrite lookup_insert_eq. destruct (decide (src ∈ srcs)); naive_solver.
  - rewrite lookup_insert_ne by done. naive_solver.
Qed.

Lemma copyPairs_ok (destDir : string) (pairs : list (string * string))
    (fs fs' : Node) :
  copyPairs p destDir pairs fs = (fs', Ok tt) →
  stays fs fs' ∧
  ∀ s sub, (s, sub) ∈ pairs →
           ∃ n, os.node fs' (filepath.Join destDir sub) = Ok n.
Proof.
  revert fs; induction pairs as [|[s0 sub0] pairs IH]; intros fs; simpl.
  { intros [= <-]. split; [apply stays_refl|]. by intros s sub ?%elem_of_nil. }
  destruct (copyOne p destDir fs s0 sub0) as [fs1 r1] eqn:Hone.
  destruct r1 as [[]|e|]; [|done..].
  apply copyOne_ok in Hone as [[n Hn] Hst1].
  intros [Hst Hex]%IH. split; [by eapply stays_trans|].
  intros s sub [[= -> ->]|Hin]%elem_of_cons; [|by apply (Hex s)].
  by eapply (stays_staysPaths _ _ Hst).
Qed.

Lemma copyPairs_skip (destDir : string) (pairs : list (string * string))
    (fs : Node) :
  (∀ s sub, (s, sub) ∈ pairs →
            ∃ n, os.node fs (filepath.Join destDir sub) = Ok n) →
  copyPairs p destDir pairs fs = (fs, Ok tt).
Proof.
  induction pairs as [|[s0 sub0] pairs IH]; intros Hex; simpl; [done|].
  destruct (Hex s0 sub0) as [n Hn]; [by left|].
  rewrite (copyOne_skip p destDir fs s0 sub0 (isDir n)).
  2:{ unfold os.Lstat. by rewrite Hn. }
  apply IH. intros s sub Hin. apply (Hex s). by right.
Qed.

Context (range : ∀ V : Type, gmap string V → list (string * V)).
Context (Hrange : rangeOK range).

Lemma copyGroups_ok (groups : list (string * list string)) (fs fs' : Node) :
  (∀ d srcs s, (d, srcs) ∈ groups → s ∈ srcs → flag (SrcIsDir p) s = false) →
  copyGroups range p groups fs = (fs', Ok tt) →
  stays fs fs' ∧
  ∀ d srcs s, (d, srcs) ∈ groups → s ∈ srcs →
    ∃ n, os.node fs' (filepath.Join d (filepath.Base s)) = Ok n.
Proof.
  revert fs; induction groups as [|[d0 srcs0] groups IH]; intros fs Hplain; simpl.
  { intros [= <-]. split; [apply stays_refl|]. by intros d srcs s ?%elem_of_nil. }
  destruct (subPaths_plain fs srcs0 ∅) as (m & -> & Hm).
  { intros s Hs. apply (Hplain d0 srcs0); [by left | done]. }
  destruct (copyPairs p d0 _ fs) as [fs1 r1] eqn:Hpairs.
  destruct r1 as [[]|e|]; [|done..].
  apply copyPairs_ok in Hpairs as [Hst1 Hex1].
  intros [Hst Hex]%IH.
  2:{ intros d srcs s Hin. apply (Hplain d srcs). by right. }
  split; [by eapply stays_trans|].
  intros d srcs s [[= -> ->]|Hin]%elem_of_cons Hs; [|by apply (Hex d srcs)].
  destruct (Hex1 s (filepath.Base s)) as [n Hn].
  { apply Hrange, Hm. by left. }
  by eapply (stays_staysPaths _ _ Hst).
Qed.

Lemma copyGroups_skip (groups : list (string * list string)) (fs : Node) :
  (∀ d srcs s, (d, srcs) ∈ groups → s ∈ srcs → flag (SrcIsDir p) s = false) →
  (∀ d srcs s, (d, srcs) ∈ groups → s ∈ srcs →
     ∃ n, os.node fs (filepath.Join d (filepath.Base s)) = Ok n) →
  copyGroups range p groups fs = (fs, Ok tt).
Proof.
  induction groups as [|[d0 srcs0] groups IH]; intros Hplain Hex; simpl; [done|].
  destruct (subPaths_plain fs srcs0 ∅) as (m & -> & Hm).
  { intros s Hs. apply (Hplain d0 srcs0); [by left | done]. }
  rewrite copyPairs_skip.
  - apply IH.
    + intros d srcs s Hin. apply (Hplain d srcs). by right.
    + intros d srcs s Hin. apply (Hex d srcs). by right.
  - intros s sub [[Hs ->]|[_ Hs]]%Hrange%Hm; [|by rewrite lookup_empty in Hs].
    apply (Hex d0 srcs0); [by left | done].
Qed.

End CopyAll.

Lemma plainSources_Forall (p : Program) :
  map_Forall (λ _ srcs, Forall (λ s, flag (SrcIsDir p) s = false) srcs)
    (DestDirSrcs p) →
  plainSources p.
Proof.
  intros Hall d srcs s Hd Hs. specialize (Hall d srcs Hd).
  rewrite Forall_forall in Hall. by apply Hall.
Qed.

(** The plan of the small batch, once the caller has set [Analyzed]. *)
Definition analyzedExample : Program :=
  setAnalyzed true (AnalyzeInput exampleFS "260101" exampleProgram exampleText).1.

(** X17: a copy of sources that are all files, when it returns no error,
    leaves something at the destination of every source of the plan: the
    path made of the destination directory of its group and of its base
    name.  (What is there is the new file, or what was there before: a
    path that exists is skipped.) *)
Theorem Copy_materializes (range : ∀ V : Type, gmap string V → list (string * V))
    (p : Program) (fs fs' : Node) :
  rangeOK range → plainSources p →
  Copy range p fs = (fs', Ok tt) →
  ∀ d srcs s, DestDirSrcs p !! d = Some srcs → s ∈ srcs →
    ∃ n, os.node fs' (filepath.Join d (filepath.Base s)) = Ok n.
Proof.
  intros Hrange Hplain. unfold Copy.
  destruct (negb (Analyzed p)); [done|].
  intros Hrun d srcs s Hd Hs.
  pose proof (Hrange _ (DestDirSrcs p)) as HR.
  apply (copyGroups_ok p range Hrange) in Hrun as [_ Hex].
  - apply (Hex d srcs s); [by apply HR | done].
  - intros d' srcs' s' Hin%HR Hs'. by apply (Hplain d' srcs').
Qed.

Lemma Copy_materializes_witness :
  rangeOK rangeList ∧ plainSources analyzedExample ∧
  Copy rangeList analyzedExample exampleFS
  = ((Copy rangeList analyzedExample exampleFS).1, Ok tt) ∧
  DestDirSrcs analyzedExample !! "/out/x/260101" = Some ["/in/x_y"] ∧
  ∃ n, os.node (Copy rangeList analyzedExample exampleFS).1
         (filepath.Join "/out/x/260101" (filepath.Base "/in/x_y")) = Ok n.
Proof.
  assert (plainSources analyzedExample) as Hplain
    by (apply plainSources_Forall; by_compute).
  assert (Copy rangeList analyzedExample exampleFS
          = ((Copy rangeList analyzedExample exampleFS).1, Ok tt)) as Hrun
    by (vm_compute; reflexivity).
  assert (DestDirSrcs analyzedExample !! "/out/x/260101" = Some ["/in/x_y"])
    as Hd by (vm_compute; reflexivity).
  assert ("/in/x_y" ∈ ["/in/x_y"]) as Hs by by_compute.
  split; [exact rangeList_OK|]. split; [exact Hplain|].
  split; [exact Hrun|]. split; [exact Hd|].
  exact (Copy_materializes rangeList _ _ _ rangeList_OK Hplain Hrun _ _ _ Hd Hs).
Defined.

(** X18: a copy of sources that are all files, run again on the file system
    that a first run without error left, changes nothing and returns no
    error, in whatever order the two runs visit the maps: every
    destination is found and skipped. *)
Theorem Copy_again (range range' : ∀ V : Type, gmap string V → list (string * V))
    (p : Program) (fs fs' : Node) :
  rangeOK range → rangeOK range' → plainSources p →
  Copy range p fs = (fs', Ok tt) →
  Copy range' p fs' = (fs', Ok tt).
Proof.
  intros Hrange Hrange' Hplain Hrun.
  assert (∀ d srcs s, DestDirSrcs p !! d = Some srcs → s ∈ srcs →
            ∃ n, os.node fs' (filepath.Join d (filepath.Base s)) = Ok n) as Hex.
  { revert Hrun. unfold Copy. destruct (negb (Analyzed p)); [done|].
    intros Hrun d srcs s Hd Hs.
    pose proof (Hrange _ (DestDirSrcs p)) as HR.
    apply (copyGroups_ok p range Hrange) in Hrun as [_ Hex].
    - apply (Hex d srcs s); [by apply HR | done].
    - intros d' srcs' s' Hin%HR Hs'. by apply (Hplain d' srcs'). }
  revert Hrun. unfold Copy. destruct (negb (Analyzed p)); [done|]. intros _.
  pose proof (Hrange' _ (DestDirSrcs p)) as HR'.
  apply (copyGroups_skip p range' Hrange').
  - intros d srcs s Hin%HR' Hs. by apply (Hplain d srcs).
  - intros d srcs s Hin%HR' Hs. by apply (Hex d srcs).
Qed.

Lemma Copy_again_witness :
  rangeOK rangeList ∧ plainSources analyzedExample ∧
  Copy rangeList analyzedExample exampleFS
  = ((Copy rangeList analyzedExample exampleFS).1, Ok tt) ∧
  Copy rangeList analyzedExample (Copy rangeList analyzedExample exampleFS).1
  = ((Copy rangeList analyzedExample exampleFS).1, Ok tt).
Proof.
  assert (plainSources analyzedExample) as Hplain
    by (apply plainSources_Forall; by_compute).
  assert (Copy rangeList analyzedExample exampleFS
          = ((Copy rangeList analyzedExample exampleFS).1, Ok tt)) as Hrun
    by (vm_compute; reflexivity).
  split; [exact rangeList_OK|]. split; [exact Hplain|]. split; [exact Hrun|].
  exact (Copy_again rangeList rangeList _ _ _ rangeList_OK rangeList_OK
           Hplain Hrun).
Defined.

(** * The mapper, the sample and the reports *)

(** ** [stringMapper] *)

Fixpoint hasByte (c : ascii) (s : string) : bool :=
  match s with
  | "" => false
  | String a r => bool_decide (a = c) || hasByte c r
  end.

(** [strings.Join(elems, sep)] for a one-byte separator. *)
Fixpoint joinWith (sep : ascii) (elems : list string) : string :=
  match elems with
  | [] => ""
  | [e] => e
  | e :: elems' => e +:+ String sep (joinWith sep elems')
  end.

Lemma SplitByte_free (c : ascii) (e : string) :
  hasByte c e = false → strings.SplitByte e c = [e].
Proof.
  induction e as [|a r IH]; simpl; [done|].
  intros [Ha Hr]%orb_false_elim. rewrite Ha, (IH Hr). done.
Qed.

Lemma SplitByte_joinWith (c : ascii) (elems : list string) :
  Forall (λ e, hasByte c e = false) elems → elems ≠ [] →
  strings.SplitByte (joinWith c elems) c = elems.
Proof.
  induction elems as [|e elems IH]; intros Hall Hne; [done|].
  apply Forall_cons in Hall as [He Hall].
  destruct elems as [|e' elems]; [by apply SplitByte_free|].
  change (joinWith c (e :: e' :: elems))
    with (e +:+ String c (joinWith c (e' :: elems))).
  by rewrite paths.SplitByte_app, SplitByte_free, IH.
Qed.

(** The tokens of a list of pairs. *)
Definition tokens (kvs : list (string * string)) : list string :=
  flat_map (λ kv, [kv.1; kv.2]) kvs.

Lemma mapPairs_tokens (kvs : list (string * string)) (odd : list string)
    (m : gmap string string) :
  length odd ≤ 1 →
  mapPairs (tokens kvs ++ odd) m = foldl (λ m kv, <[kv.1 := kv.2]> m) m kvs.
Proof.
  intros Hodd. revert m; induction kvs as [|[k v] kvs IH]; intros m; simpl.
  - by destruct odd as [|x [|y odd]]; simpl in *; try lia.
  - apply IH.
Qed.

Lemma lookup_inserts_other (m : gmap string string)
    (kvs : list (string * string)) (k : string) :
  k ∉ kvs.*1 → foldl (λ m kv, <[kv.1 := kv.2]> m) m kvs !! k = m !! k.
Proof.
  revert m; induction kvs as [|[k' v'] kvs IH]; intros m Hk; simpl; [done|].
  rewrite fmap_cons, not_elem_of_cons in Hk. destruct Hk as [Hne Hk].
  rewrite IH by done. by rewrite lookup_insert_ne.
Qed.

Lemma lookup_inserts_last (m : gmap string string)
    (kvs1 kvs2 : list (string * string)) (k v : string) :
  k ∉ kvs2.*1 →
  foldl (λ m kv, <[kv.1 := kv.2]> m) m (kvs1 ++ (k, v) :: kvs2) !! k = Some v.
Proof.
  intros Hk. rewrite foldl_app. simpl.
  rewrite lookup_inserts_other by done. apply lookup_insert_eq.
Qed.

Lemma lookup_inserts_Some (m : gmap string string)
    (kvs : list (string * string)) (k v : string) :
  foldl (λ m kv, <[kv.1 := kv.2]> m) m kvs !! k = Some v →
  m !! k = Some v ∨ (k, v) ∈ kvs.
Proof.
  revert m; induction kvs as [|[k' v'] kvs IH]; intros m; simpl; [auto|].
  intros [Hm|Hin]%IH; [|right; by right].
  destruct (decide (k' = k)) as [->|Hne].
  - rewrite lookup_insert_eq in Hm. injection Hm as ->. right. by left.
  - rewrite lookup_insert_ne in Hm by done. by left.
Qed.

Lemma stringMapper_tokens (kvs : list (string * string)) (odd : list string) :
  Forall (λ e, hasByte "," e = false) (tokens kvs ++ odd) →
  length odd ≤ 1 →
  stringMapper (joinWith "," (tokens kvs ++ odd))
  = foldl (λ m kv, <[kv.1 := kv.2]> m) ∅ kvs.
Proof.
  intros Hfree Hodd. unfold stringMapper.
  destruct (decide (tokens kvs ++ odd = [])) as [Hnil|Hne].
  - rewrite Hnil. apply app_eq_nil in Hnil as [Hk _].
    by destruct kvs.
  - rewrite SplitByte_joinWith by done. by apply mapPairs_tokens.
Qed.

(** X19: [stringMapper] on pairs of tokens written with commas between
    them, with or without a last token that has no partner: the map sends
    the first token of each pair to the second, the last pair winning when
    a first token comes again; every entry of the map is such a pair, and
    the token without a partner is in none. *)
Theorem stringMapper_pairs (kvs : list (string * string)) (odd : list string) :
  Forall (λ e, hasByte "," e = false) (tokens kvs ++ odd) →
  length odd ≤ 1 →
  let mapper := stringMapper (joinWith "," (tokens kvs ++ odd)) in
  (∀ i k v, kvs !! i = Some (k, v) → k ∉ (drop (S i) kvs).*1 →
            mapper !! k = Some v) ∧
  (∀ k v, mapper !! k = Some v → (k, v) ∈ kvs).
Proof.
  intros Hfree Hodd mapper. unfold mapper.
  rewrite stringMapper_tokens by done. split.
  - intros i k v Hi Hlast.
    rewrite <- (take_drop_middle kvs i (k, v)) by done.
    by apply lookup_inserts_last.
  - intros k v [Hm|Hin]%lookup_inserts_Some; [|done].
    by rewrite lookup_empty in Hm.
Qed.

Lemma stringMapper_pairs_witness :
  Forall (λ e, hasByte "," e = false) (tokens [("a", "b"); ("c", "d")] ++ ["e"]) ∧
  joinWith "," (tokens [("a", "b"); ("c", "d")] ++ ["e"]) = "a,b,c,d,e" ∧
  stringMapper "a,b,c,d,e" !! "a" = Some "b" ∧
  stringMapper "a,b,c,d,e" !! "c" = Some "d" ∧
  ¬ is_Some (stringMapper "a,b,c,d,e" !! "e").
Proof.
  assert (Forall (λ e, hasByte "," e = false)
            (tokens [("a", "b"); ("c", "d")] ++ ["e"])) as Hfree
    by (repeat constructor).
  assert (length ["e"] ≤ 1) as Hodd by (simpl; lia).
  destruct (stringMapper_pairs _ _ Hfree Hodd) as [Hpairs Hentries].
  split; [exact Hfree|]. split; [reflexivity|].
  split; [apply (Hpairs 0); [reflexivity | by_compute]|].
  split; [apply (Hpairs 1); [reflexivity | by_compute]|].
  intros [v Hv]. apply Hentries in Hv. revert Hv. by_compute.
Defined.

(** ** [UI.Validate] *)

Lemma parseEnvs_no_panic (src : string) (seps keys : list string) :
  parseEnvs src seps keys ≠ Panic.
Proof.
  destruct (parseEnvs_outcomes src seps keys) as [[envs ->]|[->|[->| ->]]]; done.
Qed.

Lemma ParseEnvsFromSrc_no_panic (p : Program) (src : string) :
  ParseEnvsFromSrc p src ≠ Panic.
Proof.
  unfold ParseEnvsFromSrc.
  pose proof (parseEnvs_no_panic src (PathSeps p) (PathKeys p)).
  pose proof (parseEnvs_no_panic (filepath.Base src) (NameSeps p) (NameKeys p)).
  destruct (parseEnvs src _ _); simpl; [|done..].
  by destruct (parseEnvs (filepath.Base src) _ _).
Qed.

Lemma destDirectory_no_panic (src destPattern : string) (env : gmap string string) :
  destDirectory src destPattern env ≠ Panic.
Proof.
  rewrite destDirectory_cases. destruct (negb _); [done|]. by destruct (last _).
Qed.

(** X20: [Validate] reports an error for a destination that is blank, or
    that is not an absolute path once the variables of the process are
    expanded in it, and for nothing else: in every other case the error flag
    is as it was (it is unset when [HandleEvent] calls [Validate]), whatever
    the sample turns out to be.  It always returns. *)
Theorem Validate_error_flag (getenv : string → string) (now : string)
    (p : Program) (destText inputText : string) (n : Notice) :
  ∃ n', Validate getenv now p destText inputText n = Ok n' ∧
    (IsError n = false →
     (IsError n' = true ↔
      strings.TrimSpace destText = "" ∨
      strings.HasPrefix (ExpandEnv getenv (strings.TrimSpace destText)) "/"
      = false)).
Proof.
  unfold Validate.
  destruct (decide (strings.TrimSpace destText = "")) as [Hd|Hd].
  { eexists. split; [done|]. simpl. naive_solver. }
  destruct (strings.HasPrefix (ExpandEnv getenv _) "/") eqn:Habs; simpl.
  2:{ eexists. split; [done|]. simpl. naive_solver. }
  assert (∀ text, ∃ n', @Ok error Notice (mkNotice text (IsError n)) = Ok n' ∧
            (IsError n = false →
             (IsError n' = true ↔ strings.TrimSpace destText = "" ∨ true = false)))
    as Hsame.
  { intros text. eexists. split; [done|]. simpl. intros ->. naive_solver. }
  destruct (decide (strings.TrimSpace inputText = "")).
  { eexists. split; [done|]. simpl. naive_solver. }
  destruct (decide (samplePath _ = "")).
  { eexists. split; [done|]. simpl. naive_solver. }
  pose proof (ParseEnvsFromSrc_no_panic p
                (samplePath (strings.SplitByte inputText "010"))) as Hnp.
  destruct (ParseEnvsFromSrc p _) as [env|err|]; [|apply Hsame|done].
  pose proof (destDirectory_no_panic
                (samplePath (strings.SplitByte inputText "010")) destText
                (<["DATE" := now]> env)) as Hnp'.
  destruct (destDirectory _ destText _); [apply Hsame..|done].
Qed.















(** * More about the reports *)

(** The texts of the spans that can be clicked, in order. *)
Definition links (spans : list richtext.SpanStyle) : list string :=
  richtext.Content <$> filter (λ sp, richtext.Interactive sp = true) spans.

Lemma links_app (l1 l2 : list richtext.SpanStyle) :
  links (l1 ++ l2) = links l1 ++ links l2.
Proof. unfold links. by rewrite filter_app, fmap_app. Qed.

Lemma links_flat_map {A} (f : A → list richtext.SpanStyle) (g : A → list string)
    (l : list A) :
  (∀ x, x ∈ l → links (f x) = g x) → links (flat_map f l) = flat_map g l.
Proof.
  induction l as [|x l IH]; intros Hfg; simpl; [done|].
  rewrite links_app, Hfg by (by left). f_equal. apply IH.
  intros y Hy. apply Hfg. by right.
Qed.

Lemma flat_map_singleton {A} (l : list A) : flat_map (λ x, [x]) l = l.
Proof. induction l as [|x l IH]; simpl; [done|]. by rewrite IH. Qed.

Lemma links_listedPaths (title : string) (paths : list string) :
  links (listedPaths title paths) = paths.
Proof.
  unfold listedPaths. case_decide as Hlen.
  - rewrite !links_app.
    rewrite (links_flat_map _ (λ path, [path])) by done.
    by rewrite flat_map_singleton, app_nil_r.
  - by destruct paths.
Qed.

(** The line of a source: [srcName] and [destName] are the same name, so the
    comment is that of a directory, or empty. *)
Lemma srcSpans_line (p : Program) (src : string) :
  srcSpans p src =
  [richPath src;
   richText
     (if flag (SrcIsDir p) src then
        " (directory, containing "
        +:+ (if decide (1000 < count (SrcDirFileCount p) src) then "1000+"
             else Itoa (count (SrcDirFileCount p) src))
        +:+ " file"
        +:+ (if decide (1 < count (SrcDirFileCount p) src) then "s" else "")
        +:+ ")"
      else "");
   richText newline].
Proof.
  unfold srcSpans. cbv zeta.
  rewrite (decide_False (P := filepath.Base src ≠ filepath.Base src))
    by (by intros H).
  destruct (flag (SrcIsDir p) src); [|done].
  rewrite decide_True by done.
  by rewrite !Str.app_nil_l, !Str.app_assoc.
Qed.

Lemma links_srcSpans (p : Program) (src : string) : links (srcSpans p src) = [src].
Proof. by rewrite srcSpans_line. Qed.

Lemma links_groupSpans (p : Program) (dd : string) :
  links (groupSpans p dd) = dd :: default [] (DestDirSrcs p !! dd).
Proof.
  unfold groupSpans. rewrite !links_app.
  rewrite (links_flat_map _ (λ src, [src])) by (intros; apply links_srcSpans).
  rewrite flat_map_singleton.
  destruct (negb (flag (DestDirExists p) dd)); simpl; by rewrite app_nil_r.
Qed.

Lemma flat_map_groups (p : Program) (groups : list (string * list string)) :
  (∀ dd srcs, (dd, srcs) ∈ groups → DestDirSrcs p !! dd = Some srcs) →
  flat_map (λ dd, dd :: default [] (DestDirSrcs p !! dd)) groups.*1
  = flat_map (λ '(dd, srcs), dd :: srcs) groups.
Proof.
  induction groups as [|[dd srcs] groups IH]; intros Hg; simpl; [done|].
  rewrite (Hg dd srcs) by (by left). simpl. f_equal. f_equal.
  apply IH. intros dd' srcs' Hin. apply Hg. by right.
Qed.

Lemma analyzeInput_link_list
    (range : ∀ V : Type, gmap string V → list (string * V)) (p : Program) :
  rangeOK range →
  links (analyzeInput range p)
  = NotExists p ++ Invalids p
    ++ flat_map (λ '(dd, srcs), dd :: srcs) (range _ (DestDirSrcs p)).
Proof.
  intros Hrange. unfold analyzeInput.
  rewrite !links_app, !links_listedPaths.
  rewrite (links_flat_map _ (λ dd, dd :: default [] (DestDirSrcs p !! dd)))
    by (intros; apply links_groupSpans).
  rewrite flat_map_groups; [done|].
  intros dd srcs Hin. by apply Hrange.
Qed.

(** X22: what can be clicked in the report of an analysis: the paths of
    [NotExists], the lines of [Invalids], and then group after group, in the
    order of the [range] statement, the destination of the group and its
    sources. *)
Theorem analyzeInput_links
    (range : ∀ V : Type, gmap string V → list (string * V)) (p : Program) :
  rangeOK range →
  links (analyzeInput range p)
  = NotExists p ++ Invalids p
    ++ flat_map (λ '(dd, srcs), dd :: srcs) (range _ (DestDirSrcs p)).
Proof. apply analyzeInput_link_list. Qed.

Lemma analyzeInput_links_witness :
  rangeOK rangeList ∧
  links (analyzeInput rangeList
           (AnalyzeInput exampleFS "260101" exampleProgram exampleText).1)
  = ["/in/none"; "/out/z/260101"; "/in/z_w"; "/out/x/260101"; "/in/x_y"].
Proof.
  split; [exact rangeList_OK|].
  etrans; [exact (analyzeInput_links rangeList _ rangeList_OK)|].
  vm_compute. reflexivity.
Defined.

(** ** The line of a directory *)

Lemma within_app_l {A} (x pre l : list A) :
  (∃ before after, l = before ++ x ++ after) →
  ∃ before after, pre ++ l = before ++ x ++ after.
Proof.
  intros (before & after & ->). exists (pre ++ before), after.
  by rewrite <- app_assoc.
Qed.

Lemma within_app_r {A} (x l post : list A) :
  (∃ before after, l = before ++ x ++ after) →
  ∃ before after, l ++ post = before ++ x ++ after.
Proof.
  intros (before & after & ->). exists before, (after ++ post).
  by rewrite <- !app_assoc.
Qed.

Lemma within_flat_map {A B} (f : A → list B) (l : list A) (x : A) :
  x ∈ l → ∃ before after, flat_map f l = before ++ f x ++ after.
Proof.
  induction l as [|y l IH]; [by intros ?%elem_of_nil|].
  intros [->|Hin]%elem_of_cons; simpl.
  - by exists [], (flat_map f l).
  - by apply within_app_l, IH.
Qed.

Lemma within_trans {A} (x y l : list A) :
  (∃ before after, y = before ++ x ++ after) →
  (∃ before after, l = before ++ y ++ after) →
  ∃ before after, l = before ++ x ++ after.
Proof.
  intros Hx (before & after & ->). by apply within_app_l, within_app_r.
Qed.

Lemma analyzeInput_srcSpans
    (range : ∀ V : Type, gmap string V → list (string * V)) (p : Program)
    (dd : string) (srcs : list string) (src : string) :
  rangeOK range → DestDirSrcs p !! dd = Some srcs → src ∈ srcs →
  ∃ before after, analyzeInput range p = before ++ srcSpans p src ++ after.
Proof.
  intros Hrange Hdd Hsrc. unfold analyzeInput.
  assert (dd ∈ (range _ (DestDirSrcs p)).*1) as Hin.
  { apply list_elem_of_fmap. exists (dd, srcs). split; [done|]. by apply Hrange. }
  do 2 apply within_app_l.
  apply (within_trans _ (groupSpans p dd)); [|by apply within_flat_map].
  unfold groupSpans. rewrite Hdd. simpl default.
  do 3 apply within_app_l. apply within_app_r.
  by apply within_flat_map.
Qed.

Lemma AnalyzeInput_grouped (fs : Node) (now : string) (p p' : Program)
    (text src d : string) :
  AnalyzeInput fs now p text = (p', Ok tt) →
  DestDir p' !! src = Some d →
  ∃ srcs, DestDirSrcs p' !! d = Some srcs ∧ src ∈ srcs.
Proof.
  intros Hrun Hd.
  pose proof (AnalyzeInput_analyzed _ _ _ _ _ Hrun) as (_ & _ & [Hgroups Hdest _]).
  apply Hdest in Hd as [Hin Hres].
  rewrite Hgroups. unfold groupOf.
  assert (src ∈ filter (λ src, resolveSrc p' src = Ok d) (Srcs p')) as Hf
    by (by apply list_elem_of_filter).
  case_decide as Hnil; [by rewrite Hnil in Hf; apply elem_of_nil in Hf|].
  by eexists.
Qed.

Lemma AnalyzeInput_isDir (fs : Node) (now : string) (p p' : Program)
    (text src d : string) (tree : Node) :
  AnalyzeInput fs now p text = (p', Ok tt) →
  DestDir p' !! src = Some d →
  os.node fs src = Ok tree →
  flag (SrcIsDir p') src = isDir tree.
Proof.
  intros Hrun Hd Htree.
  pose proof (AnalyzeInput_statInv _ _ _ _ _ Hrun) as [HS _].
  pose proof (AnalyzeInput_analyzed _ _ _ _ _ Hrun) as (_ & _ & [_ Hdest _]).
  apply Hdest in Hd as [Hin Hres].
  destruct (HS src Hin) as (b & Hb & Hstat).
  unfold os.Stat in Hstat. rewrite Htree in Hstat. injection Hstat as <-.
  unfold flag. by rewrite Hb.
Qed.

(** What the report says of a directory with [n] files. *)
Definition directoryLine (n : nat) : string :=
  " (directory, containing "
  +:+ (if decide (1000 < n) then "1000+" else Itoa n)
  +:+ " file" +:+ (if decide (1 < n) then "s" else "") +:+ ")".

Lemma analyzeInput_directory_line
    (range : ∀ V : Type, gmap string V → list (string * V))
    (fs : Node) (now : string) (p p' : Program) (text src d : string)
    (tree : Node) :
  rangeOK range →
  AnalyzeInput fs now p text = (p', Ok tt) →
  DestDir p' !! src = Some d →
  os.node fs src = Ok tree →
  ∃ before after,
    analyzeInput range p'
    = before
      ++ [richPath src;
          richText
            (if isDir tree then
               directoryLine (occurrences src (Srcs p') * length (files tree))
             else "");
          richText newline]
      ++ after.
Proof.
  intros Hrange Hrun Hd Htree.
  destruct (AnalyzeInput_grouped _ _ _ _ _ _ _ Hrun Hd) as (srcs & Hg & Hin).
  destruct (analyzeInput_srcSpans range p' d srcs src Hrange Hg Hin)
    as (before & after & ->).
  exists before, after. f_equal. f_equal.
  rewrite srcSpans_line.
  rewrite (AnalyzeInput_isDir _ _ _ _ _ _ _ _ Hrun Hd Htree).
  pose proof (AnalyzeInput_counted _ _ _ _ _ _ _ _ Hrun Hd Htree) as Hc.
  cbv zeta in Hc.
  destruct (isDir tree); [|done].
  destruct Hc as [Hle Hgt]. unfold directoryLine.
  set (n := occurrences src (Srcs p') * length (files tree)) in *.
  set (k := count (SrcDirFileCount p') src) in *.
  destruct (decide (1000 < n)) as [Hn|Hn].
  - specialize (Hgt Hn). rewrite !decide_True by lia. done.
  - rewrite Hle by lia. by rewrite decide_False by lia.
Qed.

(** X23: the report of an analysis tells the number of files of a directory.
    After an analysis without error, a source that has a destination is in
    the report as a link, followed by nothing for a file and, for a
    directory with [n] files below it, by [" (directory, containing n
    files)"]: ["file"] without the ["s"] when [n] is at most 1, and
    ["1000+"] for the number when [n] is over 1000.  (A directory named [m]
    times in the text is counted [m] times.) *)
Theorem analyzeInput_directory
    (range : ∀ V : Type, gmap string V → list (string * V))
    (fs : Node) (now : string) (p p' : Program) (text src d : string)
    (tree : Node) :
  rangeOK range →
  AnalyzeInput fs now p text = (p', Ok tt) →
  DestDir p' !! src = Some d →
  os.node fs src = Ok tree →
  ∃ before after,
    analyzeInput range p'
    = before
      ++ [richPath src;
          richText
            (if isDir tree then
               directoryLine (occurrences src (Srcs p') * length (files tree))
             else "");
          richText newline]
      ++ after.
Proof. apply analyzeInput_directory_line. Qed.

Lemma analyzeInput_directory_witness :
  rangeOK rangeList ∧
  AnalyzeInput readableFS "260101" treeProgram "/in/d"
  = ((AnalyzeInput readableFS "260101" treeProgram "/in/d").1, Ok tt) ∧
  DestDir (AnalyzeInput readableFS "260101" treeProgram "/in/d").1 !! "/in/d"
  = Some "/out" ∧
  (∃ tree, os.node readableFS "/in/d" = Ok tree) ∧
  ∃ before after,
    analyzeInput rangeList (AnalyzeInput readableFS "260101" treeProgram "/in/d").1
    = before
      ++ [richPath "/in/d"; richText " (directory, containing 3 files)";
          richText newline]
      ++ after.
Proof.
  assert (AnalyzeInput readableFS "260101" treeProgram "/in/d"
          = ((AnalyzeInput readableFS "260101" treeProgram "/in/d").1, Ok tt))
    as Hrun by (vm_compute; reflexivity).
  assert (DestDir (AnalyzeInput readableFS "260101" treeProgram "/in/d").1
            !! "/in/d" = Some "/out") as Hd by (vm_compute; reflexivity).
  assert (∃ tree, os.node readableFS "/in/d" = Ok tree ∧ isDir tree = true ∧
                  length (files tree) = 3) as (tree & Htree & Hdir & Hn)
    by (vm_compute; eexists; split; [reflexivity | split; reflexivity]).
  assert (occurrences "/in/d"
            (Srcs (AnalyzeInput readableFS "260101" treeProgram "/in/d").1) = 1)
    as Hocc by (vm_compute; reflexivity).
  split; [exact rangeList_OK|]. split; [exact Hrun|]. split; [exact Hd|].
  split; [exists tree; exact Htree|].
  destruct (analyzeInput_directory rangeList _ _ _ _ _ _ _ tree rangeList_OK
              Hrun Hd Htree) as (before & after & Heq).
  exists before, after. etrans; [exact Heq|].
  rewrite Hdir, Hocc, Hn. reflexivity.
Defined.

(** ** The report of a copy *)

Lemma analyzeCopy_member
    (range : ∀ V : Type, gmap string V → list (string * V)) (p : Program)
    (destDir : string) (srcs : list string) (src : string) :
  rangeOK range → DestDirSrcs p !! destDir = Some srcs → src ∈ srcs →
  richPath (destDir +:+ filepath.Base src) ∈ analyzeCopy range p.
Proof.
  intros Hrange Hd Hsrc. unfold analyzeCopy.
  apply elem_of_app. right. apply list_elem_of_In, in_flat_map.
  exists (destDir, srcs). split; [by apply list_elem_of_In, Hrange|].
  apply list_elem_of_In, elem_of_app. right.
  apply list_elem_of_In, in_flat_map. exists src.
  split; [by apply list_elem_of_In | by left].
Qed.

Lemma app_inj_l (a b c : string) : a +:+ b = a +:+ c → b = c.
Proof.
  induction a as [|x a IH]; [by rewrite !Str.app_nil_l|].
  rewrite !Str.app_cons. intros [= H]. by apply IH.
Qed.

Lemma Join_abs_concat (es : list string) (e : string) :
  Forall paths.isName es → paths.isName e →
  filepath.Join (paths.abs es) e = paths.abs es +:+ e ↔ es = [].
Proof.
  intros Hes He. rewrite paths.Join_abs_name by done. split.
  - intros Heq. destruct (decide (es = [])) as [|Hne]; [done|].
    exfalso. revert Heq.
    rewrite paths.abs_app by done. unfold paths.below.
    rewrite decide_False by done. intros Heq%app_inj_l.
    apply (f_equal String.length) in Heq. unfold paths.abs in Heq.
    simpl in Heq. rewrite Str.app_nil_l in Heq. lia.
  - intros ->. done.
Qed.

(** X24: the report of a copy names, for a source, the destination of its
    group with the base name of the source right after it, and no separator
    in between.  For a clean absolute destination, that is the path
    [filepath.Join(destDir, filepath.Base(src))] only if the destination is
    the root directory. *)
Theorem analyzeCopy_link
    (range : ∀ V : Type, gmap string V → list (string * V)) (p : Program)
    (es srcs : list string) (src : string) :
  rangeOK range → Forall paths.isName es → paths.isName (filepath.Base src) →
  DestDirSrcs p !! paths.abs es = Some srcs → src ∈ srcs →
  richPath (paths.abs es +:+ filepath.Base src) ∈ analyzeCopy range p ∧
  (filepath.Join (paths.abs es) (filepath.Base src)
   = paths.abs es +:+ filepath.Base src ↔ es = []).
Proof.
  intros Hrange Hes He Hd Hsrc. split.
  - by eapply analyzeCopy_member.
  - by apply Join_abs_concat.
Qed.

Lemma analyzeCopy_link_witness :
  rangeOK rangeList ∧
  DestDirSrcs analyzedExample !! "/out/x/260101" = Some ["/in/x_y"] ∧
  richPath "/out/x/260101x_y" ∈ analyzeCopy rangeList analyzedExample ∧
  filepath.Join "/out/x/260101" "x_y" ≠ "/out/x/260101x_y".
Proof.
  assert (Forall paths.isName ["out"; "x"; "260101"]) as Hes
    by (repeat constructor; by_compute).
  assert (paths.isName (filepath.Base "/in/x_y")) as He by by_compute.
  assert (DestDirSrcs analyzedExample !! paths.abs ["out"; "x"; "260101"]
          = Some ["/in/x_y"]) as Hd by (vm_compute; reflexivity).
  assert ("/in/x_y" ∈ ["/in/x_y"]) as Hsrc by (by left).
  destruct (analyzeCopy_link rangeList analyzedExample _ _ _ rangeList_OK
              Hes He Hd Hsrc) as [Hin Hiff].
  split; [exact rangeList_OK|]. split; [exact Hd|]. split; [exact Hin|].
  intros Heq. apply Hiff in Heq. discriminate Heq.
Defined.
